(** * Offline tierlist maker: the page script and the duplicate-removal utility

    A shallow embedding of two programs of the repository:

    - [RemoveDuplicates]: the Node utility [util/remove_duplicates.js]
      ([loadJsonFile], [isDuplicate], [collectAllEntries],
      [findDuplicateGroups], [keepShortestEntry],
      [removeDuplicatesFromTierlist], [main]);
    - [Tiers]: the page script ([get_item_index], the [drop] handler of
      [make_accept_drop], [reset_row], [rm_row], [add_row], the row buttons,
      [save_tierlist], [load_tierlist], [rgb_to_hex], the import handler).

    The DOM tree the page script works on is represented by the part of it
    that the script itself builds: the rows of [div.tierlist] with their
    [span.item] children, and the children of [section.images]. *)

From Stdlib Require Import ZArith Lia Ascii String.
From Stdlib.Strings Require Byte.
From stdpp Require Import base list strings gmap sorting.

Local Open Scope string_scope.
Local Open Scope list_scope.
Local Open Scope nat_scope.

Set Warnings "-clear-no-such-hyp".

(* ================================================================== *)
(** ** JavaScript strings *)
(* ================================================================== *)

(** A string is a sequence of code units; the embedding covers the code
    units below 256, one [ascii] each. *)
Module JsString.

(** White space of [String.prototype.trim] among the code units below
    256: TAB, LF, VT, FF, CR, SPACE and NO-BREAK SPACE. *)
Definition is_white_space (c : ascii) : bool :=
  let n := N_of_ascii c in
  ((9 <=? n) && (n <=? 13) || (n =? 32) || (n =? 160))%N.

(** [toLowerCase] on one code unit: A-Z and the capital letters of the
    Latin-1 supplement (U+00C0..U+00DE but the multiplication sign). *)
Definition lower_char (c : ascii) : ascii :=
  let n := N_of_ascii c in
  if ((65 <=? n) && (n <=? 90)
      || (192 <=? n) && (n <=? 222) && negb (n =? 215))%N
  then ascii_of_N (n + 32) else c.

Fixpoint toLowerCase (s : string) : string :=
  match s with
  | EmptyString => EmptyString
  | String c s' => String (lower_char c) (toLowerCase s')
  end.

Fixpoint trimStart (s : string) : string :=
  match s with
  | EmptyString => EmptyString
  | String c s' => if is_white_space c then trimStart s' else s
  end.

(** Drops the white space at the end: a white-space unit stays only when
    something that stays follows it. *)
Fixpoint trimEnd (s : string) : string :=
  match s with
  | EmptyString => EmptyString
  | String c s' =>
      match trimEnd s' with
      | EmptyString => if is_white_space c then EmptyString else String c EmptyString
      | t => String c t
      end
  end.

Definition trim (s : string) : string := trimEnd (trimStart s).

(** Made of white space only. *)
Fixpoint all_white_space (s : string) : bool :=
  match s with
  | EmptyString => true
  | String c s' => is_white_space c && all_white_space s'
  end.

(** No white space at the start, at the end. *)
Definition starts_dark (s : string) : bool :=
  match s with
  | EmptyString => true
  | String c _ => negb (is_white_space c)
  end.

Fixpoint ends_dark (s : string) : bool :=
  match s with
  | EmptyString => true
  | String c EmptyString => negb (is_white_space c)
  | String _ s' => ends_dark s'
  end.

(** [hay.includes(needle)] *)
Fixpoint includes (hay needle : string) : bool :=
  if String.prefix needle hay then true
  else match hay with
       | EmptyString => false
       | String _ hay' => includes hay' needle
       end.

(** [s.substr(0, n)] *)
Fixpoint substr0 (n : nat) (s : string) : string :=
  match n, s with
  | S n', String c s' => String c (substr0 n' s')
  | _, _ => EmptyString
  end.

(** Truthiness of a string: every string but the empty one. *)
Definition truthy (s : string) : bool :=
  match s with EmptyString => false | _ => true end.

(** [short] is [long] without the white space at its two ends: white
    space alone was taken off, and none is left at either end. *)
Definition stripped (long short : string) : Prop :=
  ∃ pre post, long = (pre ++ short ++ post)%string
              ∧ all_white_space pre = true ∧ all_white_space post = true
              ∧ starts_dark short = true ∧ ends_dark short = true.

End JsString.

(* ================================================================== *)
(** ** The JSON file format *)
(* ================================================================== *)

(** The values [JSON.parse] hands to both programs, as far as the programs
    look into them: each field that is present has the type the schema
    gives it, and any field but the title may be absent ([None] stands for
    [undefined]). *)
Module Wire.

(** An entry of [imgs] or [untiered]: a bare string (the legacy form) or
    an object with [src] and [name]. *)
Inductive item_entry : Type :=
| EString (s : string)
| EObject (src name : option string).

Record row_entry : Type := RowEntry {
  re_name : string;
  re_color : option string;
  re_imgs : option (list item_entry)
}.

Record document : Type := Document {
  wd_title : string;
  wd_rows : option (list row_entry);
  wd_untiered : option (list item_entry)
}.

(** What [JSON.parse] returned: a falsy value ([null], [false], [0] or
    the empty string) or a document object. *)
Inductive parsed : Type :=
| PFalsy
| PObject (d : document).

#[global] Instance item_entry_eq_dec : EqDecision item_entry.
Proof. solve_decision. Defined.
#[global] Instance row_entry_eq_dec : EqDecision row_entry.
Proof. solve_decision. Defined.
#[global] Instance document_eq_dec : EqDecision document.
Proof. solve_decision. Defined.

End Wire.

(* ================================================================== *)
(** ** util/remove_duplicates.js *)
(* ================================================================== *)

Module RemoveDuplicates.
Import JsString Wire.

(** *** loadJsonFile *)

Inductive load_error : Type :=
| InvalidSyntax            (* JSON.parse threw, or the stream failed *)
| RootNotObject            (* 'Invalid JSON: root must be an object' *)
| RowsNotArray.            (* 'Invalid JSON: "rows" must be an array' *)

(** The validation of [loadJsonFile] on what [JSON.parse] produced
    ([None]: it threw). A present [untiered] is an array in this format,
    so the third check of the source never fires here. *)
Definition loadJsonFile (content : option parsed) : load_error + document :=
  match content with
  | None => inl InvalidSyntax
  | Some PFalsy => inl RootNotObject
  | Some (PObject d) =>
      match wd_rows d with
      | None => inl RowsNotArray
      | Some _ => inr d
      end
  end.

(** *** Names *)

Definition normalizeName (name : string) : string := trim (toLowerCase name).

Definition isDuplicate (name1 name2 : string) : bool :=
  let norm1 := normalizeName name1 in
  let norm2 := normalizeName name2 in
  if bool_decide (norm1 = norm2) then true
  else if (String.length norm1 <? String.length norm2)%nat then includes norm2 norm1
  else if (String.length norm2 <? String.length norm1)%nat then includes norm1 norm2
  else false.

(** *** Entries and where they sit *)

Inductive location : Type :=
| Tier (tierName : string) (rowIndex itemIndex : nat)
| Untiered (itemIndex : nat).

#[global] Instance location_eq_dec : EqDecision location.
Proof. solve_decision. Defined.

(** A collected entry: the item object ([src], [name]) and its location.
    Two collected entries are the same JavaScript object exactly when
    their locations agree, so [!==] on entries is decided on locations. *)
Record entry : Type := Entry {
  entry_src : option string;
  entry_name : string;
  entry_location : location
}.

#[global] Instance entry_eq_dec : EqDecision entry.
Proof. solve_decision. Defined.

Definition same_entry (e1 e2 : entry) : bool :=
  bool_decide (entry_location e1 = entry_location e2).

(** [item && typeof item === 'object' && item.name]: an object whose
    name is a non-empty string. *)
Definition collect_item (mk : nat -> location) (itemIndex : nat)
    (item : item_entry) : list entry :=
  match item with
  | EObject src (Some name) =>
      if truthy name then [Entry src name (mk itemIndex)] else []
  | _ => []
  end.

Definition collect_items (mk : nat -> location) (items : list item_entry)
    : list entry :=
  concat (imap (collect_item mk) items).

Definition collect_row (rowIndex : nat) (row : row_entry) : list entry :=
  match re_imgs row with
  | Some imgs => collect_items (Tier (re_name row) rowIndex) imgs
  | None => []
  end.

(** [jsonData.rows.forEach] throws a [TypeError] ([None]) when [rows] is
    absent; [loadJsonFile] lets no such document through. *)
Definition collectAllEntries (jsonData : document) : option (list entry) :=
  rows ← wd_rows jsonData;
  Some (concat (imap collect_row rows)
        ++ match wd_untiered jsonData with
           | Some untiered => collect_items Untiered untiered
           | None => []
           end).

(** *** findDuplicateGroups *)

(** The search of the group for a duplicate of [name]
    ([for (const groupEntry of group)]). *)
Definition duplicate_in_group (group : list entry) (name : string) : bool :=
  existsb (fun groupEntry => isDuplicate (entry_name groupEntry) name) group.

(** One run of the [for j] loop inside the [while]: the state is the
    group, the set of processed indices and [foundNew]. *)
Definition scan_step (entries : list entry)
    (st : list entry * gset nat * bool) (j : nat) : list entry * gset nat * bool :=
  let '(group, processed, foundNew) := st in
  if bool_decide (j ∈ processed) then st
  else match entries !! j with
       | Some e =>
           if duplicate_in_group group (entry_name e)
           then (group ++ [e], {[j]} ∪ processed, true)
           else st
       | None => st
       end.

Definition scan (entries : list entry) (group : list entry)
    (processed : gset nat) : list entry * gset nat * bool :=
  foldl (scan_step entries) (group, processed, false)
        (seq 0 (length entries)).

(** [while (foundNew)]: [None] when the fuel does not suffice. *)
Fixpoint grow (fuel : nat) (entries : list entry) (group : list entry)
    (processed : gset nat) : option (list entry * gset nat) :=
  match fuel with
  | O => None
  | S fuel' =>
      let '(group', processed', foundNew) := scan entries group processed in
      if foundNew then grow fuel' entries group' processed'
      else Some (group', processed')
  end.

(** One run of the outer [for i] loop. *)
Definition group_step (entries : list entry)
    (st : option (list (list entry) * gset nat)) (i : nat)
    : option (list (list entry) * gset nat) :=
  match st with
  | None => None
  | Some (groups, processed) =>
      if bool_decide (i ∈ processed) then st
      else match entries !! i with
           | None => st
           | Some e =>
               match grow (S (length entries)) entries [e] ({[i]} ∪ processed) with
               | None => None
               | Some (group, processed') =>
                   if (1 <? length group)%nat
                   then Some (groups ++ [group], processed')
                   else Some (groups, processed')
               end
           end
  end.

Definition findDuplicateGroups (entries : list entry)
    : option (list (list entry)) :=
  fst <$> foldl (group_step entries) (Some ([], ∅)) (seq 0 (length entries)).

(** *** keepShortestEntry *)

(** [group.reduce(...)] without an initial value: a [TypeError] ([None])
    on the empty group. *)
Definition keepShortestEntry (group : list entry) : option entry :=
  match group with
  | [] => None
  | first :: rest =>
      Some (foldl (fun shortest current =>
                     if (String.length (entry_name current)
                         <? String.length (entry_name shortest))%nat
                     then current else shortest) first rest)
  end.

(** *** removeDuplicatesFromTierlist *)

(** The identifiers [tier-r-i] and [untiered-i] name locations one to
    one; the set of identifiers is a list of these. *)
Inductive entry_id : Type :=
| IdTier (rowIndex itemIndex : nat)
| IdUntiered (itemIndex : nat).

#[global] Instance entry_id_eq_dec : EqDecision entry_id.
Proof. solve_decision. Defined.

Definition id_of_location (l : location) : entry_id :=
  match l with
  | Tier _ r i => IdTier r i
  | Untiered i => IdUntiered i
  end.

Definition ids_of_group (group : list entry) : option (list entry_id) :=
  kept ← keepShortestEntry group;
  Some (id_of_location ∘ entry_location
          <$> filter (fun e => same_entry e kept = false) group).

Definition entriesToRemove (duplicateGroups : list (list entry))
    : option (list entry_id) :=
  (fun idss => concat idss) <$> mapM ids_of_group duplicateGroups.

(** [for (let i = length - 1; i >= 0; i--) if (has(id i)) splice(i, 1)];
    [i] counts the indices still to visit. *)
Fixpoint splice_marked {A} (has : nat -> bool) (i : nat) (l : list A) : list A :=
  match i with
  | O => l
  | S i' => splice_marked has i' (if has i' then delete i' l else l)
  end.

Definition clean_items (mk : nat -> entry_id) (ids : list entry_id)
    (items : list item_entry) : list item_entry :=
  splice_marked (fun i => bool_decide (mk i ∈ ids)) (length items) items.

Definition clean_row (ids : list entry_id) (rowIndex : nat) (row : row_entry)
    : row_entry :=
  RowEntry (re_name row) (re_color row)
           (clean_items (IdTier rowIndex) ids <$> re_imgs row).

Definition removeDuplicatesFromTierlist (jsonData : document)
    (duplicateGroups : list (list entry)) : option document :=
  ids ← entriesToRemove duplicateGroups;
  rows ← wd_rows jsonData;
  Some (Document (wd_title jsonData)
                 (Some (imap (clean_row ids) rows))
                 (clean_items IdUntiered ids <$> wd_untiered jsonData)).

(** *** main *)

(** What the run meets outside the program: the file system and the
    answers typed at the prompts. The answer to the skip prompt enters
    already parsed by [parseGroupSelection]. *)
Record environment : Type := Environment {
  env_exists : bool;              (* fs.existsSync(filePath) *)
  env_content : option parsed;    (* JSON.parse of the file; None: it threw *)
  env_skipped : list nat;         (* requestGroupsToSkip *)
  env_approval : string;          (* 'Do you want to proceed ...? (y/n): ' *)
  env_backup_ok : bool;           (* fs.copyFileSync succeeds *)
  env_continue : string;          (* 'Continue without backup? (y/n): ' *)
  env_write_ok : bool             (* the write stream finishes *)
}.

(** What the run does to the outside, in order. *)
Inductive event : Type :=
| Exit1                           (* process.exit(1) *)
| BackupCreated                   (* copyFileSync(filePath, backupPath) done *)
| BackupFailed                    (* copyFileSync threw *)
| ContinueWithoutBackup           (* the user answered y or yes *)
| WriteFile (data : document).    (* saveJsonFile(filePath, cleanedData) *)

#[global] Instance event_eq_dec : EqDecision event.
Proof. solve_decision. Defined.

(** [answer.toLowerCase().trim() === 'y' || ... === 'yes'] *)
Definition is_yes (answer : string) : bool :=
  let a := trim (toLowerCase answer) in
  bool_decide (a = "y") || bool_decide (a = "yes").

(** The [try { createBackup } catch { question }] block: the events, and
    whether the run goes on. *)
Definition backup_step (env : environment) : list event * bool :=
  if env_backup_ok env then ([BackupCreated], true)
  else if is_yes (env_continue env)
       then ([BackupFailed; ContinueWithoutBackup], true)
       else ([BackupFailed], false).

(** [main]: the trace of the run. An uncaught [TypeError] would end in the
    [catch] of [main().catch], which exits with code 1. *)
Definition main (env : environment) : list event :=
  if negb (env_exists env) then [Exit1]
  else match loadJsonFile (env_content env) with
  | inl _ => [Exit1]
  | inr jsonData =>
    match collectAllEntries jsonData ≫= findDuplicateGroups with
    | None => [Exit1]
    | Some duplicateGroups =>
      if bool_decide (length duplicateGroups = 0) then []
      else
        let allGroupIndices := seq 0 (length duplicateGroups) in
        let selectedGroupIndices :=
          filter (fun idx => idx ∉ env_skipped env) allGroupIndices in
        if bool_decide (length selectedGroupIndices = 0) then []
        else
          let selectedGroups :=
            omap (fun idx => duplicateGroups !! idx) selectedGroupIndices in
          if negb (is_yes (env_approval env)) then []
          else
            let '(events, go_on) := backup_step env in
            if negb go_on then events
            else match removeDuplicatesFromTierlist jsonData selectedGroups with
                 | None => events ++ [Exit1]
                 | Some cleanedData =>
                     events ++ [WriteFile cleanedData]
                     ++ (if env_write_ok env then [] else [Exit1])
                 end
    end
  end.

End RemoveDuplicates.

(* ================================================================== *)
(** ** util/remove_duplicates.js: the answer to the skip prompt *)
(* ================================================================== *)

Module Selection.
Import JsString.

(** *** parseInt *)

(** The value of a character as a digit of the radix. *)
Definition digit_value (radix : N) (c : ascii) : option N :=
  let n := N_of_ascii c in
  let v :=
    if ((48 <=? n) && (n <=? 57))%N then Some (n - 48)%N
    else if ((97 <=? n) && (n <=? 122))%N then Some (n - 87)%N
    else if ((65 <=? n) && (n <=? 90))%N then Some (n - 55)%N
    else None in
  match v with
  | Some d => if (d <? radix)%N then Some d else None
  | None => None
  end.

(** The value of the longest prefix made of digits, from the value [acc]
    of the digits read so far; [None] when there is no digit at all. *)
Fixpoint digits_value (radix : N) (s : string) (acc : option N) : option N :=
  match s with
  | EmptyString => acc
  | String c s' =>
      match digit_value radix c with
      | Some d => digits_value radix s' (Some (default 0 acc * radix + d))%N
      | None => acc
      end
  end.

(** [parseInt(s)] without a radix: white space, a sign, [0x] for base 16,
    then the digits; [None] is [NaN]. Numbers are taken as exact. *)
Definition parseInt (s : string) : option Z :=
  let s := trimStart s in
  let '(sign, s) :=
    match s with
    | String "-" s' => ((-1)%Z, s')
    | String "+" s' => (1%Z, s')
    | _ => (1%Z, s)
    end in
  let '(radix, s) :=
    match s with
    | String "0" (String "x" s') | String "0" (String "X" s') => (16%N, s')
    | _ => (10%N, s)
    end in
  (fun n => (sign * Z.of_N n)%Z) <$> digits_value radix s None.

(** *** The parts *)

(** A match of [/[,\s]+/] is made of these. *)
Definition is_separator (c : ascii) : bool :=
  bool_decide (c = ","%char) || is_white_space c.

(** [trimmed.split(/[,\s]+/).filter(p => p.length > 0)]: the runs of
    characters between separators; [part] is the run being read. *)
Fixpoint split_parts (s : string) (part : string) : list string :=
  match s with
  | EmptyString => if truthy part then [part] else []
  | String c s' =>
      if is_separator c
      then (if truthy part then [part] else []) ++ split_parts s' EmptyString
      else split_parts s' (part +:+ String c EmptyString)
  end.

Definition is_digit (c : ascii) : bool :=
  let n := N_of_ascii c in ((48 <=? n) && (n <=? 57))%N.

(** The longest prefix of digits and what follows it. *)
Fixpoint span_digits (s : string) : string * string :=
  match s with
  | String c s' =>
      if is_digit c
      then let '(d, rest) := span_digits s' in (String c d, rest)
      else (EmptyString, s)
  | EmptyString => (EmptyString, EmptyString)
  end.

(** A match of [/(\d+)[-:](\d+)/] that begins where [s] begins: the two
    groups. *)
Definition match_here (s : string) : option (string * string) :=
  let '(d1, rest) := span_digits s in
  if truthy d1
  then match rest with
       | String sep rest' =>
           if bool_decide (sep = "-"%char) || bool_decide (sep = ":"%char)
           then let '(d2, _) := span_digits rest' in
                if truthy d2 then Some (d1, d2) else None
           else None
       | EmptyString => None
       end
  else None.

(** [part.match(/(\d+)[-:](\d+)/)]: the first place of the part where
    the expression matches. *)
Fixpoint rangeMatch (part : string) : option (string * string) :=
  match match_here part with
  | Some groups => Some groups
  | None =>
      match part with
      | EmptyString => None
      | String _ part' => rangeMatch part'
      end
  end.

(** *** parseGroupSelection *)

(** [selected.add(i)] on a [Set], kept in the order of insertion. *)
Definition add (i : nat) (selected : list nat) : list nat :=
  if bool_decide (i ∈ selected) then selected else selected ++ [i].

(** The body of the loop over the parts. *)
Definition select_part (totalGroups : nat) (selected : list nat) (part : string)
    : list nat :=
  if includes part "-" || includes part ":"
  then match rangeMatch part with
       | Some (g1, g2) =>
           match parseInt g1, parseInt g2 with
           | Some n1, Some n2 =>
               let start := (n1 - 1)%Z in
               let end_ := (n2 - 1)%Z in
               if bool_decide (0 ≤ start)%Z
                  && bool_decide (end_ < Z.of_nat totalGroups)%Z
                  && bool_decide (start ≤ end_)%Z
               then foldl (fun sel i => add i sel) selected
                          (seq (Z.to_nat start) (Z.to_nat (end_ - start + 1)))
               else selected
           | _, _ => selected
           end
       | None => selected
       end
  else match parseInt part with
       | Some n =>
           let num := (n - 1)%Z in
           if bool_decide (0 ≤ num)%Z && bool_decide (num < Z.of_nat totalGroups)%Z
           then add (Z.to_nat num) selected
           else selected
       | None => selected
       end.

(** [parseGroupSelection(input, totalGroups)]; the numbers of a [Set]
    differ, so the sort with [(a, b) => a - b] has one outcome. *)
Definition parseGroupSelection (input : string) (totalGroups : nat) : list nat :=
  let trimmed := toLowerCase (trim input) in
  if bool_decide (trimmed = "all") || bool_decide (trimmed = "a")
  then seq 0 totalGroups
  else if bool_decide (trimmed = "none") || bool_decide (trimmed = "n")
          || bool_decide (trimmed = "")
  then []
  else merge_sort (≤) (foldl (select_part totalGroups) []
                             (split_parts trimmed EmptyString)).

End Selection.

(* ================================================================== *)
(** ** util/add_restaurant.js *)
(* ================================================================== *)

Module AddRestaurant.
Import JsString Wire.

(** *** downloadAndConvertImage *)

(** What the [get] hands to the callback, as far as the function looks
    into it: the status, the [content-type] header ([None]: there is
    none) and the body, already as [buffer.toString('base64')] gives
    it. *)
Record response : Type := Response {
  statusCode : Z;
  content_type : option string;
  body_base64 : string
}.

(** The chain of [includes] on the header, or on ['image/png'] when the
    header is missing or empty, and on the lower-cased URL when the header
    names none of the formats. *)
Definition mimeType (header : option string) (imageUrl : string) : string :=
  let contentType :=
    match header with
    | Some h => if truthy h then h else "image/png"
    | None => "image/png"
    end in
  if includes contentType "webp" then "image/webp"
  else if includes contentType "jpeg" || includes contentType "jpg"
  then "image/jpeg"
  else if includes contentType "png" then "image/png"
  else if includes contentType "gif" then "image/gif"
  else
    let urlLower := toLowerCase imageUrl in
    if includes urlLower ".webp" then "image/webp"
    else if includes urlLower ".jpg" || includes urlLower ".jpeg"
    then "image/jpeg"
    else if includes urlLower ".gif" then "image/gif"
    else "image/png".

(** The promise: resolved with the data URI, or rejected ([None]) when
    the URL is invalid or the request fails (no response), or when the
    status is not 200. *)
Definition downloadAndConvertImage (imageUrl : string) (res : option response)
    : option string :=
  match res with
  | None => None
  | Some r =>
      if bool_decide (statusCode r = 200%Z)
      then Some ("data:" +:+ mimeType (content_type r) imageUrl
                 +:+ ";base64," +:+ body_base64 r)
      else None
  end.

(** *** loadJsonFile *)

Inductive load_error : Type :=
| InvalidSyntax            (* JSON.parse threw, or the stream failed *)
| RootNotObject            (* 'Invalid JSON: root must be an object' *)
| RowsNotArray.            (* 'Invalid JSON: "rows" must be an array' *)

(** The same validation as in the other utility. *)
Definition loadJsonFile (content : option parsed) : load_error + document :=
  match content with
  | None => inl InvalidSyntax
  | Some PFalsy => inl RootNotObject
  | Some (PObject d) =>
      match wd_rows d with
      | None => inl RowsNotArray
      | Some _ => inr d
      end
  end.

(** *** main *)

(** [file.endsWith(suffix)] *)
Fixpoint endsWith (file suffix : string) : bool :=
  if String.eqb file suffix then true
  else match file with
       | EmptyString => false
       | String _ file' => endsWith file' suffix
       end.

(** What the run meets outside the program. The number typed at the
    first prompt enters as [parseInt] reads it ([None]: [NaN]). *)
Record environment : Type := Environment {
  env_dir : option (list string);           (* fs.readdirSync(DATA_DIR); None: it threw *)
  env_choice : option Z;                     (* parseInt(fileChoice) *)
  env_name : string;                         (* 'Enter restaurant name: ' *)
  env_url : string;                          (* 'Enter image URL: ' *)
  env_content : string -> option parsed;     (* JSON.parse of the file of that name *)
  env_response : string -> option response;  (* the answer to the get of that URL *)
  env_write_ok : bool                        (* the write stream finishes *)
}.

Inductive event : Type :=
| Exit1                                      (* process.exit(1) *)
| WriteFile (file : string) (data : document).  (* saveJsonFile(filePath, jsonData) *)

#[global] Instance event_eq_dec : EqDecision event.
Proof. solve_decision. Defined.

(** [{src: dataUri, name: restaurantName.trim()}] *)
Definition newEntry (dataUri restaurantName : string) : item_entry :=
  EObject (Some dataUri) (Some (trim restaurantName)).

(** [main]: the trace of the run. *)
Definition main (env : environment) : list event :=
  match env_dir env with
  | None => [Exit1]
  | Some files =>
    let jsonFiles := List.filter (fun file => endsWith file ".json") files in
    if bool_decide (length jsonFiles = 0) then [Exit1]
    else match env_choice env with
    | None => [Exit1]
    | Some choice =>
      let fileIndex := (choice - 1)%Z in
      if bool_decide (fileIndex < 0)%Z
         || bool_decide (Z.of_nat (length jsonFiles) ≤ fileIndex)%Z
      then [Exit1]
      else match jsonFiles !! Z.to_nat fileIndex with
      | None => [Exit1]                      (* not met: the index is in range *)
      | Some selectedFile =>
        if negb (truthy (trim (env_name env))) then [Exit1]
        else if negb (truthy (trim (env_url env))) then [Exit1]
        else match loadJsonFile (env_content env selectedFile) with
        | inl _ => [Exit1]
        | inr jsonData =>
          let untiered := default [] (wd_untiered jsonData) in
          let imageUrl := trim (env_url env) in
          match downloadAndConvertImage imageUrl (env_response env imageUrl) with
          | None => [Exit1]
          | Some dataUri =>
              WriteFile selectedFile
                (Document (wd_title jsonData) (wd_rows jsonData)
                   (Some (untiered ++ [newEntry dataUri (env_name env)])))
              :: (if env_write_ok env then [] else [Exit1])
          end
        end
      end
    end
  end.

End AddRestaurant.

(* ================================================================== *)
(** ** The page script *)
(* ================================================================== *)

Module Tiers.
Import JsString Wire.

Definition MAX_NAME_LEN : nat := 200.
Definition DEFAULT_TIERS : list string := ["S"; "A"; "B"; "C"; "D"; "E"; "F"].
Definition TIER_COLORS : list string :=
  ["#ff6666"; "#f0a731"; "#f4d95b"; "#66ff66"; "#58c8f4"; "#5b76f4"; "#f45bed"].

(** *** Header colours *)

(** What [header.style.backgroundColor] holds once a colour is set: the
    three channels of [rgb(r, g, b)]. *)
Record rgb : Type := Rgb { red : Byte.byte; green : Byte.byte; blue : Byte.byte }.

#[global] Instance byte_eq_dec : EqDecision Byte.byte := Byte.byte_eq_dec.

#[global] Instance rgb_eq_dec : EqDecision rgb.
Proof. solve_decision. Defined.

Definition channel (c : Byte.byte) : Z := Z.of_N (Byte.to_N c).

(** The 32-bit integers of the bitwise operators. *)
Definition to_int32 (z : Z) : Z := (z + 2 ^ 31) mod 2 ^ 32 - 2 ^ 31.
Definition shl32 (a k : Z) : Z := to_int32 (Z.shiftl (to_int32 a) k).
Definition or32 (a b : Z) : Z := Z.lor (to_int32 a) (to_int32 b).

Definition hex_digit (d : Z) : ascii :=
  if (d <? 10)%Z then ascii_of_N (Z.to_N d + 48) else ascii_of_N (Z.to_N d + 87).

(** The digits of [n >= 0] in base 16, most significant first, in front
    of [acc]. *)
Fixpoint hex_digits (fuel : nat) (n : Z) (acc : list ascii) : list ascii :=
  match fuel with
  | O => acc
  | S fuel' =>
      if (n <? 16)%Z then hex_digit n :: acc
      else hex_digits fuel' (n / 16) (hex_digit (n mod 16) :: acc)
  end.

(** [n.toString(16)] on an integer. *)
Definition toString16 (n : Z) : string :=
  let digits m := hex_digits (S (Z.to_nat (Z.log2 m))) m [] in
  string_of_list_ascii
    (if (n <? 0)%Z then "-"%char :: digits (- n)%Z else digits n).

(** [s.slice(1)] *)
Definition slice1 (s : string) : string :=
  match s with
  | EmptyString => EmptyString
  | String _ s' => s'
  end.

(** ["#" + (1 << 24 | r << 16 | g << 8 | b).toString(16).slice(1)] *)
Definition rgb_to_hex (r g b : Z) : string :=
  String "#"
    (slice1 (toString16
       (or32 (or32 (or32 (shl32 1 24) (shl32 r 16)) (shl32 g 8)) b))).

(** The three numbers [save_tierlist] cuts out of the style string: the
    channels of a set colour; of the empty string of an unset one, an
    empty string and two [undefined], which the shifts all turn to 0. *)
Definition color_hex (color : option rgb) : string :=
  match color with
  | Some c => rgb_to_hex (channel (red c)) (channel (green c)) (channel (blue c))
  | None => rgb_to_hex 0 0 0
  end.

Definition hex_value (c : ascii) : option N :=
  let n := N_of_ascii c in
  if ((48 <=? n) && (n <=? 57))%N then Some (n - 48)%N
  else if ((97 <=? n) && (n <=? 102))%N then Some (n - 87)%N
  else if ((65 <=? n) && (n <=? 70))%N then Some (n - 55)%N
  else None.

Definition hex_pair (hi lo : ascii) : option Byte.byte :=
  h ← hex_value hi; l ← hex_value lo; Byte.of_N (16 * h + l).

(** The browser's reading of a colour assigned to
    [style.backgroundColor], for the one syntax of the file format,
    [#rrggbb]; an assignment the browser cannot read leaves the style as
    it was. The browser reads other ways of writing a colour as well (a
    name, [#rgb], [rgb(...)]), which are not followed here: of the
    colours of a file that was not saved by the page, what is stated is
    stated of those written [#rrggbb]. *)
Definition parse_color (s : string) : option rgb :=
  match s with
  | String "#" (String r1 (String r0 (String g1 (String g0
      (String b1 (String b0 EmptyString)))))) =>
      r ← hex_pair r1 r0; g ← hex_pair g1 g0; b ← hex_pair b1 b0;
      Some (Rgb r g b)
  | _ => None
  end.

Definition set_backgroundColor (value : string) (old : option rgb) : option rgb :=
  match parse_color value with
  | Some c => Some c
  | None => old
  end.

(** *** The tree *)

(** A [div.item-container]: its [img.draggable] and its
    [span.item-label]. The [src] of an image reads back as it was
    written (it is an absolute or [data:] URL). *)
Record item : Type := Item { item_src : string; item_name : string }.

#[global] Instance item_eq_dec : EqDecision item.
Proof. solve_decision. Defined.

(** The values the two index variables of the drag take: what
    [get_item_index] returns (a number or [null]), [undefined] before the
    first [dragenter], and what [- 1] makes of these. *)
Inductive js_index : Type :=
| JNum (z : Z)
| JNull
| JUndefined
| JNaN.

#[global] Instance js_index_eq_dec : EqDecision js_index.
Proof. solve_decision. Defined.

(** A [div.row]: the text of its label, the colour of its header, its
    [span.item] children (each holds one item container), and the two
    variables its handlers close over: [name] of [add_row] and
    [target_item_index] of [make_accept_drop]. The text of a label, like
    that of the title, is taken to read back through [innerText] as it was
    written. *)
Record row : Type := Row {
  row_name : string;
  row_color : option rgb;
  row_items : list item;
  row_arg_name : string;
  row_target : js_index
}.

(** A child of [section.images]: an item container put there by an import
    or by [reset_row], or the [span.item] a drop wrapped it in. *)
Inductive pool_child : Type :=
| Bare (it : item)
| InSpan (it : item).

Definition pool_item (c : pool_child) : item :=
  match c with Bare it | InSpan it => it end.

(** The grabbed item container, by where it sits. *)
Inductive place : Type :=
| InRow (r k : nat)
| InPool (k : nat).

#[global] Instance place_eq_dec : EqDecision place.
Proof. solve_decision. Defined.

Record state : Type := State {
  title : string;                    (* .title-label *)
  rows : list row;                   (* children of div.tierlist *)
  pool : list pool_child;            (* children of section.images *)
  pool_target : js_index;            (* target_item_index of the pool's handlers *)
  dragged_image : option place;
  old_item_index : js_index;
  unsaved_changes : bool
}.

Definition set_rows (rs : list row) (st : state) : state :=
  State (title st) rs (pool st) (pool_target st) (dragged_image st)
        (old_item_index st) (unsaved_changes st).

Definition set_pool (p : list pool_child) (st : state) : state :=
  State (title st) (rows st) p (pool_target st) (dragged_image st)
        (old_item_index st) (unsaved_changes st).

Definition set_row_items (its : list item) (rw : row) : row :=
  Row (row_name rw) (row_color rw) its (row_arg_name rw) (row_target rw).

Definition set_row_target (t : js_index) (rw : row) : row :=
  Row (row_name rw) (row_color rw) (row_items rw) (row_arg_name rw) t.

Definition set_row_color (c : option rgb) (rw : row) : row :=
  Row (row_name rw) c (row_items rw) (row_arg_name rw) (row_target rw).

(** *** get_item_index *)

(** The nodes below a [div.row] that an event can name: for the k-th
    [span.item] its container, image and label and the span itself; and
    the rest ([span.items], the header with its label and inputs, the
    buttons). The [div.row] itself is not among them: from it the walk up
    of [get_item_index] leaves the row, into markup that is not the
    script's. *)
Inductive row_node : Type :=
| NContainer (k : nat)
| NImg (k : nat)
| NLabel (k : nat)
| NItemSpan (k : nat)
| NOther.

#[global] Instance row_node_eq_dec : EqDecision row_node.
Proof. solve_decision. Defined.

(** [x.contains(y)]: [y] is [x] or lies below it. *)
Definition contains (x y : row_node) : bool :=
  match x, y with
  | NContainer k, (NContainer j | NImg j | NLabel j) => bool_decide (k = j)
  | NImg k, NImg j => bool_decide (k = j)
  | NLabel k, NLabel j => bool_decide (k = j)
  | NItemSpan k, (NItemSpan j | NContainer j | NImg j | NLabel j) =>
      bool_decide (k = j)
  | _, _ => false
  end.

(** [item_elem]: the enclosing [span.item] of a container, the enclosing
    container of an image, else the element itself. *)
Definition item_elem_of (elem : row_node) : row_node :=
  match elem with
  | NContainer k => NItemSpan k
  | NImg k => NContainer k
  | _ => elem
  end.

(** [rows[idx].querySelectorAll(".item-container, .item > img, .item img")]
    in document order, in a row of [n] items: every container, and after
    it the image it holds, which the third selector matches. *)
Definition item_list (n : nat) : list row_node :=
  flat_map (fun k => [NContainer k; NImg k]) (seq 0 n).

(** [rows[idx].querySelectorAll(".item")] *)
Definition item_spans (n : nat) : list row_node := NItemSpan <$> seq 0 n.

(** [get_item_index(elem)] for [elem] below a row of [n] items; the walk
    up from [elem] stops at that row. *)
Definition get_item_index (n : nat) (elem : row_node) : js_index :=
  match list_find (fun x => x = elem ∨ contains x elem = true) (item_list n) with
  | Some (i, _) => JNum (Z.of_nat i)
  | None =>
      match list_find (fun x => x = item_elem_of elem ∨ contains x elem = true)
                      (item_spans n) with
      | Some (i, _) => JNum (Z.of_nat i)
      | None => JNull
      end
  end.

(** [get_item_index(elem)] for the container or the image of a child of
    [section.images], in a pool of [n] children. The markup of the page is
    not among the sources; going by the comments of this branch, the walk
    up ends at the bottom container, whose [.item-container] and
    [img.draggable] elements are those of the pool, every container and
    after it its image. The 4 taken off is the source's. *)
Definition get_item_index_pool (n : nat) (elem : row_node) : js_index :=
  match list_find (fun x => x = elem ∨ contains x elem = true) (item_list n) with
  | Some (i, _) => JNum (Z.of_nat i - 4)
  | None => JNull
  end.

(** *** The operators on the index variables *)

(** [ToNumber]: [null] is 0, [undefined] is [NaN] ([None]). *)
Definition to_number (v : js_index) : option Z :=
  match v with
  | JNum z => Some z
  | JNull => Some 0%Z
  | JUndefined | JNaN => None
  end.

(** [a < b] *)
Definition js_lt (a b : js_index) : bool :=
  match to_number a, to_number b with
  | Some x, Some y => (x <? y)%Z
  | _, _ => false
  end.

(** [v - 1] *)
Definition js_pred (v : js_index) : js_index :=
  match to_number v with
  | Some z => JNum (z - 1)
  | None => JNaN
  end.

(** [children[v]]: the position of the child named, if there is one. *)
Definition child_at {A} (children : list A) (v : js_index) : option nat :=
  match v with
  | JNum z =>
      if bool_decide (0 ≤ z)%Z && bool_decide (Z.to_nat z < length children)
      then Some (Z.to_nat z) else None
  | _ => None
  end.

(** [parent.insertBefore(x, ref)]: at the end when [ref] is [undefined]. *)
Definition insertBefore {A} (children : list A) (x : A) (ref : option nat)
    : list A :=
  match ref with
  | Some i => take i children ++ x :: drop i children
  | None => children ++ [x]
  end.

(** *** mousedown, dragenter, end_drag *)

(** [mousedown] on the image of item [k] of row [r]. *)
Definition mousedown (r k : nat) (st : state) : state :=
  match rows st !! r with
  | Some rw =>
      if bool_decide (k < length (row_items rw))
      then State (title st) (rows st) (pool st) (pool_target st)
                 (Some (InRow r k))
                 (get_item_index (length (row_items rw)) (NContainer k))
                 (unsaved_changes st)
      else st
  | None => st
  end.

(** [dragenter] in row [r] with [evt.target] a node below the row: a
    label stands for its container. *)
Definition dragenter (r : nat) (drag_enter_img : row_node) (st : state) : state :=
  match rows st !! r with
  | Some rw =>
      let target_elem :=
        match drag_enter_img with
        | NLabel k => NContainer k
        | _ => drag_enter_img
        end in
      set_rows (<[r := set_row_target
                        (get_item_index (length (row_items rw)) target_elem) rw]>
                  (rows st)) st
  | None => st
  end.

Definition end_drag (st : state) : state :=
  State (title st) (rows st) (pool st) (pool_target st) None
        (old_item_index st) (unsaved_changes st).

(** *** drop *)

(** The element the handler was bound to and the target of the event:
    a row with the [div.row] itself as target, a row with a target below
    it, or [section.images]. *)
Inductive drop_event : Type :=
| DropOnRow (r : nat)
| DropInRow (r : nat)
| DropInPool.

(** The nodes compared by [items_container.parentNode === old_item_row]:
    a [div.row], or the parent of [section.images]. *)
Inductive container_parent : Type :=
| RowDiv (r : nat)
| PoolParent.

#[global] Instance container_parent_eq_dec : EqDecision container_parent.
Proof. solve_decision. Defined.

(** Taking the grabbed container out of the tree: the item, [old_item_row]
    ([None] for [undefined], when the container was not in a [span.item])
    and the tree without it. [None] when nothing sits at the place. *)
Definition detach (p : place) (st : state)
    : option (item * option container_parent * state) :=
  match p with
  | InRow r k =>
      rw ← rows st !! r;
      it ← row_items rw !! k;
      Some (it, Some (RowDiv r),
            set_rows (<[r := set_row_items (delete k (row_items rw)) rw]> (rows st)) st)
  | InPool k =>
      c ← pool st !! k;
      Some (pool_item c,
            match c with InSpan _ => Some PoolParent | Bare _ => None end,
            set_pool (delete k (pool st)) st)
  end.

(** [items_container.parentNode] *)
Definition items_container_parent (ev : drop_event) : container_parent :=
  match ev with
  | DropOnRow r | DropInRow r => RowDiv r
  | DropInPool => PoolParent
  end.

(** The index the handler goes on with: one less than
    [target_item_index] when the item moves within the same row and
    [old_item_index < target_item_index]. *)
Definition adjusted_index (old_item_row : option container_parent)
    (ev : drop_event) (old target : js_index) : js_index :=
  if bool_decide (Some (items_container_parent ev) = old_item_row)
     && js_lt old target
  then js_pred target else target.

(** The [drop] handler. Without a grabbed item, or with one that is not
    in the tree, nothing changes. *)
Definition drop (ev : drop_event) (st : state) : state :=
  match dragged_image st with
  | None => st
  | Some p =>
      match detach p st with
      | None => st
      | Some (it, old_item_row, st1) =>
          match ev with
          | DropOnRow r | DropInRow r =>
              match rows st1 !! r with
              | None => st
              | Some rw =>
                  let t := adjusted_index old_item_row ev
                             (old_item_index st) (row_target rw) in
                  let ref :=
                    match ev with
                    | DropOnRow _ => None
                    | _ => child_at (row_items rw) t
                    end in
                  let k' := default (length (row_items rw)) ref in
                  State (title st)
                        (<[r := Row (row_name rw) (row_color rw)
                                    (insertBefore (row_items rw) it ref)
                                    (row_arg_name rw) t]> (rows st1))
                        (pool st1) (pool_target st)
                        (Some (InRow r k')) (old_item_index st) true
              end
          | DropInPool =>
              let t := adjusted_index old_item_row ev
                         (old_item_index st) (pool_target st) in
              let ref := child_at (pool st1) t in
              let k' := default (length (pool st1)) ref in
              State (title st) (rows st1)
                    (insertBefore (pool st1) (InSpan it) ref) t
                    (Some (InPool k')) (old_item_index st) true
          end
      end
  end.

(** *** Rows *)

(** [reset_row(row)]: every container of the row goes to the end of
    [section.images], in order, and its [span.item] is dropped. *)
Definition reset_row (r : nat) (st : state) : state :=
  match rows st !! r with
  | Some rw =>
      set_pool (pool st ++ (Bare <$> row_items rw))
               (set_rows (<[r := set_row_items [] rw]> (rows st)) st)
  | None => st
  end.

(** [hard_reset_list]: both [innerHTML] emptied. *)
Definition hard_reset_list (st : state) : state :=
  set_pool [] (set_rows [] st).

Definition soft_reset_list (st : state) : state :=
  let st' := foldl (fun s r => reset_row r s) st (seq 0 (length (rows st))) in
  State (title st') (rows st') (pool st') (pool_target st')
        (dragged_image st') (old_item_index st') true.

(** The [index] of [add_row]: a number from the buttons and the page
    load, a string key from the [for ... in] of [load_tierlist], which
    [===] never finds equal to a length. *)
Inductive row_index : Type :=
| NumberIndex (n : nat)
| StringIndex (n : nat).

Definition index_value (i : row_index) : nat :=
  match i with NumberIndex n | StringIndex n => n end.

Definition new_row (name : string) : row := Row name None [] name JUndefined.

(** [add_row(index, name)]: the new row goes to the end when [index] is
    the number of rows, else before [rows[index]], which is the end again
    when there is no such row. *)
Definition add_row (index : row_index) (name : string) (st : state) : state :=
  let rs := rows st in
  let at_end :=
    match index with
    | NumberIndex n => bool_decide (n = length rs)
    | StringIndex _ => false
    end in
  set_rows
    (if at_end then rs ++ [new_row name]
     else insertBefore rs (new_row name)
            (if bool_decide (index_value index < length rs)
             then Some (index_value index) else None))
    st.

(** Where [add_row] put the row it returns. *)
Definition added_at (index : row_index) (st : state) : nat :=
  index_value index `min` length (rows st).

(** [TIER_COLORS[row_idx % TIER_COLORS.length]] assigned to the header. *)
Definition palette_color (row_idx : nat) (rw : row) : row :=
  match TIER_COLORS !! (row_idx `mod` length TIER_COLORS) with
  | Some color => set_row_color (set_backgroundColor color (row_color rw)) rw
  | None => rw
  end.

(** [recompute_header_colors(idx)]: all rows for [undefined] ([None]);
    a [TypeError] that changes nothing when there is no row [idx]. *)
Definition recompute_header_colors (idx : option nat) (st : state) : state :=
  match idx with
  | None => set_rows (imap palette_color (rows st)) st
  | Some i =>
      match rows st !! i with
      | Some rw => set_rows (<[i := palette_color i rw]> (rows st)) st
      | None => st
      end
  end.

(** [rm_row(idx)]; [reset_row(undefined)] throws when there is no such
    row. *)
Definition rm_row (idx : nat) (st : state) : state :=
  match rows st !! idx with
  | Some _ =>
      let st' := reset_row idx st in
      set_rows (delete idx (rows st')) st'
  | None => st
  end.

(** The three buttons of row [idx]; a row that is not there has no
    buttons to click. *)
Definition btn_plus_up (idx : nat) (st : state) : state :=
  match rows st !! idx with
  | Some _ => recompute_header_colors (Some idx) (add_row (NumberIndex idx) "" st)
  | None => st
  end.

Definition btn_plus_down (idx : nat) (st : state) : state :=
  match rows st !! idx with
  | Some rw =>
      recompute_header_colors (Some (idx + 1))
        (add_row (NumberIndex (idx + 1)) (row_arg_name rw) st)
  | None => st
  end.

(** [confirmed]: the answer to [confirm(...)], asked only of a row that
    holds images. *)
Definition btn_rm (idx : nat) (confirmed : bool) (st : state) : state :=
  match rows st !! idx with
  | Some rw =>
      if bool_decide (length (rows st) < 2) then st
      else if bool_decide (length (row_items rw) = 0) || confirmed
           then rm_row idx st
           else st
  | None => st
  end.

Inductive row_click : Type :=
| PlusUp (idx : nat)
| Minus (idx : nat) (confirmed : bool)
| PlusDown (idx : nat).

Definition click (c : row_click) (st : state) : state :=
  match c with
  | PlusUp idx => btn_plus_up idx st
  | Minus idx confirmed => btn_rm idx confirmed st
  | PlusDown idx => btn_plus_down idx st
  end.

Definition clicks (cs : list row_click) (st : state) : state :=
  foldl (fun s c => click c s) st cs.

(** The tierlist the [load] listener of the window builds, on a page
    whose title label reads [page_title]. *)
Definition default_state (page_title : string) : state :=
  recompute_header_colors None
    (foldl (fun s '(i, name) => add_row (NumberIndex i) name s)
           (State page_title [] [] JUndefined None JUndefined false)
           (imap (fun i name => (i, name)) DEFAULT_TIERS)).

(** *** save_tierlist *)

(** [{src: img.src, name: label.textContent.trim()}] *)
Definition save_container (it : item) : item_entry :=
  EObject (Some (item_src it)) (Some (trim (item_name it))).

(** The [imgs] of a row: one object per [.item-container]; when that
    gives nothing, the [src] of every [img.draggable] of the row. The
    images of a row all sit in its containers. *)
Definition save_imgs (items : list item) : list item_entry :=
  let imgs := save_container <$> items in
  if bool_decide (length imgs = 0)
  then (fun it => EString (item_src it)) <$> items
  else imgs.

Definition save_row (rw : row) : row_entry :=
  RowEntry (substr0 MAX_NAME_LEN (row_name rw))
           (Some (color_hex (row_color rw)))
           (Some (save_imgs (row_items rw))).

(** An element of
    [querySelectorAll('.images .item-container, .images img.draggable')]. *)
Inductive pool_elem : Type :=
| PContainer (it : item)
| PImg (it : item).

(** The list in document order: each container of the pool, bare or in a
    span, and after it the image it holds, which the second selector
    matches. *)
Definition untiered_imgs (p : list pool_child) : list pool_elem :=
  flat_map (fun c => [PContainer (pool_item c); PImg (pool_item c)]) p.

(** An item container is saved as an object, an [IMG] as its bare
    [src]. *)
Definition save_pool_elem (elem : pool_elem) : item_entry :=
  match elem with
  | PContainer it => save_container it
  | PImg it => EString (item_src it)
  end.

(** The object handed to [JSON.stringify]; the [untiered] key is set
    only when the list of elements is not empty. *)
Definition serialized_tierlist (st : state) : document :=
  Document (title st)
           (Some (save_row <$> rows st))
           (let elems := untiered_imgs (pool st) in
            if bool_decide (0 < length elems)
            then Some (save_pool_elem <$> elems) else None).

(** [save_tierlist]: the saved document, and [unsaved_changes] cleared by
    [save]. *)
Definition save_tierlist (st : state) : document * state :=
  (serialized_tierlist st,
   State (title st) (rows st) (pool st) (pool_target st)
         (dragged_image st) (old_item_index st) false).

(** *** load_tierlist *)

(** One entry of [imgs] or [untiered]: a string is the [src] of an item
    without a name, an object with a truthy [src] gives [src] and
    [name || '']; anything else is skipped. The item holds the source
    as [img.src] reads it back, which is the text assigned for a URL the
    browser itself has written, as the page saves them; a source written
    otherwise (capitals in the scheme, a relative path) comes back
    rewritten, which is not followed here: of the sources of a file that
    was not saved by the page, what is stated is stated of plain data
    URIs. *)
Definition load_item (img_data : item_entry) : option item :=
  match img_data with
  | EString s => Some (Item s "")
  | EObject (Some src) name =>
      if truthy src then Some (Item src (default "" name)) else None
  | EObject None _ => None
  end.

Definition load_items (imgs : list item_entry) : list item :=
  omap load_item imgs.

(** One run of the loop over [serialized_tierlist.rows]. *)
Definition load_row (st : state) (idx : nat) (ser_row : row_entry) : state :=
  let at_ := added_at (StringIndex idx) st in
  let st1 := add_row (StringIndex idx) (re_name ser_row) st in
  match rows st1 !! at_ with
  | None => st1
  | Some elem =>
      let elem1 :=
        Row (re_name ser_row) (row_color elem)
            (row_items elem ++ load_items (default [] (re_imgs ser_row)))
            (row_arg_name elem) (row_target elem) in
      match re_color ser_row with
      | Some color =>
          set_rows (<[at_ := set_row_color
                               (set_backgroundColor color (row_color elem1)) elem1]>
                      (rows st1)) st1
      | None =>
          recompute_header_colors None
            (set_rows (<[at_ := elem1]> (rows st1)) st1)
      end
  end.

Fixpoint load_rows (st : state) (idx : nat) (ser_rows : list row_entry) : state :=
  match ser_rows with
  | [] => st
  | ser_row :: rest => load_rows (load_row st idx ser_row) (S idx) rest
  end.

(** [load_tierlist(serialized_tierlist)]; a [for ... in] over an absent
    [rows] runs no iteration. *)
Definition load_tierlist (d : document) (st : state) : state :=
  let st1 :=
    State (wd_title d) (rows st) (pool st) (pool_target st)
          (dragged_image st) (old_item_index st) (unsaved_changes st) in
  let st2 := load_rows st1 0 (default [] (wd_rows d)) in
  let st3 :=
    match wd_untiered d with
    | Some untiered => set_pool (pool st2 ++ (Bare <$> load_items untiered)) st2
    | None => st2
    end in
  State (title st3) (rows st3) (pool st3) (pool_target st3)
        (dragged_image st3) (old_item_index st3) false.

(** The listener of the import input on the text of the chosen file:
    [JSON.parse] throws ([None]) and nothing runs after it; a falsy value
    is answered by the alert; anything else is loaded into the emptied
    page. *)
Definition import_input (content : option parsed) (st : state) : state :=
  match content with
  | None => st
  | Some PFalsy => st
  | Some (PObject d) => load_tierlist d (hard_reset_list st)
  end.

(** Saving and importing what was saved. *)
Definition reload (st : state) : state :=
  import_input (Some (PObject (serialized_tierlist st))) st.

(** *** The Document a page shows *)

Record tier : Type := Tier {
  tier_name : string;
  tier_color : option rgb;
  tier_items : list item
}.

Record tierlist : Type := Tierlist {
  tl_title : string;
  tl_rows : list tier;
  tl_untiered : list item
}.

Definition tier_of (rw : row) : tier :=
  Tier (row_name rw) (row_color rw) (row_items rw).

Definition document_of (st : state) : tierlist :=
  Tierlist (title st) (tier_of <$> rows st) (pool_item <$> pool st).

(** Every item of the page, rows first. *)
Definition all_items (st : state) : list item :=
  concat (row_items <$> rows st) ++ (pool_item <$> pool st).

(** *** Saving and loading again *)

(** The row [load_row] appends for an entry that names its colour. *)
Definition row_of_entry (ser_row : row_entry) : row :=
  Row (re_name ser_row)
      (set_backgroundColor (default "" (re_color ser_row)) None)
      (load_items (default [] (re_imgs ser_row)))
      (re_name ser_row) JUndefined.

(** What is loaded for the saved container of an item. *)
Definition reloaded_item (it : item) : option item :=
  load_item (save_container it).

(** What is loaded for the two saved elements of a pool child. *)
Definition reloaded_pool_child (c : pool_child) : list item :=
  load_items (save_pool_elem <$> [PContainer (pool_item c); PImg (pool_item c)]).

Definition reloaded_tier (rw : row) : tier :=
  Tier (substr0 MAX_NAME_LEN (row_name rw))
       (set_backgroundColor (color_hex (row_color rw)) None)
       (omap reloaded_item (row_items rw)).

(** An item that a save and a load leave as it is: a source that is not
    empty and a name without white space around it. *)
Definition plain_item (it : item) : Prop :=
  item_src it ≠ "" ∧ trim (item_name it) = item_name it.

(** A row that a save and a load leave as it is. *)
Definition plain_row (rw : row) : Prop :=
  String.length (row_name rw) ≤ MAX_NAME_LEN
  ∧ is_Some (row_color rw)
  ∧ Forall plain_item (row_items rw).

(** *** What a drop is about *)

(** [target_item_index] of the handlers the event reaches. *)
Definition destination_target (ev : drop_event) (st : state) : option js_index :=
  match ev with
  | DropOnRow r | DropInRow r => row_target <$> rows st !! r
  | DropInPool => Some (pool_target st)
  end.

(** The items of the container the event reaches, in order. *)
Definition destination_items (ev : drop_event) (st : state) : option (list item) :=
  match ev with
  | DropOnRow r | DropInRow r => row_items <$> rows st !! r
  | DropInPool => Some (pool_item <$> pool st)
  end.

(** The grabbed container sits in a [span.item] of the container the event
    reaches: it is an item of that row, or an item of the pool that a drop
    has wrapped. *)
Definition moves_within (p : place) (ev : drop_event) (st : state) : bool :=
  match p, ev with
  | InRow r _, (DropOnRow r' | DropInRow r') => bool_decide (r = r')
  | InPool k, DropInPool =>
      match pool st !! k with
      | Some (InSpan _) => true
      | _ => false
      end
  | _, _ => false
  end.

End Tiers.

(* ================================================================== *)
(** ** Sample data *)
(* ================================================================== *)

Module Samples.
Import JsString Wire RemoveDuplicates Tiers.

(** *** For the utility *)

(** A file whose untiered list holds "Pizza Hut", "Pizza Hut Branch 2" and
    "KFC". *)
Definition pizza_document (title : string) (src1 src2 src3 : option string)
    : document :=
  Document title (Some [])
    (Some [EObject src1 (Some "Pizza Hut");
           EObject src2 (Some "Pizza Hut Branch 2");
           EObject src3 (Some "KFC")]).

Definition hut (src : option string) : entry := Entry src "Pizza Hut" (Untiered 0).
Definition branch (src : option string) : entry :=
  Entry src "Pizza Hut Branch 2" (Untiered 1).
Definition kfc (src : option string) : entry := Entry src "KFC" (Untiered 2).

(** A run in which the copy of the file fails and the user goes on. *)
Definition env_backup_fails : environment :=
  Environment true
    (Some (PObject (pizza_document "t" (Some "a") (Some "b") (Some "c"))))
    [] "y" false "y" true.

(** The same run with a copy that succeeds. *)
Definition env_backup_succeeds : environment :=
  Environment true
    (Some (PObject (pizza_document "t" (Some "a") (Some "b") (Some "c"))))
    [] "y" true "" true.


(** The file that [env_backup_succeeds] leaves, and a run on it. *)
Definition pizza_cleaned : document :=
  Document "t" (Some [])
    (Some [EObject (Some "a") (Some "Pizza Hut");
           EObject (Some "c") (Some "KFC")]).

Definition env_second_run : environment :=
  Environment true (Some (PObject pizza_cleaned)) [] "y" true "" true.


(** *** For the utility that adds *)

(** A run that adds " Burger King " with an image of which the server
    names no type. *)
Definition env_add : AddRestaurant.environment :=
  AddRestaurant.Environment
    (Some ["restaurant_tierlist.json"; "notes.txt"]) (Some 1%Z)
    " Burger King " "http://example.com/logo.jpg"
    (fun _ => Some (PObject (pizza_document "t" (Some "a") (Some "b") (Some "c"))))
    (fun _ => Some (AddRestaurant.Response 200 None "QUJD")) true.

Definition pizza_added : document :=
  Document "t" (Some [])
    (Some [EObject (Some "a") (Some "Pizza Hut");
           EObject (Some "b") (Some "Pizza Hut Branch 2");
           EObject (Some "c") (Some "KFC");
           EObject (Some "data:image/png;base64,QUJD") (Some "Burger King")]).

(** *** For the page *)

Definition item_A : item := Item "data:image/png;base64,QQ==" "A".
Definition item_B : item := Item "data:image/png;base64,Qg==" "B".
Definition item_C : item := Item "data:image/png;base64,Qw==" "C".
Definition item_D : item := Item "data:image/png;base64,RA==" "D".

(** A page with one row, holding A, B, C and D. *)
Definition row_abcd : state :=
  State "Tierlist"
        [Row "S" (Some (Rgb Byte.xff Byte.x66 Byte.x66))
             [item_A; item_B; item_C; item_D] "S" JUndefined]
        [] JUndefined None JUndefined false.

(** A pool of three imported images, the first of them grabbed and the
    third hovered: the indices are [get_item_index_pool 3 (NContainer 0)]
    and [get_item_index_pool 3 (NImg 2)]. *)
Definition pool_abc_grabbed : state :=
  State "Tierlist" [] [Bare item_A; Bare item_B; Bare item_C]
        (JNum 0) (Some (InPool 0)) (JNum (-4)) false.

(** A page whose one item has a name with a space on either side. *)
Definition row_spaced : state :=
  State "Tierlist"
        [Row "S" (Some (Rgb Byte.xff Byte.x66 Byte.x66))
             [Item "data:image/png;base64,QQ==" " A "] "S" JUndefined]
        [] JUndefined None JUndefined false.

(** A file in the legacy format: one bare string in [untiered]. *)
Definition legacy_file : document :=
  Document "Old" (Some []) (Some [EString "data:image/png;base64,QQ=="]).

(** A file without [rows]. *)
Definition file_without_rows : document := Document "x" None None.


(** A file whose first row names a colour and whose second row names
    none. *)
Definition mixed_file : document :=
  Document "m"
    (Some [RowEntry "A" (Some "#123456") (Some []); RowEntry "B" None (Some [])])
    None.

End Samples.


(* ================================================================== *)
(** ** util/remove_duplicates.js: the counts and the selection *)
(* ================================================================== *)

Module Report.
Import JsString Wire RemoveDuplicates.

(** *** countEntries *)

(** The entries of a file: those of every row whose [imgs] is an array,
    and those of [untiered] when it is one. *)
Definition countEntries (jsonData : document) : nat :=
  sum_list ((fun row => length (default [] (re_imgs row)))
              <$> default [] (wd_rows jsonData))
  + length (default [] (wd_untiered jsonData)).

(** [group.filter(e => e !== kept)] *)
Definition toRemove (group : list entry) : option (list entry) :=
  kept ← keepShortestEntry group;
  Some (filter (fun e => same_entry e kept = false) group).

(** [selectedTotalToRemove] of [main], the sum of the numbers of entries
    to remove of the groups. *)
Definition totalToRemove (groups : list (list entry)) : option nat :=
  (fun rs => sum_list (length <$> rs)) <$> mapM toRemove groups.

(** *** Where a collected entry sits *)

(** The item of the file at a location. *)
Definition item_at (jsonData : document) (l : location) : option item_entry :=
  match l with
  | Tier _ rowIndex itemIndex =>
      row ← default [] (wd_rows jsonData) !! rowIndex;
      default [] (re_imgs row) !! itemIndex
  | Untiered itemIndex => default [] (wd_untiered jsonData) !! itemIndex
  end.

(** The entry is the object at its location, the name of the tier with
    it, and has a name. *)
Definition sits_in (jsonData : document) (e : entry) : Prop :=
  item_at jsonData (entry_location e)
  = Some (EObject (entry_src e) (Some (entry_name e)))
  ∧ entry_name e ≠ ""
  ∧ match entry_location e with
    | Tier tierName rowIndex _ =>
        re_name <$> default [] (wd_rows jsonData) !! rowIndex = Some tierName
    | Untiered _ => True
    end.

(** *** Groups as components *)

(** Every entry of the group but the first is a duplicate of one before
    it in the group. *)
Definition linked (group : list entry) : Prop :=
  ∀ k e, group !! k = Some e →
    k = 0 ∨ ∃ k' e', k' < k ∧ group !! k' = Some e'
                     ∧ isDuplicate (entry_name e') (entry_name e) = true.

(** Every entry that is a duplicate of one of the group is in the group. *)
Definition closed_group (entries group : list entry) : Prop :=
  ∀ e e', e ∈ group → e' ∈ entries →
    isDuplicate (entry_name e) (entry_name e') = true → e' ∈ group.

(** No entry at an index of the set is a duplicate of one at an index
    outside. *)
Definition closed_set (entries : list entry) (processed : gset nat) : Prop :=
  ∀ j j' e e', j ∈ processed → j' ∉ processed →
    entries !! j = Some e → entries !! j' = Some e' →
    isDuplicate (entry_name e) (entry_name e') = false.

(** What holds of the group in the making, begun when the indices of
    [before] were processed: its entries are those at the indices
    processed since, each once, and it is linked. *)
Definition making (entries : list entry) (before : gset nat)
    (group : list entry) (processed : gset nat) : Prop :=
  before ⊆ processed
  ∧ (∀ e, e ∈ group
          ↔ (∃ j, j ∈ processed ∧ (j ∉ before) ∧ entries !! j = Some e))
  ∧ NoDup group
  ∧ linked group.

(** What holds of the groups made when the indices of [processed] are
    done with. *)
Definition grouped (entries : list entry) (groups : list (list entry))
    (processed : gset nat) : Prop :=
  closed_set entries processed
  ∧ Forall (fun g =>
              2 ≤ length g ∧ linked g ∧ closed_group entries g
              ∧ ∀ e, e ∈ g → ∃ j, j ∈ processed ∧ entries !! j = Some e)
           groups
  ∧ NoDup (concat groups)
  ∧ (∀ j e e', j ∈ processed → entries !! j = Some e → e' ∈ entries →
       e' ≠ e → isDuplicate (entry_name e) (entry_name e') = true →
       ∃ g, g ∈ groups ∧ e ∈ g).

(** *** What is left of a list *)

(** The elements of the list at the indices that are not marked, in
    their order; [i] is the index of the head. *)
Fixpoint unmarked_from {A} (has : nat -> bool) (i : nat) (l : list A) : list A :=
  match l with
  | [] => []
  | x :: l' => (if has i then [] else [x]) ++ unmarked_from has (S i) l'
  end.

Definition unmarked {A} (has : nat -> bool) (l : list A) : list A :=
  unmarked_from has 0 l.

(** The entry is not at one of the positions to remove. *)
Definition stays (ids : list entry_id) (e : entry) : Prop :=
  id_of_location (entry_location e) ∉ ids.

(** The positions of the items of a file, as their identifiers. *)
Definition positions (jsonData : document) : list entry_id :=
  concat (imap (fun rowIndex row =>
                  IdTier rowIndex <$> seq 0 (length (default [] (re_imgs row))))
               (default [] (wd_rows jsonData)))
  ++ (IdUntiered <$> seq 0 (length (default [] (wd_untiered jsonData)))).

(** An item that [collectAllEntries] takes for an entry: an object with
    a name that is not empty. *)
Definition is_named (item : item_entry) : bool :=
  match item with
  | EObject _ (Some name) => truthy name
  | _ => false
  end.

End Report.

(* ================================================================== *)
(** ** The page: what the facts below speak of *)
(* ================================================================== *)

Module Page.
Import JsString Wire Tiers.

(** The headers of the rows: the text of the label and the colour. *)
Definition headers (st : state) : list (string * option rgb) :=
  (fun rw => (row_name rw, row_color rw)) <$> rows st.

(** The [drop] handler of the trash: the grabbed container leaves the
    tree, with its [span.item] when it has one. The node removed is what
    [dragged_image] still names until [end_drag]; the handlers find it
    without a parent and stop there, as they do when nothing is grabbed,
    and so the state names nothing grabbed. [unsaved_changes] is not
    touched. *)
Definition trash_drop (st : state) : state :=
  match dragged_image st with
  | None => st
  | Some p =>
      match detach p st with
      | None => st
      | Some (_, _, st1) =>
          State (title st1) (rows st1) (pool st1) (pool_target st1) None
                (old_item_index st1) (unsaved_changes st1)
      end
  end.

(** *** What an import makes of the rows of a file *)

(** The colour of the palette for the row at a position. *)
Definition palette_rgb (row_idx : nat) : option rgb :=
  TIER_COLORS !! (row_idx `mod` length TIER_COLORS) ≫= parse_color.

(** Every row of the list names its colour. *)
Definition all_colored (ser_rows : list row_entry) : bool :=
  forallb (fun ser_row => bool_decide (is_Some (re_color ser_row))) ser_rows.

(** The row at position [idx + i] of the page for the entry at position
    [i] of the list: its own colour as the browser reads it when this and
    all later entries name their colour, else the colour of the palette
    for its position. *)
Definition loaded_row (idx : nat) (ser_rows : list row_entry) (i : nat)
    (ser_row : row_entry) : row :=
  Row (re_name ser_row)
      (if all_colored (skipn i ser_rows)
       then set_backgroundColor (default "" (re_color ser_row)) None
       else palette_rgb (idx + i))
      (load_items (default [] (re_imgs ser_row)))
      (re_name ser_row) JUndefined.

(** *** The files an import is followed on *)







End Page.

(* ================================================================== *)
(** ** Facts about the strings *)
(* ================================================================== *)

Module JsStringFacts.
Import JsString.

Lemma trimStart_spec s :
  ∃ pre, s = (pre ++ trimStart s)%string
         ∧ all_white_space pre = true ∧ starts_dark (trimStart s) = true.
Proof.
  induction s as [|c s (pre & Hs & Hpre & Hdark)]; [by exists ""|].
  simpl. destruct (is_white_space c) eqn:Hc.
  - exists (String c pre). simpl. rewrite Hc, Hpre. split; [|done].
    change (String c s = String c (pre +:+ trimStart s)). by f_equal.
  - exists "". simpl. by rewrite Hc.
Qed.

Lemma trimEnd_spec s :
  ∃ post, s = (trimEnd s ++ post)%string
          ∧ all_white_space post = true ∧ ends_dark (trimEnd s) = true
          ∧ (starts_dark s = true → starts_dark (trimEnd s) = true).
Proof.
  induction s as [|c s (post & Hs & Hpost & Hdark & _)]; [by exists ""|].
  simpl. destruct (trimEnd s) as [|c' t] eqn:Ht.
  - change (s = post) in Hs. subst post. destruct (is_white_space c) eqn:Hc.
    + exists (String c s). simpl. by rewrite Hc, Hpost.
    + exists s. simpl. by rewrite Hc.
  - exists post. split; [|split; [done|split; [|done]]].
    + change (String c s = String c (String c' t +:+ post)). by f_equal.
    + simpl in *. by destruct t.
Qed.

(** [trim] takes white space off both ends, and all of it. *)
Lemma trim_spec s :
  ∃ pre post, s = (pre ++ trim s ++ post)%string
              ∧ all_white_space pre = true ∧ all_white_space post = true
              ∧ starts_dark (trim s) = true ∧ ends_dark (trim s) = true.
Proof.
  destruct (trimStart_spec s) as (pre & Hs & Hpre & Hstart).
  destruct (trimEnd_spec (trimStart s)) as (post & Ht & Hpost & Hend & Hkeep).
  exists pre, post. unfold trim. rewrite <- Ht. repeat split; auto.
Qed.

Example trim_example : trim "  Pizza  Hut  " = "Pizza  Hut".
Proof. reflexivity. Qed.

Lemma trim_stripped s : stripped s (trim s).
Proof. apply trim_spec. Qed.

(** A string that [trim] leaves as it is has no white space at its
    ends. *)
Lemma trim_fixed_dark s :
  trim s = s → starts_dark s = true ∧ ends_dark s = true.
Proof.
  intros Heq. destruct (trim_spec s) as (_ & _ & _ & _ & _ & Hs & He).
  by rewrite Heq in Hs, He.
Qed.

(** *** What [trim] makes of a string with blanks around it *)

Lemma trimStart_white pre s :
  all_white_space pre = true → trimStart (pre ++ s)%string = trimStart s.
Proof.
  induction pre as [|c pre IH]; [done|]. simpl.
  intros [-> Hpre]%andb_true_iff. by apply IH.
Qed.

Lemma trimStart_dark s : starts_dark s = true → trimStart s = s.
Proof. destruct s as [|c s]; [done|]. simpl. by intros ->%negb_true_iff. Qed.

Lemma trimEnd_all_white post :
  all_white_space post = true → trimEnd post = "".
Proof.
  induction post as [|c post IH]; [done|]. simpl.
  intros [-> Hpost]%andb_true_iff. by rewrite IH.
Qed.

Lemma trimEnd_white s post :
  all_white_space post = true → trimEnd (s ++ post)%string = trimEnd s.
Proof.
  intros Hpost. induction s as [|c s IH]; [by apply trimEnd_all_white|].
  change (String c s ++ post)%string with (String c (s ++ post)%string).
  cbn [trimEnd]. by rewrite IH.
Qed.

Lemma trimEnd_dark s : ends_dark s = true → trimEnd s = s.
Proof.
  induction s as [|c s IH]; [done|]. destruct s as [|c' s].
  - simpl. by intros ->%negb_true_iff.
  - intros Hdark. specialize (IH Hdark).
    change (trimEnd (String c (String c' s)))
      with (match trimEnd (String c' s) with
            | EmptyString => if is_white_space c then EmptyString
                             else String c EmptyString
            | t => String c t
            end).
    by rewrite IH.
Qed.

Lemma trim_blanks pre w post :
  all_white_space pre = true → all_white_space post = true →
  starts_dark w = true → ends_dark w = true →
  trim (pre ++ w ++ post)%string = w.
Proof.
  intros Hpre Hpost Hstart Hend. unfold trim. rewrite trimStart_white by done.
  destruct w as [|c w].
  - change ("" ++ post)%string with post.
    assert (trimStart post = "") as ->; [|done].
    clear -Hpost. induction post as [|c post IH]; [done|]. simpl in *.
    apply andb_true_iff in Hpost as [-> Hpost]. by apply IH.
  - rewrite trimStart_dark by exact Hstart.
    rewrite trimEnd_white by done. by apply trimEnd_dark.
Qed.

(** Lower case makes no white space and takes none away. *)
Lemma lower_char_white c : is_white_space (lower_char c) = is_white_space c.
Proof. by destruct c as [[] [] [] [] [] [] [] []]. Qed.

Lemma toLowerCase_dark w :
  starts_dark (toLowerCase w) = starts_dark w
  ∧ ends_dark (toLowerCase w) = ends_dark w.
Proof.
  split; [destruct w; simpl; by rewrite ?lower_char_white|].
  induction w as [|c w IH]; [done|]. destruct w as [|c' w].
  - simpl. by rewrite lower_char_white.
  - exact IH.
Qed.

End JsStringFacts.

(* ================================================================== *)
(** ** Facts about the duplicate-removal utility *)
(* ================================================================== *)

Module RemoveDuplicatesFacts.
Import JsString Wire RemoveDuplicates Samples.

(** *** The strings *)

Example normalizeName_example : normalizeName "  Pizza HUT " = "pizza hut".
Proof. reflexivity. Qed.

Example isDuplicate_branch : isDuplicate "Pizza Hut" "Pizza Hut Branch 2" = true.
Proof. reflexivity. Qed.

Example isDuplicate_other :
  isDuplicate "Pizza Hut" "KFC" = false
  ∧ isDuplicate "Pizza Hut Branch 2" "KFC" = false.
Proof. split; reflexivity. Qed.

Lemma isDuplicate_refl name : isDuplicate name name = true.
Proof. unfold isDuplicate. by rewrite bool_decide_eq_true_2. Qed.

(** *** The loop of findDuplicateGroups comes to an end *)

Section Scan.
Variable entries : list entry.

(** A run of the inner loop keeps what was processed, and adds an index
    that was not whenever it reports something new. *)
Lemma scan_step_mono st j :
  st.1.2 ⊆ (scan_step entries st j).1.2.
Proof.
  destruct st as [[group processed] foundNew]; simpl.
  case_bool_decide; [done|].
  destruct (entries !! j); [|done].
  destruct (duplicate_in_group _ _); simpl; set_solver.
Qed.

Lemma scan_step_bound n st j :
  j < n → (∀ i, i ∈ st.1.2 → i < n) →
  ∀ i, i ∈ (scan_step entries st j).1.2 → i < n.
Proof.
  destruct st as [[group processed] foundNew]; simpl. intros Hj Hb i.
  case_bool_decide; [by apply Hb|].
  destruct (entries !! j); [|by apply Hb].
  destruct (duplicate_in_group _ _); simpl; [|by apply Hb].
  rewrite elem_of_union, elem_of_singleton. intros [->|?]; auto.
Qed.

Lemma scan_step_size st j :
  size st.1.2 ≤ size (scan_step entries st j).1.2.
Proof. apply subseteq_size, scan_step_mono. Qed.

Lemma scan_step_found st j :
  (scan_step entries st j).2 = true →
  st.2 = true ∨ size st.1.2 < size (scan_step entries st j).1.2.
Proof.
  destruct st as [[group processed] foundNew]; simpl.
  case_bool_decide as Hin; [by left|].
  destruct (entries !! j); [|by left].
  destruct (duplicate_in_group _ _); simpl; [|by left].
  intros _. right. rewrite size_union by set_solver.
  rewrite size_singleton. lia.
Qed.

Lemma scan_loop_facts n js st :
  (∀ j, j ∈ js → j < n) → (∀ i, i ∈ st.1.2 → i < n) →
  let st' := foldl (scan_step entries) st js in
  (∀ i, i ∈ st'.1.2 → i < n)
  ∧ size st.1.2 ≤ size st'.1.2
  ∧ (st'.2 = true → st.2 = true ∨ size st.1.2 < size st'.1.2).
Proof.
  revert st. induction js as [|j js IH]; intros st Hjs Hb; simpl.
  - split; [done|]. split; [done|]. by left.
  - destruct (IH (scan_step entries st j)) as (Hb' & Hle & Hfound).
    + intros j' Hj'. apply Hjs. by right.
    + apply scan_step_bound; [|done]. apply Hjs. by left.
    + split; [done|]. pose proof (scan_step_size st j) as Hs.
      split; [lia|]. intros Ht. destruct (Hfound Ht) as [Hf|Hlt]; [|right; lia].
      destruct (scan_step_found st j Hf) as [?|?]; [by left|right; lia].
Qed.

Lemma scan_facts group processed :
  (∀ i, i ∈ processed → i < length entries) →
  let st' := scan entries group processed in
  (∀ i, i ∈ st'.1.2 → i < length entries)
  ∧ (st'.2 = true → size processed < size st'.1.2).
Proof.
  intros Hb. unfold scan.
  destruct (scan_loop_facts (length entries) (seq 0 (length entries))
              (group, processed, false)) as (Hb' & _ & Hfound).
  - intros j Hj. apply elem_of_seq in Hj. lia.
  - done.
  - split; [done|]. intros Ht. by destruct (Hfound Ht).
Qed.

(** No set of indices below [n] has more than [n] elements. *)
Lemma bounded_size (s : gset nat) n : (∀ i, i ∈ s → i < n) → size s ≤ n.
Proof.
  intros Hb. rewrite <- (length_seq n 0).
  rewrite <- (size_list_to_set (C := gset nat) (seq 0 n)) by apply NoDup_seq.
  apply subseteq_size. intros i Hi. apply elem_of_list_to_set, elem_of_seq.
  specialize (Hb i Hi). lia.
Qed.

Lemma grow_total fuel group processed :
  (∀ i, i ∈ processed → i < length entries) →
  length entries < fuel + size processed →
  ∃ group' processed',
    grow fuel entries group processed = Some (group', processed')
    ∧ (∀ i, i ∈ processed' → i < length entries).
Proof.
  revert group processed. induction fuel as [|fuel IH]; intros group processed Hb Hfuel.
  - pose proof (bounded_size _ _ Hb). simpl in Hfuel. lia.
  - simpl. pose proof (scan_facts group processed Hb) as Hs.
    destruct (scan entries group processed) as [[group' processed'] foundNew].
    simpl in Hs. destruct Hs as [Hb' Hfound]. destruct foundNew.
    + apply IH; [done|]. specialize (Hfound eq_refl). lia.
    + eauto.
Qed.
End Scan.

Lemma group_step_total entries st i :
  i < length entries →
  (∃ groups processed, st = Some (groups, processed)
                       ∧ ∀ j, j ∈ processed → j < length entries) →
  ∃ groups processed, group_step entries st i = Some (groups, processed)
                      ∧ ∀ j, j ∈ processed → j < length entries.
Proof.
  intros Hi (groups & processed & -> & Hb). unfold group_step.
  case_bool_decide as Hin; [eauto|].
  destruct (entries !! i) as [e|]; [|eauto].
  destruct (grow_total entries (S (length entries)) [e] ({[i]} ∪ processed))
    as (group & processed' & -> & Hb').
  - intros j. rewrite elem_of_union, elem_of_singleton. intros [->|?]; auto.
  - rewrite size_union by set_solver. rewrite size_singleton. lia.
  - destruct (1 <? length group); eauto.
Qed.

Lemma findDuplicateGroups_returns entries :
  ∃ groups, findDuplicateGroups entries = Some groups.
Proof.
  unfold findDuplicateGroups.
  assert (∀ js st,
    (∀ j, j ∈ js → j < length entries) →
    (∃ groups processed, st = Some (groups, processed)
                         ∧ ∀ j, j ∈ processed → j < length entries) →
    ∃ groups processed,
      foldl (group_step entries) st js = Some (groups, processed)
      ∧ ∀ j, j ∈ processed → j < length entries) as Hloop.
  { induction js as [|j js IH]; intros st Hjs Hst; simpl; [done|].
    apply IH; [intros j' ?; apply Hjs; by right|].
    apply group_step_total; [apply Hjs; by left|done]. }
  destruct (Hloop (seq 0 (length entries)) (Some ([], ∅))) as (groups & ? & -> & _).
  - intros j Hj. apply elem_of_seq in Hj. lia.
  - exists [], ∅. split; [done|]. set_solver.
  - by exists groups.
Qed.

(** X4. [findDuplicateGroups] returns on every list of entries: the
    [while] loop that grows a group ends, after no more passes than
    there are entries and one. *)
Theorem findDuplicateGroups_total entries :
  ∃ groups, findDuplicateGroups entries = Some groups.
Proof. apply findDuplicateGroups_returns. Qed.

(** *** Pizza Hut, its branch and KFC *)

Section PizzaHut.
Variables (title : string) (src1 src2 src3 : option string).

(** C6. From the names "Pizza Hut", "Pizza Hut Branch 2", "KFC" the
    duplicate finder makes one group, of the first two entries; "KFC"
    is in no group; the entry kept of the group is "Pizza Hut", the
    shortest name; and removing the duplicates takes "Pizza Hut
    Branch 2" out of the document and nothing else. *)
Theorem pizza_hut_duplicates :
  let hut := hut src1 in
  let branch := branch src2 in
  let kfc := kfc src3 in
  let pizza_document := pizza_document title src1 src2 src3 in
  collectAllEntries pizza_document = Some [hut; branch; kfc]
  ∧ findDuplicateGroups [hut; branch; kfc] = Some [[hut; branch]]
  ∧ (∀ group, group ∈ [[hut; branch]] → kfc ∉ group)
  ∧ keepShortestEntry [hut; branch] = Some hut
  ∧ removeDuplicatesFromTierlist pizza_document [[hut; branch]]
    = Some (Document title (Some [])
              (Some [EObject src1 (Some "Pizza Hut");
                     EObject src3 (Some "KFC")])).
Proof.
  intros hut branch kfc pizza_document.
  split; [reflexivity|]. split; [reflexivity|]. split.
  - intros group ->%list_elem_of_singleton Hin.
    apply elem_of_cons in Hin as [Heq|Hin]; [discriminate Heq|].
    apply list_elem_of_singleton in Hin. discriminate Hin.
  - split; reflexivity.
Qed.
End PizzaHut.

(** The grouping looks at the names only: wherever the three entries
    sit, the first two are grouped and the first is kept. *)
Lemma pizza_hut_anywhere s1 s2 s3 l1 l2 l3 :
  let e1 := Entry s1 "Pizza Hut" l1 in
  let e2 := Entry s2 "Pizza Hut Branch 2" l2 in
  findDuplicateGroups [e1; e2; Entry s3 "KFC" l3] = Some [[e1; e2]]
  ∧ keepShortestEntry [e1; e2] = Some e1.
Proof. split; reflexivity. Qed.

(** *** The backup before the write *)

(** C8, as stated, fails: when the copy of the file fails and the user
    answers "y" to "Continue without backup?", the file is written and no
    backup was created. *)
Lemma write_without_backup :
  ∃ data, main env_backup_fails
          = [BackupFailed; ContinueWithoutBackup; WriteFile data]
          ∧ BackupCreated ∉ main env_backup_fails.
Proof.
  eexists. split; [reflexivity|].
  intros Hin. vm_compute in Hin.
  repeat (apply elem_of_cons in Hin as [Hin|Hin]; [discriminate Hin|]).
  by apply elem_of_nil in Hin.
Qed.

Lemma backup_step_cases env events :
  backup_step env = (events, true) →
  events = [BackupCreated]
  ∨ (events = [BackupFailed; ContinueWithoutBackup]
     ∧ env_backup_ok env = false ∧ is_yes (env_continue env) = true).
Proof.
  unfold backup_step. destruct (env_backup_ok env); [intros [= <-]; by left|].
  destruct (is_yes (env_continue env)); intros [= <-]. by right.
Qed.

(** Where the one write of a trace is. *)
Lemma write_position events cleaned tail before data after :
  events ++ WriteFile cleaned :: tail = before ++ WriteFile data :: after →
  (∀ d, WriteFile d ∉ events) → (∀ d, WriteFile d ∉ tail) →
  before = events.
Proof.
  revert before. induction events as [|e events IH]; intros before Heq Hev Htail.
  - destruct before as [|x before]; [done|]. simplify_eq/=.
    exfalso. apply (Htail data). apply elem_of_app. right. by left.
  - destruct before as [|x before]; simplify_eq/=.
    + exfalso. apply (Hev data). by left.
    + f_equal. apply IH; [done| |done].
      intros d Hd. apply (Hev d). by right.
Qed.

(** C8, amended. Whenever the run writes the file, what came before the
    write is either the backup, created, or the failed backup followed by
    the user's "y" or "yes" to "Continue without backup?". *)
Theorem write_after_backup_or_consent env before data after :
  main env = before ++ WriteFile data :: after →
  before = [BackupCreated]
  ∨ (before = [BackupFailed; ContinueWithoutBackup]
     ∧ env_backup_ok env = false ∧ is_yes (env_continue env) = true).
Proof.
  assert (∀ l : list event, l ⊆ [Exit1; BackupFailed] →
          l ≠ before ++ WriteFile data :: after) as Hno.
  { intros l Hl Heq. assert (WriteFile data ∈ l) as Hin.
    { rewrite Heq. apply elem_of_app. right. by left. }
    apply Hl in Hin. set_solver. }
  assert (∀ l : list event, l ⊆ [Exit1; BackupFailed] →
          l = before ++ WriteFile data :: after →
          before = [BackupCreated]
          ∨ (before = [BackupFailed; ContinueWithoutBackup]
             ∧ env_backup_ok env = false ∧ is_yes (env_continue env) = true))
    as Hquiet.
  { intros l Hl Heq. by destruct (Hno l). }
  unfold main.
  destruct (negb (env_exists env)); [apply Hquiet; set_solver|].
  destruct (loadJsonFile (env_content env)) as [?|jsonData]; [apply Hquiet; set_solver|].
  destruct (collectAllEntries jsonData ≫= findDuplicateGroups) as [groups|];
    [|apply Hquiet; set_solver].
  case_bool_decide; [apply Hquiet; set_solver|].
  case_bool_decide; [apply Hquiet; set_solver|].
  destruct (negb (is_yes (env_approval env))); [apply Hquiet; set_solver|].
  destruct (backup_step env) as [events go_on] eqn:Hstep.
  destruct go_on; simpl.
  - apply backup_step_cases in Hstep.
    assert (∀ d, WriteFile d ∉ events) as Hev.
    { intros d. destruct Hstep as [->|(-> & _)]; set_solver. }
    destruct (removeDuplicatesFromTierlist _ _) as [cleaned|]; intros Heq.
    + apply write_position in Heq; [by subst before|done|].
      intros d. destruct (env_write_ok env); set_solver.
    + exfalso. assert (WriteFile data ∈ events ++ [Exit1]) as Hin.
      { rewrite Heq. apply elem_of_app. right. by left. }
      apply elem_of_app in Hin as [Hin|Hin]; [by apply Hev in Hin|set_solver].
  - unfold backup_step in Hstep. destruct (env_backup_ok env); [discriminate|].
    destruct (is_yes (env_continue env)); [discriminate|].
    injection Hstep as <-. apply Hquiet. set_solver.
Qed.

Lemma write_after_backup_or_consent_witness :
  let data :=
    Document "t" (Some [])
      (Some [EObject (Some "a") (Some "Pizza Hut"); EObject (Some "c") (Some "KFC")]) in
  main env_backup_succeeds = [BackupCreated] ++ WriteFile data :: []
  ∧ ([BackupCreated] = [BackupCreated]
     ∨ ([BackupCreated] = [BackupFailed; ContinueWithoutBackup]
        ∧ env_backup_ok env_backup_succeeds = false
        ∧ is_yes (env_continue env_backup_succeeds) = true)).
Proof.
  intros data. split; [reflexivity|].
  apply (write_after_backup_or_consent env_backup_succeeds [BackupCreated] data []).
  reflexivity.
Defined.

End RemoveDuplicatesFacts.


(* ================================================================== *)
(** ** Facts about the page script *)
(* ================================================================== *)

Module TiersFacts.
Import JsString Wire Tiers Samples.

(** *** Colours: what is saved is read back *)

Section Colours.
Local Open Scope Z_scope.

Lemma to_int32_small z : - 2 ^ 31 <= z < 2 ^ 31 → to_int32 z = z.
Proof. intros Hz. unfold to_int32. rewrite Z.mod_small; lia. Qed.

(** [|] on numbers that share no bit adds them. *)
Lemma lor_disjoint a b k :
  0 <= k → 0 <= b < 2 ^ k → Z.lor (a * 2 ^ k) b = a * 2 ^ k + b.
Proof.
  intros Hk Hb.
  assert (Z.land (a * 2 ^ k) b = 0) as Hland.
  { rewrite <- (Z.mod_small b (2 ^ k)) by done.
    rewrite <- (Z.land_ones b k) by done.
    rewrite (Z.land_comm b), Z.land_assoc, Z.land_ones by done.
    by rewrite Z.mod_mul by lia. }
  pose proof (Z.add_lor_land (a * 2 ^ k) b) as Hadd. lia.
Qed.

Lemma channel_range c : 0 <= channel c < 256.
Proof. unfold channel. pose proof (Byte.to_N_bounded c). lia. Qed.

(** The number [rgb_to_hex] prints. *)
Lemma rgb_number r g b :
  0 <= r < 256 → 0 <= g < 256 → 0 <= b < 256 →
  or32 (or32 (or32 (shl32 1 24) (shl32 r 16)) (shl32 g 8)) b
  = 2 ^ 24 + r * 2 ^ 16 + g * 2 ^ 8 + b.
Proof.
  intros Hr Hg Hb. unfold shl32, or32.
  rewrite !(to_int32_small 1), (to_int32_small r), (to_int32_small g),
    (to_int32_small b) by lia.
  rewrite !Z.shiftl_mul_pow2 by lia.
  rewrite !(to_int32_small (1 * 2 ^ 24)), !(to_int32_small (r * 2 ^ 16)),
    !(to_int32_small (g * 2 ^ 8)) by lia.
  rewrite (lor_disjoint 1 (r * 2 ^ 16) 24) by lia.
  rewrite (to_int32_small (1 * 2 ^ 24 + r * 2 ^ 16)) by lia.
  replace (1 * 2 ^ 24 + r * 2 ^ 16) with ((2 ^ 8 + r) * 2 ^ 16) by lia.
  rewrite (lor_disjoint _ (g * 2 ^ 8) 16) by lia.
  rewrite (to_int32_small ((2 ^ 8 + r) * 2 ^ 16 + g * 2 ^ 8)) by lia.
  replace ((2 ^ 8 + r) * 2 ^ 16 + g * 2 ^ 8)
    with ((2 ^ 16 + r * 2 ^ 8 + g) * 2 ^ 8) by lia.
  rewrite (lor_disjoint _ b 8) by lia. lia.
Qed.

Lemma hex_digits_step fuel q d acc :
  0 < q → 0 <= d < 16 →
  hex_digits (S fuel) (16 * q + d) acc = hex_digits fuel q (hex_digit d :: acc).
Proof.
  intros Hq Hd. simpl.
  destruct (Z.ltb_spec (16 * q + d) 16) as [?|_]; [lia|].
  replace ((16 * q + d) / 16) with q by (apply Z.div_unique with d; lia).
  replace ((16 * q + d) mod 16) with d by (apply Z.mod_unique with q; lia).
  done.
Qed.

Lemma hex_digits_last fuel d acc :
  d < 16 → hex_digits (S fuel) d acc = hex_digit d :: acc.
Proof. intros Hd. simpl. by destruct (Z.ltb_spec d 16) as [_|?]; [|lia]. Qed.

Lemma hex_value_hex_digit d :
  0 <= d < 16 → hex_value (hex_digit d) = Some (Z.to_N d).
Proof.
  intros Hd.
  assert (d = 0 ∨ d = 1 ∨ d = 2 ∨ d = 3 ∨ d = 4 ∨ d = 5 ∨ d = 6 ∨ d = 7
          ∨ d = 8 ∨ d = 9 ∨ d = 10 ∨ d = 11 ∨ d = 12 ∨ d = 13 ∨ d = 14 ∨ d = 15)
    as Hcases by lia.
  repeat (destruct Hcases as [->|Hcases]; [reflexivity|]). by subst d.
Qed.

(** The two digits of a channel read back as the channel. *)
Lemma hex_pair_channel c :
  hex_pair (hex_digit (channel c / 16)) (hex_digit (channel c mod 16)) = Some c.
Proof.
  pose proof (channel_range c) as Hc. unfold hex_pair.
  pose proof (Z.div_mod (channel c) 16 ltac:(lia)).
  pose proof (Z.mod_pos_bound (channel c) 16 ltac:(lia)).
  assert (0 <= channel c / 16) by (apply Z.div_pos; lia).
  assert (channel c / 16 < 16) by (apply Z.div_lt_upper_bound; lia).
  rewrite !hex_value_hex_digit by lia. simpl.
  rewrite <- (Byte.of_to_N c). f_equal. unfold channel in *. lia.
Qed.

(** Seven digits: a 1 and two for each channel. *)
Lemma toString16_rgb r g b :
  0 <= r < 256 → 0 <= g < 256 → 0 <= b < 256 →
  toString16 (2 ^ 24 + r * 2 ^ 16 + g * 2 ^ 8 + b)
  = string_of_list_ascii
      [hex_digit 1; hex_digit (r / 16); hex_digit (r mod 16);
       hex_digit (g / 16); hex_digit (g mod 16);
       hex_digit (b / 16); hex_digit (b mod 16)].
Proof.
  intros Hr Hg Hb. unfold toString16.
  set (n := 2 ^ 24 + r * 2 ^ 16 + g * 2 ^ 8 + b).
  destruct (Z.ltb_spec n 0) as [?|_]; [lia|]. f_equal.
  assert (Z.log2 n = 24) as ->.
  { apply Z.log2_unique; lia. }
  pose proof (Z.div_mod r 16 ltac:(lia)).
  pose proof (Z.mod_pos_bound r 16 ltac:(lia)).
  pose proof (Z.div_mod g 16 ltac:(lia)).
  pose proof (Z.mod_pos_bound g 16 ltac:(lia)).
  pose proof (Z.div_mod b 16 ltac:(lia)).
  pose proof (Z.mod_pos_bound b 16 ltac:(lia)).
  assert (0 <= r / 16) by (apply Z.div_pos; lia).
  assert (0 <= g / 16) by (apply Z.div_pos; lia).
  assert (0 <= b / 16) by (apply Z.div_pos; lia).
  assert (r / 16 < 16) by (apply Z.div_lt_upper_bound; lia).
  assert (g / 16 < 16) by (apply Z.div_lt_upper_bound; lia).
  assert (b / 16 < 16) by (apply Z.div_lt_upper_bound; lia).
  replace n with
    (16 * (16 * (16 * (16 * (16 * (16 * 1 + r / 16) + r mod 16) + g / 16)
                 + g mod 16) + b / 16) + b mod 16) by lia.
  change (S (Z.to_nat 24)) with 25%nat.
  rewrite !hex_digits_step by lia.
  by rewrite hex_digits_last.
Qed.

(** The colour of a header is saved as a string that sets the same colour
    again. *)
Lemma parse_color_color_hex c : parse_color (color_hex (Some c)) = Some c.
Proof.
  destruct c as [r g b]. unfold color_hex, rgb_to_hex. cbn [red green blue].
  rewrite rgb_number by apply channel_range.
  rewrite toString16_rgb by apply channel_range.
  cbn [string_of_list_ascii slice1 parse_color].
  change (hex_digit 1) with "1"%char.
  rewrite !hex_pair_channel. reflexivity.
Qed.

End Colours.

(** *** The index of a drop *)

Lemma fmap_insertBefore {A B} (f : A → B) (l : list A) x ref :
  f <$> insertBefore l x ref = insertBefore (f <$> l) (f x) ref.
Proof.
  destruct ref as [i|]; unfold insertBefore.
  - by rewrite fmap_app, fmap_cons, fmap_take, fmap_drop.
  - by rewrite fmap_app.
Qed.

Lemma child_at_fmap {A B} (f : A → B) (l : list A) v :
  child_at (f <$> l) v = child_at l v.
Proof. unfold child_at. by rewrite length_fmap. Qed.

Lemma detach_target p st it old_item_row st1 ev :
  detach p st = Some (it, old_item_row, st1) →
  destination_target ev st1 = destination_target ev st
  ∧ pool_target st1 = pool_target st.
Proof.
  destruct st as [t rs pl pt dr old un]. destruct p as [r k|k]; simpl; intros Hd.
  - destruct (rs !! r) as [rw|] eqn:Hr; simplify_eq/=.
    destruct (row_items rw !! k) as [it'|] eqn:Hk; simplify_eq/=.
    split; [|done]. destruct ev as [r'|r'|]; simpl; [| |done].
    all: destruct (decide (r = r')) as [<-|Hne];
      [rewrite list_lookup_insert_eq by (by eapply lookup_lt_Some); by rewrite Hr
      |by rewrite list_lookup_insert_ne].
  - destruct (pl !! k) as [c|]; simplify_eq/=. by destruct ev.
Qed.

(** What the node comparison of the handler decides. *)
Lemma same_parent_moves_within p st it old_item_row st1 ev :
  detach p st = Some (it, old_item_row, st1) →
  bool_decide (Some (items_container_parent ev) = old_item_row)
  = moves_within p ev st.
Proof.
  destruct p as [r k|k]; simpl; intros Hd.
  - destruct (rows st !! r) as [rw|]; simplify_eq/=.
    destruct (row_items rw !! k); simplify_eq/=.
    destruct ev as [r'|r'|]; simpl; [| |done].
    all: apply bool_decide_ext; split; [by intros [= ->]|by intros ->].
  - destruct (pool st !! k) as [[?|?]|]; simplify_eq/=; by destruct ev.
Qed.

Example pool_indices :
  get_item_index_pool 3 (NContainer 0) = old_item_index pool_abc_grabbed
  ∧ get_item_index_pool 3 (NImg 2) = pool_target pool_abc_grabbed.
Proof. split; reflexivity. Qed.

(** C1, as stated, fails: an imported image moved within the pool, from a
    source index below the raw destination index, is placed at the raw
    destination index; nothing is subtracted. *)
Lemma pool_move_keeps_raw_index :
  dragged_image pool_abc_grabbed = Some (InPool 0)
  ∧ js_lt (old_item_index pool_abc_grabbed) (pool_target pool_abc_grabbed) = true
  ∧ destination_target DropInPool (drop DropInPool pool_abc_grabbed)
    = Some (pool_target pool_abc_grabbed)
  ∧ pool (drop DropInPool pool_abc_grabbed)
    = [InSpan item_A; Bare item_B; Bare item_C].
Proof. repeat split. Qed.

(** C1, amended. In the drop commit the destination index is one less than
    the raw destination index exactly when the grabbed item sits in an
    item span of the destination container (it moves within one row, or
    within the pool after an earlier drop has wrapped it) and its source
    index is strictly less than the raw destination index; in every other
    case the raw destination index is used. The item is put before the
    child at that index, or at the end when the row itself was the
    target. *)
Theorem drop_index_adjustment st ev p it old_item_row st1 (a b : Z) :
  dragged_image st = Some p →
  detach p st = Some (it, old_item_row, st1) →
  old_item_index st = JNum a →
  destination_target ev st = Some (JNum b) →
  let used := if moves_within p ev st && (a <? b)%Z then (b - 1)%Z else b in
  destination_target ev (drop ev st) = Some (JNum used)
  ∧ destination_items ev (drop ev st)
    = (λ children,
         insertBefore children it
           match ev with
           | DropOnRow _ => None
           | _ => child_at children (JNum used)
           end) <$> destination_items ev st1.
Proof.
  intros Hdrag Hdet Hold Htarget used.
  pose proof (detach_target _ _ _ _ _ ev Hdet) as [Ht1 Hpt1].
  pose proof (same_parent_moves_within _ _ _ _ _ ev Hdet) as Hsame.
  assert (∀ t, t = JNum b →
            adjusted_index old_item_row ev (old_item_index st) t = JNum used)
    as Hadj.
  { intros t ->. unfold adjusted_index. rewrite Hsame, Hold. subst used.
    unfold js_lt, js_pred. simpl.
    by destruct (moves_within p ev st && (a <? b)%Z). }
  unfold drop. rewrite Hdrag, Hdet.
  rewrite <- Ht1 in Htarget.
  destruct ev as [r|r|]; cbn [destination_target destination_items] in *.
  - destruct (rows st1 !! r) as [rw|] eqn:Hr; simplify_eq/=.
    rewrite list_lookup_insert_eq by (by eapply lookup_lt_Some). simpl.
    rewrite Hadj by done. done.
  - destruct (rows st1 !! r) as [rw|] eqn:Hr; simplify_eq/=.
    rewrite list_lookup_insert_eq by (by eapply lookup_lt_Some). simpl.
    rewrite Hadj by done. done.
  - injection Htarget as Htarget. rewrite <- Hpt1, Hadj by done.
    cbn [pool pool_target]. split; [done|].
    rewrite fmap_insertBefore, <- (child_at_fmap pool_item). done.
Qed.

Lemma drop_index_adjustment_witness :
  let st := dragenter 0 (NItemSpan 3) (mousedown 0 0 row_abcd) in
  destination_target (DropInRow 0) (drop (DropInRow 0) st) = Some (JNum 2)
  ∧ destination_items (DropInRow 0) (drop (DropInRow 0) st)
    = Some [item_B; item_C; item_A; item_D].
Proof.
  intros st.
  pose proof (drop_index_adjustment st (DropInRow 0) (InRow 0 0)
                item_A (Some (RowDiv 0))
                (set_rows [Row "S" (Some (Rgb Byte.xff Byte.x66 Byte.x66))
                               [item_B; item_C; item_D] "S" (JNum 3)] st)
                0 3 eq_refl eq_refl eq_refl eq_refl) as H.
  exact H.
Defined.

(** *** A, B, C, D *)

(** The search of [item_list] for an element that the container of item
    [k] is or holds, and no other container or image. *)
Lemma list_find_item_list (P : row_node → Prop) `{∀ x, Decision (P x)} k s n :
  (∀ j, P (NContainer j) ↔ j = k) → (∀ j, P (NImg j) → j = k) →
  s ≤ k < s + n →
  fst <$> list_find P (flat_map (λ j, [NContainer j; NImg j]) (seq s n))
  = Some (2 * (k - s)).
Proof.
  intros Hc Hi. revert s. induction n as [|n IH]; intros s Hk; [lia|].
  cbn [seq flat_map app list_find].
  destruct (decide (s = k)) as [->|Hne].
  - rewrite decide_True by (by apply Hc). simpl. f_equal. lia.
  - rewrite decide_False by (by intros ?%Hc).
    rewrite decide_False by (by intros ?%Hi).
    rewrite <- !option_fmap_compose.
    specialize (IH (S s) ltac:(lia)).
    destruct (list_find _ _) as [[i x]|]; simplify_eq/=. f_equal. lia.
Qed.

Lemma list_find_item_spans (P : row_node → Prop) `{∀ x, Decision (P x)} k s n :
  (∀ j, P (NItemSpan j) ↔ j = k) → s ≤ k < s + n →
  fst <$> list_find P (NItemSpan <$> seq s n) = Some (k - s).
Proof.
  intros Hs. revert s. induction n as [|n IH]; intros s Hk; [lia|].
  cbn [seq fmap list_fmap list_find].
  destruct (decide (s = k)) as [->|Hne].
  - rewrite decide_True by (by apply Hs). simpl. f_equal. lia.
  - rewrite decide_False by (by intros ?%Hs).
    rewrite <- !option_fmap_compose.
    specialize (IH (S s) ltac:(lia)).
    destruct (list_find _ _) as [[i x]|]; simplify_eq/=. f_equal. lia.
Qed.

(** What [get_item_index] answers in a row of [n] items: twice the position
    for the container and for the image of an item, since the list it
    searches holds both for every item; the position for the [span.item],
    which only the second search finds. *)
Lemma get_item_index_values n k :
  k < n →
  get_item_index n (NContainer k) = JNum (2 * Z.of_nat k)
  ∧ get_item_index n (NImg k) = JNum (2 * Z.of_nat k)
  ∧ get_item_index n (NItemSpan k) = JNum (Z.of_nat k).
Proof.
  intros Hk. unfold get_item_index, item_list, item_spans. repeat split.
  - pose proof (list_find_item_list
      (λ x, x = NContainer k ∨ contains x (NContainer k) = true) k 0 n) as Hf.
    destruct (list_find _ _) as [[i x]|]; simpl in Hf.
    + f_equal. assert (Some i = Some (2 * (k - 0))) as [= ->]; [|lia].
      apply Hf; [| |lia]; intros j; simpl;
        [rewrite bool_decide_eq_true; naive_solver|naive_solver].
    + exfalso. assert (None = Some (2 * (k - 0))); [|done].
      apply Hf; [| |lia]; intros j; simpl;
        [rewrite bool_decide_eq_true; naive_solver|naive_solver].
  - pose proof (list_find_item_list
      (λ x, x = NImg k ∨ contains x (NImg k) = true) k 0 n) as Hf.
    destruct (list_find _ _) as [[i x]|]; simpl in Hf.
    + f_equal. assert (Some i = Some (2 * (k - 0))) as [= ->]; [|lia].
      apply Hf; [| |lia]; intros j; simpl;
        rewrite bool_decide_eq_true; naive_solver.
    + exfalso. assert (None = Some (2 * (k - 0))); [|done].
      apply Hf; [| |lia]; intros j; simpl;
        rewrite bool_decide_eq_true; naive_solver.
  - rewrite (proj2 (list_find_None _ _)).
    2: { apply Forall_forall. intros x Hx.
         apply list_elem_of_In, in_flat_map in Hx as (j & _ & Hj).
         simpl in Hj. intros [->|Hc]; [naive_solver|].
         destruct Hj as [<-|[<-|[]]]; done. }
    pose proof (list_find_item_spans
      (λ x, x = item_elem_of (NItemSpan k) ∨ contains x (NItemSpan k) = true)
      k 0 n) as Hf.
    destruct (list_find _ _) as [[i x]|]; simpl in Hf.
    + f_equal. assert (Some i = Some (k - 0)) as [= ->]; [|lia].
      apply Hf; [|lia]; intros j; simpl;
        rewrite bool_decide_eq_true; naive_solver.
    + exfalso. assert (None = Some (k - 0)); [|done].
      apply Hf; [|lia]; intros j; simpl;
        rewrite bool_decide_eq_true; naive_solver.
Qed.

(** C2, as stated, fails: A grabbed at source index 0 and dropped on the
    item of D, raw destination index 3, ends between C and D. *)
Lemma drag_a_onto_d :
  let grabbed := mousedown 0 0 row_abcd in
  let hovering := dragenter 0 (NItemSpan 3) grabbed in
  dragged_image grabbed = Some (InRow 0 0)
  ∧ old_item_index grabbed = JNum 0
  ∧ destination_target (DropInRow 0) hovering = Some (JNum 3)
  ∧ destination_items (DropInRow 0) (drop (DropInRow 0) hovering)
    = Some [item_B; item_C; item_A; item_D]
  ∧ destination_items (DropInRow 0) (drop (DropInRow 0) hovering)
    ≠ Some [item_B; item_C; item_D; item_A].
Proof. repeat split. discriminate. Qed.

(** C2, amended. In a row holding A, B, C, D, grabbing A (source index 0)
    and dropping it at raw destination index 3 gives B, C, A, D: the index
    becomes 2 and A goes before the child at 2 of what is left, D. *)
Theorem drop_a_at_3 (A B C D : item) t name color arg target pl pt un :
  let st := State t [Row name color [A; B; C; D] arg target] pl pt None
                  JUndefined un in
  let hovering := dragenter 0 (NItemSpan 3) (mousedown 0 0 st) in
  old_item_index hovering = JNum 0
  ∧ destination_target (DropInRow 0) hovering = Some (JNum 3)
  ∧ destination_target (DropInRow 0) (drop (DropInRow 0) hovering)
    = Some (JNum 2)
  ∧ destination_items (DropInRow 0) (drop (DropInRow 0) hovering)
    = Some [B; C; A; D].
Proof. repeat split. Qed.

(** Hovering the image of D instead gives the raw index 6, and 5 after the
    adjustment is past the three children left: A goes to the end. *)
Lemma drop_a_on_image_of_d (A B C D : item) t name color arg target pl pt un :
  let st := State t [Row name color [A; B; C; D] arg target] pl pt None
                  JUndefined un in
  let hovering := dragenter 0 (NImg 3) (mousedown 0 0 st) in
  destination_target (DropInRow 0) hovering = Some (JNum 6)
  ∧ destination_items (DropInRow 0) (drop (DropInRow 0) hovering)
    = Some [B; C; D; A].
Proof. repeat split. Qed.

(** *** Removing a row *)

Lemma reset_row_rows r st rw :
  rows st !! r = Some rw →
  rows (reset_row r st) = <[r := set_row_items [] rw]> (rows st)
  ∧ pool (reset_row r st) = pool st ++ (Bare <$> row_items rw).
Proof. intros Hr. unfold reset_row. by rewrite Hr. Qed.

(** What [rm_row] leaves: the other rows, and a pool with the containers
    of the row at its end. *)
Lemma rm_row_rows st idx rw :
  rows st !! idx = Some rw →
  rows (rm_row idx st) = delete idx (rows st)
  ∧ pool (rm_row idx st) = pool st ++ (Bare <$> row_items rw).
Proof.
  intros Hr. pose proof (lookup_lt_Some _ _ _ Hr) as Hlt.
  unfold rm_row. rewrite Hr.
  destruct (reset_row_rows idx st rw Hr) as [Hrows Hpool].
  cbn [set_rows rows pool]. rewrite Hrows, Hpool. split; [|done].
  rewrite !delete_take_drop, take_insert_ge, drop_insert_lt by lia. done.
Qed.

(** C7. Removing a row that holds N items puts exactly these items at the
    end of the untiered pool, in their order; the pool grows by N, the
    number of rows falls by one, and the items of the page are the same
    items as before, none lost and none twice. *)
Theorem rm_row_keeps_items st idx rw :
  rows st !! idx = Some rw →
  pool (rm_row idx st) = pool st ++ (Bare <$> row_items rw)
  ∧ length (pool (rm_row idx st)) = length (pool st) + length (row_items rw)
  ∧ rows (rm_row idx st) = delete idx (rows st)
  ∧ S (length (rows (rm_row idx st))) = length (rows st)
  ∧ all_items (rm_row idx st) ≡ₚ all_items st.
Proof.
  intros Hr. pose proof (lookup_lt_Some _ _ _ Hr) as Hlt.
  destruct (rm_row_rows st idx rw Hr) as [Hrows Hpool].
  split; [done|]. split.
  { by rewrite Hpool, length_app, length_fmap. }
  split; [done|]. split.
  { rewrite Hrows, length_delete by (by eexists). lia. }
  unfold all_items. rewrite Hrows, Hpool.
  rewrite <- (take_drop_middle (rows st) idx rw Hr) at 2.
  rewrite delete_take_drop, !fmap_app, fmap_cons, !concat_app, concat_cons.
  rewrite <- list_fmap_compose. simpl.
  rewrite list_fmap_id.
  set (before := concat (row_items <$> take idx (rows st))).
  set (after := concat (row_items <$> list.drop (S idx) (rows st))).
  rewrite <- !(assoc_L (++)).
  apply Permutation_app_head.
  rewrite (assoc_L (++) after), (assoc_L (++) (row_items rw)).
  rewrite (Permutation_app_comm (row_items rw) after).
  rewrite <- !(assoc_L (++)). apply Permutation_app_head.
  apply Permutation_app_comm.
Qed.

Lemma rm_row_keeps_items_witness :
  pool (rm_row 0 row_abcd)
  = [] ++ (Bare <$> [item_A; item_B; item_C; item_D])
  ∧ length (pool (rm_row 0 row_abcd)) = 0 + 4
  ∧ rows (rm_row 0 row_abcd) = []
  ∧ S (length (rows (rm_row 0 row_abcd))) = 1
  ∧ all_items (rm_row 0 row_abcd) ≡ₚ all_items row_abcd.
Proof.
  exact (rm_row_keeps_items row_abcd 0
           (Row "S" (Some (Rgb Byte.xff Byte.x66 Byte.x66))
                [item_A; item_B; item_C; item_D] "S" JUndefined) eq_refl).
Defined.

(** *** At least one row *)

Lemma add_row_length index name st :
  length (rows (add_row index name st)) = S (length (rows st)).
Proof.
  unfold add_row. cbn [set_rows rows].
  destruct (match index with NumberIndex n => _ | StringIndex _ => _ end).
  - rewrite length_app. simpl. lia.
  - case_bool_decide; unfold insertBefore.
    + rewrite length_app, length_cons, length_take, length_drop. lia.
    + rewrite length_app. simpl. lia.
Qed.

Lemma recompute_header_colors_length idx st :
  length (rows (recompute_header_colors idx st)) = length (rows st).
Proof.
  unfold recompute_header_colors. destruct idx as [i|]; cbn [set_rows rows].
  - destruct (rows st !! i); [|done]. cbn [set_rows rows]. by rewrite length_insert.
  - by rewrite length_imap.
Qed.

Lemma rm_row_length idx st :
  idx < length (rows st) → S (length (rows (rm_row idx st))) = length (rows st).
Proof.
  intros Hlt. destruct (lookup_lt_is_Some_2 _ _ Hlt) as [rw Hr].
  destruct (rm_row_rows st idx rw Hr) as [-> _].
  rewrite length_delete by (by eexists). lia.
Qed.

(** A click on a row button leaves at least one row where there was one. *)
Lemma click_keeps_a_row c st :
  1 ≤ length (rows st) → 1 ≤ length (rows (click c st)).
Proof.
  intros Hone. destruct c as [idx|idx confirmed|idx]; simpl.
  - unfold btn_plus_up. destruct (rows st !! idx); [|done].
    rewrite recompute_header_colors_length, add_row_length. lia.
  - unfold btn_rm. destruct (rows st !! idx) as [rw|] eqn:Hr; [|done].
    case_bool_decide as Hfew; [done|].
    destruct (_ || _); [|done].
    pose proof (rm_row_length idx st (lookup_lt_Some _ _ _ Hr)). lia.
  - unfold btn_plus_down. destruct (rows st !! idx); [|done].
    rewrite recompute_header_colors_length, add_row_length. lia.
Qed.

(** The remove button does nothing on a page with fewer than two rows. *)
Lemma btn_rm_single_row idx confirmed st :
  length (rows st) < 2 → btn_rm idx confirmed st = st.
Proof.
  intros Hfew. unfold btn_rm. destruct (rows st !! idx); [|done].
  by rewrite bool_decide_eq_true_2.
Qed.

Lemma default_state_rows page_title : length (rows (default_state page_title)) = 7.
Proof. reflexivity. Qed.

(** C9. The remove button of a row does nothing while the tierlist has
    fewer than two rows; so after any sequence of clicks on the add and
    remove buttons of the rows, starting from the default tierlist, there
    is at least one row. *)
Theorem always_a_row page_title cs :
  (∀ st idx confirmed, length (rows st) < 2 → btn_rm idx confirmed st = st)
  ∧ 1 ≤ length (rows (clicks cs (default_state page_title))).
Proof.
  split; [intros st idx confirmed; apply btn_rm_single_row|].
  unfold clicks.
  assert (∀ s, 1 ≤ length (rows s) →
               1 ≤ length (rows (foldl (λ s c, click c s) s cs))) as Hall.
  { induction cs as [|c cs IH]; intros s Hs; [done|].
    simpl. apply IH. by apply click_keeps_a_row. }
  apply Hall. rewrite default_state_rows. lia.
Qed.

(** *** Saving and loading again *)

Lemma substr0_short n s : String.length s ≤ n → substr0 n s = s.
Proof.
  revert n. induction s as [|c s IH]; intros [|n] Hlen; simpl in *; try done; [lia|].
  f_equal. apply IH. lia.
Qed.

Lemma save_imgs_containers items : save_imgs items = save_container <$> items.
Proof. unfold save_imgs. case_bool_decide as Hlen; [|done]. by destruct items. Qed.

Lemma reloaded_item_spec it :
  reloaded_item it
  = if truthy (item_src it)
    then Some (Item (item_src it) (trim (item_name it))) else None.
Proof. done. Qed.

Lemma reloaded_item_plain it : plain_item it → reloaded_item it = Some it.
Proof.
  intros [Hsrc Hname]. rewrite reloaded_item_spec, Hname.
  destruct it as [[|c src] name]; simpl in *; done.
Qed.

Lemma set_rows_set_rows rs rs' st : set_rows rs (set_rows rs' st) = set_rows rs st.
Proof. done. Qed.

Lemma set_rows_id st : set_rows (rows st) st = st.
Proof. by destruct st. Qed.

(** The loop over the rows of a file, every one with a colour, on a page
    whose rows are as many as the index it starts with: the rows of the
    file are appended in order. *)
Lemma load_rows_colored ser_rows st idx :
  Forall (λ ser_row, is_Some (re_color ser_row)) ser_rows →
  length (rows st) = idx →
  load_rows st idx ser_rows = set_rows (rows st ++ (row_of_entry <$> ser_rows)) st.
Proof.
  revert st idx. induction ser_rows as [|ser_row rest IH]; intros st idx Hcol Hlen.
  { simpl. by rewrite app_nil_r, set_rows_id. }
  apply Forall_cons in Hcol as [[color Hcolor] Hrest]. cbn [load_rows].
  assert (load_row st idx ser_row
          = set_rows (rows st ++ [row_of_entry ser_row]) st) as ->.
  { unfold load_row, added_at, add_row. cbn [index_value set_rows rows].
    rewrite Hlen, Nat.min_id.
    rewrite bool_decide_eq_false_2 by lia. cbn [insertBefore].
    rewrite lookup_app_r by lia. rewrite Hlen, Nat.sub_diag. cbn [lookup list_lookup new_row].
    rewrite Hcolor. cbn [set_rows rows row_items row_color row_arg_name row_target
                         set_row_color app].
    rewrite <- Hlen at 1. rewrite insert_app_r_alt by lia.
    rewrite Nat.sub_diag. cbn [insert list_insert].
    unfold row_of_entry. by rewrite Hcolor. }
  rewrite (IH _ (S idx)); [|done|].
  - cbn [set_rows rows fmap list_fmap]. rewrite set_rows_set_rows.
    by rewrite <- (assoc_L (++)).
  - cbn [set_rows rows]. rewrite length_app. simpl. lia.
Qed.

Lemma omap_fmap_compose {A B C} (f : B → option C) (g : A → B) (l : list A) :
  omap f (g <$> l) = omap (f ∘ g) l.
Proof. induction l as [|x l IH]; [done|]. csimpl. by rewrite IH. Qed.

Lemma load_items_app l1 l2 : load_items (l1 ++ l2) = load_items l1 ++ load_items l2.
Proof. apply omap_app. Qed.

Lemma load_items_pool p :
  load_items (save_pool_elem <$> untiered_imgs p)
  = p ≫= reloaded_pool_child.
Proof.
  induction p as [|c p IH]; [done|].
  cbn [untiered_imgs flat_map]. change (flat_map _ p) with (untiered_imgs p).
  rewrite fmap_app, load_items_app, IH. done.
Qed.

(** Loading a file whose rows all have a colour into the emptied page. *)
Lemma load_tierlist_emptied d st :
  Forall (λ ser_row, is_Some (re_color ser_row)) (default [] (wd_rows d)) →
  let st' := load_tierlist d (hard_reset_list st) in
  title st' = wd_title d
  ∧ rows st' = row_of_entry <$> default [] (wd_rows d)
  ∧ pool st' = Bare <$> load_items (default [] (wd_untiered d)).
Proof.
  intros Hcol. unfold load_tierlist, hard_reset_list.
  cbn [set_rows set_pool rows pool title pool_target dragged_image
       old_item_index unsaved_changes].
  rewrite (load_rows_colored _ _ 0) by done.
  destruct (wd_untiered d); done.
Qed.

Lemma serialized_rows_colored st :
  Forall (λ ser_row, is_Some (re_color ser_row))
         (default [] (wd_rows (serialized_tierlist st))).
Proof. simpl. rewrite Forall_fmap. apply Forall_true. intros rw. by eexists. Qed.

Lemma serialized_untiered st :
  default [] (wd_untiered (serialized_tierlist st))
  = save_pool_elem <$> untiered_imgs (pool st).
Proof.
  simpl. case_bool_decide as Hlen; [done|].
  destruct (untiered_imgs (pool st)); [done|simpl in Hlen; lia].
Qed.

(** The Document after a save and a load of what was saved. *)
Lemma reload_document st :
  document_of (reload st)
  = Tierlist (title st) (reloaded_tier <$> rows st) (pool st ≫= reloaded_pool_child).
Proof.
  unfold reload, import_input, document_of.
  destruct (load_tierlist_emptied (serialized_tierlist st) st
              (serialized_rows_colored st)) as (-> & -> & ->).
  rewrite serialized_untiered, load_items_pool. f_equal.
  - cbn [serialized_tierlist wd_rows default]. unfold id.
    rewrite <- !list_fmap_compose. apply list_fmap_ext. intros i rw _.
    unfold reloaded_tier, tier_of, row_of_entry, save_row, load_items. simpl.
    rewrite save_imgs_containers. f_equal. apply omap_fmap_compose.
  - rewrite <- list_fmap_compose. apply list_fmap_id.
Qed.

Lemma truthy_nonempty s : s ≠ "" → truthy s = true.
Proof. by destruct s. Qed.

Lemma reloaded_tier_plain rw : plain_row rw → reloaded_tier rw = tier_of rw.
Proof.
  intros (Hname & [c Hc] & Hitems). unfold reloaded_tier, tier_of.
  rewrite substr0_short by done. rewrite Hc.
  unfold set_backgroundColor. rewrite parse_color_color_hex. f_equal.
  induction Hitems as [|it items Hit _ IH]; [done|].
  csimpl. by rewrite reloaded_item_plain, IH.
Qed.

(** C3, as stated, fails: an item whose name has a space on either side
    comes back from a save and a load without them. *)
Lemma spaced_name_not_kept :
  document_of (reload row_spaced) ≠ document_of row_spaced
  ∧ tl_rows (document_of (reload row_spaced))
    = [Tier "S" (Some (Rgb Byte.xff Byte.x66 Byte.x66))
            [Item "data:image/png;base64,QQ==" "A"]].
Proof. split; [discriminate|reflexivity]. Qed.

(** C3, amended. When every row has a name of at most 200 characters and a
    colour, and holds only items with a source and with a name without
    white space around it, saving the page and loading what was saved gives
    a Document with the same title and the same rows: names, colours and
    items, in order; with an empty untiered pool the whole Document is the
    same. *)
Theorem reload_plain_rows st :
  Forall plain_row (rows st) →
  tl_title (document_of (reload st)) = tl_title (document_of st)
  ∧ tl_rows (document_of (reload st)) = tl_rows (document_of st)
  ∧ (pool st = [] → document_of (reload st) = document_of st).
Proof.
  intros Hplain. rewrite reload_document. cbn [tl_title tl_rows document_of].
  assert (reloaded_tier <$> rows st = tier_of <$> rows st) as Hrows.
  { apply list_fmap_ext. intros i rw Hrw. apply reloaded_tier_plain.
    by eapply Forall_lookup_1. }
  split; [done|]. split; [done|]. intros Hpool.
  unfold document_of. by rewrite Hrows, Hpool.
Qed.

Lemma reload_plain_rows_witness :
  tl_title (document_of (reload row_abcd)) = tl_title (document_of row_abcd)
  ∧ tl_rows (document_of (reload row_abcd)) = tl_rows (document_of row_abcd)
  ∧ (pool row_abcd = [] → document_of (reload row_abcd) = document_of row_abcd).
Proof.
  apply reload_plain_rows.
  repeat constructor; simpl; try lia; try discriminate; by eexists.
Defined.

(** *** The legacy format *)

(** A bare string that is not empty is loaded as the object with that
    source and the empty name is. *)
Lemma load_item_legacy s :
  s ≠ "" → load_item (EString s) = load_item (EObject (Some s) (Some "")).
Proof. intros Hs. simpl. by rewrite truthy_nonempty. Qed.

(** The items of a row are saved as objects, whatever they were loaded
    from. *)
Lemma saved_row_entries_are_objects rw e :
  e ∈ default [] (re_imgs (save_row rw)) →
  ∃ it, it ∈ row_items rw
        ∧ e = EObject (Some (item_src it)) (Some (trim (item_name it))).
Proof.
  simpl. rewrite save_imgs_containers. intros (it & -> & Hit)%list_elem_of_fmap.
  by exists it.
Qed.

(** C4, at the failing input. A file whose [untiered] is the one bare
    string [s] is loaded as one item with the empty name; saving the page
    then writes two entries for it: the object with the name "", and the
    bare string again. *)
Theorem legacy_pool_entry_saved_twice t s st :
  let loaded := import_input (Some (PObject (Document t (Some []) (Some [EString s]))))
                             st in
  pool loaded = [Bare (Item s "")]
  ∧ wd_untiered (serialized_tierlist loaded)
    = Some [EObject (Some s) (Some ""); EString s].
Proof. split; reflexivity. Qed.

Lemma reloaded_pool_child_spec c :
  reloaded_pool_child c
  = option_list (reloaded_item (pool_item c)) ++ [Item (item_src (pool_item c)) ""].
Proof.
  unfold reloaded_pool_child, reloaded_item, load_items. csimpl.
  by destruct (truthy (item_src (pool_item c))).
Qed.

(** It is so for every image of the pool, whatever it was loaded from: its
    container is saved as an object and its image as a bare string, and
    both are loaded the next time. *)
Lemma pool_saved_twice st :
  default [] (wd_untiered (serialized_tierlist st))
  = pool st ≫= λ c, [EObject (Some (item_src (pool_item c)))
                             (Some (trim (item_name (pool_item c))));
                     EString (item_src (pool_item c))].
Proof.
  rewrite serialized_untiered. induction (pool st) as [|c p IH]; [done|].
  csimpl. by rewrite <- IH.
Qed.

Lemma pool_reloaded_twice st :
  Forall (λ c, plain_item (pool_item c)) (pool st) →
  tl_untiered (document_of (reload st))
  = pool st ≫= λ c, [pool_item c; Item (item_src (pool_item c)) ""].
Proof.
  intros Hplain. rewrite reload_document. cbn [tl_untiered].
  induction Hplain as [|c p Hc _ IH]; [done|]. csimpl.
  by rewrite IH, reloaded_pool_child_spec, reloaded_item_plain.
Qed.

Example legacy_file_saved :
  wd_untiered (serialized_tierlist
                 (import_input (Some (PObject legacy_file)) row_abcd))
  = Some [EObject (Some "data:image/png;base64,QQ==") (Some "");
          EString "data:image/png;base64,QQ=="].
Proof. reflexivity. Qed.

(** *** A file without rows *)

(** C5, at the failing input. The utility's [loadJsonFile] rejects a file
    without [rows]; the import of the page does not: it empties the page
    and loads the file, so that the rows and the pool of the Document
    shown before are gone and its title is replaced. *)
Theorem import_without_rows_empties_page t untiered st :
  let d := Document t None untiered in
  let imported := import_input (Some (PObject d)) st in
  RemoveDuplicates.loadJsonFile (Some (PObject d)) = inl RemoveDuplicates.RowsNotArray
  ∧ title imported = t
  ∧ rows imported = []
  ∧ pool imported = Bare <$> load_items (default [] untiered).
Proof.
  intros d imported. subst imported d. by destruct untiered.
Qed.

Example import_title_x :
  document_of (import_input (Some (PObject file_without_rows)) row_abcd)
  = Tierlist "x" [] []
  ∧ document_of (import_input (Some (PObject file_without_rows)) row_abcd)
    ≠ document_of row_abcd.
Proof. split; [reflexivity|discriminate]. Qed.

(** What the import does keep the page for: a text that is no JSON, and a
    falsy value. *)
Lemma import_rejected st :
  import_input None st = st ∧ import_input (Some PFalsy) st = st.
Proof. done. Qed.

(** *** Names are trimmed *)

Lemma length_omap_le {A B} (f : A → option B) (l : list A) :
  length (omap f l) ≤ length l.
Proof.
  induction l as [|x l IH]; [done|]. csimpl. destruct (f x); simpl; lia.
Qed.

(** Items that come back as they were have trimmed names. *)
Lemma omap_reloaded_fixed items :
  omap reloaded_item items = items →
  Forall (λ it, trim (item_name it) = item_name it) items.
Proof.
  induction items as [|it items IH]; [done|]. csimpl.
  rewrite reloaded_item_spec. destruct (truthy (item_src it)); simpl.
  - intros [= Hit Hrest]. constructor; [|by apply IH].
    destruct it as [src name]. by simplify_eq/=.
  - intros Heq. pose proof (length_omap_le reloaded_item items) as Hlen.
    rewrite Heq in Hlen. simpl in Hlen. lia.
Qed.

Lemma length_reloaded_pool p : length p ≤ length (p ≫= reloaded_pool_child).
Proof.
  induction p as [|c p IH]; [done|]. csimpl.
  rewrite reloaded_pool_child_spec, !length_app. simpl. lia.
Qed.

Lemma pool_reloaded_fixed p :
  p ≫= reloaded_pool_child = pool_item <$> p →
  Forall (λ c, trim (item_name (pool_item c)) = item_name (pool_item c)) p.
Proof.
  induction p as [|c p IH]; [done|]. csimpl.
  rewrite reloaded_pool_child_spec, reloaded_item_spec.
  pose proof (length_reloaded_pool p) as Hlen.
  destruct (truthy (item_src (pool_item c))); simpl.
  - intros [= _ Hrest]. apply (f_equal length) in Hrest.
    rewrite length_fmap in Hrest. simpl in Hrest. lia.
  - intros [= Hit Hrest]. constructor; [|by apply IH].
    by rewrite <- Hit.
Qed.

(** A name with white space at one of its ends is not what [trim] makes
    of it. *)
Lemma trim_changes_spaced name :
  starts_dark name = false ∨ ends_dark name = false → trim name ≠ name.
Proof.
  intros Hspaced Heq. apply JsStringFacts.trim_fixed_dark in Heq as [Hs He].
  destruct Hspaced; congruence.
Qed.

(** C10. Every item is saved with its name without the white space at its
    two ends, in the rows and in the untiered pool: the saved name is the
    label with white space, and nothing else, taken off before and after
    it, and has none left at either end. So a page with an item whose name
    has white space at an end does not come back as it was from a save and
    a load, and an item with a source comes back, in its row or in the
    pool, with the name so stripped. *)
Theorem names_saved_trimmed st :
  (∃ ser_rows,
     wd_rows (serialized_tierlist st) = Some ser_rows
     ∧ Forall2 (λ rw ser_row,
                  Forall2 (λ it e,
                             ∃ name, e = EObject (Some (item_src it)) (Some name)
                                     ∧ stripped (item_name it) name)
                          (row_items rw) (default [] (re_imgs ser_row)))
               (rows st) ser_rows)
  ∧ (∀ c, c ∈ pool st →
       ∃ name,
         EObject (Some (item_src (pool_item c))) (Some name)
         ∈ default [] (wd_untiered (serialized_tierlist st))
         ∧ stripped (item_name (pool_item c)) name)
  ∧ (∀ src name,
       EObject src (Some name) ∈ default [] (wd_untiered (serialized_tierlist st)) →
       ∃ c, c ∈ pool st ∧ stripped (item_name (pool_item c)) name)
  ∧ (∀ it, it ∈ all_items st →
       starts_dark (item_name it) = false ∨ ends_dark (item_name it) = false →
       document_of (reload st) ≠ document_of st)
  ∧ (∀ r rw it, rows st !! r = Some rw → it ∈ row_items rw → item_src it ≠ "" →
       ∃ tr name, tl_rows (document_of (reload st)) !! r = Some tr
                  ∧ Item (item_src it) name ∈ tier_items tr
                  ∧ stripped (item_name it) name)
  ∧ (∀ c, c ∈ pool st → item_src (pool_item c) ≠ "" →
       ∃ name, Item (item_src (pool_item c)) name
               ∈ tl_untiered (document_of (reload st))
               ∧ stripped (item_name (pool_item c)) name)
  ∧ save_container (Item "x" "  Pizza  Hut ")
    = EObject (Some "x") (Some "Pizza  Hut").
Proof.
  split.
  { exists (save_row <$> rows st). split; [reflexivity|].
    apply Forall2_fmap_r, Forall_Forall2_diag, Forall_forall. intros rw _.
    change (Forall2 (λ it e,
                       ∃ name, e = EObject (Some (item_src it)) (Some name)
                               ∧ stripped (item_name it) name)
                    (row_items rw) (save_imgs (row_items rw))).
    rewrite save_imgs_containers.
    apply Forall2_fmap_r, Forall_Forall2_diag, Forall_forall. intros it _.
    exists (trim (item_name it)). split; [done|].
    apply JsStringFacts.trim_stripped. }
  rewrite serialized_untiered, reload_document.
  cbn [tl_rows tl_untiered]. split; [|split; [|split; [|split; [|split]]]].
  - intros c Hc. exists (trim (item_name (pool_item c))).
    split; [|apply JsStringFacts.trim_stripped].
    apply list_elem_of_fmap. exists (PContainer (pool_item c)).
    split; [done|]. unfold untiered_imgs.
    apply list_elem_of_In, in_flat_map. exists c.
    split; [by apply list_elem_of_In|]. by left.
  - intros src name (elem & Heq & Helem)%list_elem_of_fmap.
    apply list_elem_of_In, in_flat_map in Helem as (c & Hc%list_elem_of_In & Hin).
    exists c. split; [done|].
    destruct Hin as [<-|[<-|[]]]; unfold save_pool_elem, save_container in Heq;
      simplify_eq. apply JsStringFacts.trim_stripped.
  - intros it Hit Hname%trim_changes_spaced Heq. unfold document_of in Heq.
    injection Heq as Hrows Hpool.
    unfold all_items in Hit. apply elem_of_app in Hit as [Hit|Hit].
    + apply list_elem_of_In, in_concat in Hit as (items & Hitems & Hit).
      apply list_elem_of_In in Hitems, Hit.
      apply list_elem_of_fmap in Hitems as (rw & -> & Hrw).
      apply list_elem_of_lookup in Hrw as [r Hr].
      apply (f_equal (λ l, tier_items <$> l !! r)) in Hrows.
      rewrite !list_lookup_fmap, Hr in Hrows. simpl in Hrows.
      injection Hrows as Hrows. apply omap_reloaded_fixed in Hrows.
      rewrite Forall_forall in Hrows. by apply Hname, Hrows.
    + apply list_elem_of_fmap in Hit as (c & -> & Hc).
      apply pool_reloaded_fixed in Hpool.
      rewrite Forall_forall in Hpool. by apply Hname, Hpool.
  - intros r rw it Hr Hit Hsrc. exists (reloaded_tier rw), (trim (item_name it)).
    rewrite list_lookup_fmap, Hr. split; [done|].
    split; [|apply JsStringFacts.trim_stripped]. simpl.
    apply list_elem_of_omap. exists it. split; [done|].
    by rewrite reloaded_item_spec, truthy_nonempty.
  - intros c Hc Hsrc. exists (trim (item_name (pool_item c))).
    split; [|apply JsStringFacts.trim_stripped].
    apply list_elem_of_bind. exists c. split; [|done].
    rewrite reloaded_pool_child_spec, reloaded_item_spec, truthy_nonempty by done.
    by left.
  - reflexivity.
Qed.

End TiersFacts.

(* ================================================================== *)
(** ** More about the duplicate-removal utility *)
(* ================================================================== *)

Module DuplicateNames.
Import JsString Wire RemoveDuplicates.

(** *** Containment *)

Lemma prefix_length a b :
  String.prefix a b = true → String.length a ≤ String.length b.
Proof.
  revert b. induction a as [|c a IH]; intros [|c' b]; simpl; try done; [lia|].
  destruct (ascii_dec c c'); [|done]. intros H%IH. lia.
Qed.

Lemma prefix_same_length a b :
  String.prefix a b = true → String.length a = String.length b → a = b.
Proof.
  revert b. induction a as [|c a IH]; intros [|c' b]; simpl; try done.
  destruct (ascii_dec c c') as [->|]; [|done].
  intros Hp [= Hlen]. f_equal. by apply IH.
Qed.

Lemma prefix_refl a : String.prefix a a = true.
Proof. induction a as [|c a IH]; [done|]. simpl. by destruct (ascii_dec c c). Qed.

Lemma includes_refl s : includes s s = true.
Proof. destruct s; [done|]. cbn [includes]. by rewrite prefix_refl. Qed.

Lemma includes_length hay needle :
  includes hay needle = true → String.length needle ≤ String.length hay.
Proof.
  induction hay as [|c hay IH]; cbn [includes].
  - destruct (String.prefix needle "") eqn:Hp; [|done].
    intros _. by apply prefix_length in Hp.
  - destruct (String.prefix needle (String c hay)) eqn:Hp.
    + intros _. by apply prefix_length in Hp.
    + intros H%IH. simpl. lia.
Qed.

Lemma includes_same_length hay needle :
  includes hay needle = true → String.length needle = String.length hay →
  hay = needle.
Proof.
  destruct hay as [|c hay]; cbn [includes].
  - destruct (String.prefix needle "") eqn:Hp; [|done].
    intros _ Hlen. symmetry. by apply prefix_same_length.
  - destruct (String.prefix needle (String c hay)) eqn:Hp.
    + intros _ Hlen. symmetry. by apply prefix_same_length.
    + intros H%includes_length. simpl. lia.
Qed.

(** X1. Two names are duplicates exactly when, lower-cased and trimmed,
    one of them contains the other; the order in which the two names are
    given does not matter. *)
Theorem isDuplicate_containment name1 name2 :
  isDuplicate name1 name2
  = includes (normalizeName name1) (normalizeName name2)
    || includes (normalizeName name2) (normalizeName name1)
  ∧ isDuplicate name1 name2 = isDuplicate name2 name1.
Proof.
  unfold isDuplicate.
  set (n1 := normalizeName name1). set (n2 := normalizeName name2).
  assert (includes n1 n2 = true → String.length n2 < String.length n1 ∨ n1 = n2)
    as H12.
  { intros Hi. pose proof (includes_length _ _ Hi) as Hle.
    destruct (decide (String.length n2 = String.length n1)) as [Heq|]; [|lia].
    right. by apply includes_same_length. }
  assert (includes n2 n1 = true → String.length n1 < String.length n2 ∨ n1 = n2)
    as H21.
  { intros Hi. pose proof (includes_length _ _ Hi) as Hle.
    destruct (decide (String.length n1 = String.length n2)) as [Heq|]; [|lia].
    right. symmetry. by apply includes_same_length. }
  split.
  - case_bool_decide as Heq.
    + by rewrite Heq, includes_refl.
    + destruct (Nat.ltb_spec (String.length n1) (String.length n2)) as [Hlt|Hge].
      * destruct (includes n1 n2) eqn:Hi; [|done].
        destruct (H12 eq_refl) as [?|?]; [lia|done].
      * destruct (Nat.ltb_spec (String.length n2) (String.length n1)) as [Hlt|Hge'].
        -- destruct (includes n2 n1) eqn:Hi; [|by rewrite orb_false_r].
           destruct (H21 eq_refl) as [?|?]; [lia|done].
        -- destruct (includes n1 n2) eqn:Hi.
           { destruct (H12 eq_refl) as [?|?]; [lia|done]. }
           destruct (includes n2 n1) eqn:Hi'; [|done].
           destruct (H21 eq_refl) as [?|?]; [lia|done].
  - repeat case_bool_decide; try done; try congruence.
    destruct (Nat.ltb_spec (String.length n1) (String.length n2)) as [Hlt|Hge];
      destruct (Nat.ltb_spec (String.length n2) (String.length n1)) as [Hlt'|Hge'];
      try done; lia.
Qed.

Lemma isDuplicate_sym name1 name2 : isDuplicate name1 name2 = isDuplicate name2 name1.
Proof.
  unfold isDuplicate. repeat case_bool_decide; try done; try congruence.
  destruct (Nat.ltb_spec (String.length (normalizeName name1))
                         (String.length (normalizeName name2)));
    destruct (Nat.ltb_spec (String.length (normalizeName name2))
                           (String.length (normalizeName name1)));
    try done; lia.
Qed.

End DuplicateNames.

Module KeptAndCollected.
Import JsString Wire RemoveDuplicates Report Samples.

(** *** The entry that is kept *)

Lemma shortest_fold (first : entry) rest kept :
  foldl (λ shortest current,
           if String.length (entry_name current)
              <? String.length (entry_name shortest)
           then current else shortest) first rest = kept →
  ∃ i, (first :: rest) !! i = Some kept
       ∧ (∀ e, e ∈ first :: rest →
            String.length (entry_name kept) ≤ String.length (entry_name e))
       ∧ (∀ j e, j < i → (first :: rest) !! j = Some e →
            String.length (entry_name kept) < String.length (entry_name e)).
Proof.
  revert first. induction rest as [|current rest IH]; intros first Hk;
    cbn [foldl] in Hk.
  - subst kept. exists 0. split; [done|]. split.
    + by intros e ->%list_elem_of_singleton.
    + intros j e Hj. lia.
  - destruct (Nat.ltb_spec (String.length (entry_name current))
                           (String.length (entry_name first))) as [Hlt|Hge];
      apply IH in Hk as (i & Hi & Hmin & Hfirst).
    + exists (S i). split; [done|]. split.
      * intros e [->|He]%elem_of_cons; [|by apply Hmin].
        specialize (Hmin current ltac:(by left)). lia.
      * intros [|j] e Hj He.
        -- injection He as <-. specialize (Hmin current ltac:(by left)). lia.
        -- apply (Hfirst j); [lia|done].
    + destruct i as [|i].
      * injection Hi as <-. exists 0. split; [done|]. split; [|intros; lia].
        intros e [->|[->|He]%elem_of_cons]%elem_of_cons; [done|lia|].
        apply Hmin. by right.
      * exists (S (S i)). split; [done|]. split.
        -- intros e [->|[->|He]%elem_of_cons]%elem_of_cons.
           ++ apply Hmin. by left.
           ++ specialize (Hmin first ltac:(by left)). lia.
           ++ apply Hmin. by right.
        -- intros [|[|j]] e Hj He.
           ++ injection He as <-. apply (Hfirst 0); [lia|done].
           ++ injection He as <-.
              pose proof (Hfirst 0 first ltac:(lia) eq_refl). lia.
           ++ apply (Hfirst (S j)); [lia|done].
Qed.

(** X2. Of a group that is not empty [keepShortestEntry] gives an entry of
    the group with a name no longer than any other, the first such in the
    order of the group; only the empty group has none, where [reduce]
    throws. *)
Theorem keepShortestEntry_first_shortest group :
  (keepShortestEntry group = None ↔ group = [])
  ∧ ∀ kept, keepShortestEntry group = Some kept →
      ∃ i, group !! i = Some kept
           ∧ (∀ e, e ∈ group →
                String.length (entry_name kept) ≤ String.length (entry_name e))
           ∧ (∀ j e, j < i → group !! j = Some e →
                String.length (entry_name kept) < String.length (entry_name e)).
Proof.
  destruct group as [|first rest]; [done|]. split; [done|].
  intros kept [= Hk]. by apply shortest_fold.
Qed.

Lemma keepShortestEntry_elem group kept :
  keepShortestEntry group = Some kept → kept ∈ group.
Proof.
  destruct group as [|first rest]; [done|]. intros [= Hk].
  destruct (shortest_fold first rest kept Hk) as (i & Hi & _).
  by eapply list_elem_of_lookup_2.
Qed.

(** *** What is collected *)

Lemma elem_of_concat_imap {A B} (f : nat → A → list B) (l : list A) (y : B) :
  y ∈ concat (imap f l) ↔ ∃ i x, l !! i = Some x ∧ y ∈ f i x.
Proof.
  rewrite list_elem_of_In, in_concat. split.
  - intros (ys & Hys%list_elem_of_In & Hy%list_elem_of_In).
    apply elem_of_lookup_imap in Hys as (i & x & -> & Hx). eauto.
  - intros (i & x & Hx & Hy). exists (f i x).
    split; apply list_elem_of_In; [|done].
    apply elem_of_lookup_imap. eauto.
Qed.

(** Lists made for the places of a list share no key when the places can
    be told from the keys. *)
Lemma NoDup_key_concat_imap {A B K} (g : B → K) (f : nat → A → list B) (l : list A) :
  (∀ i x, l !! i = Some x → NoDup (g <$> f i x)) →
  (∀ i j x y a b, l !! i = Some x → l !! j = Some y →
     a ∈ f i x → b ∈ f j y → g a = g b → i = j) →
  NoDup (g <$> concat (imap f l)).
Proof.
  revert f. induction l as [|x l IH]; intros f Hone Hkey; [constructor|].
  rewrite imap_cons, concat_cons, fmap_app. apply NoDup_app. split; [|split].
  - by apply (Hone 0 x).
  - intros k (a & -> & Ha)%list_elem_of_fmap (b & Hk & Hb)%list_elem_of_fmap.
    apply elem_of_concat_imap in Hb as (j & y & Hy & Hb).
    by specialize (Hkey 0 (S j) x y a b eq_refl Hy Ha Hb Hk).
  - apply IH.
    + intros i y Hy. by apply (Hone (S i) y).
    + intros i j y z a b Hy Hz Ha Hb Hk.
      by specialize (Hkey (S i) (S j) y z a b Hy Hz Ha Hb Hk) as [= ->].
Qed.

Lemma collect_item_spec mk i item e :
  e ∈ collect_item mk i item
  ↔ ∃ src name, item = EObject src (Some name) ∧ name ≠ ""
                ∧ e = Entry src name (mk i).
Proof.
  unfold collect_item. split.
  - destruct item as [s|src [name|]]; try by intros ?%elem_of_nil.
    destruct name as [|c name]; simpl; [by intros ?%elem_of_nil|].
    intros ->%list_elem_of_singleton. by eexists _, _.
  - intros (src & name & -> & Hname & ->).
    destruct name; [done|]. simpl. by left.
Qed.

Lemma collect_items_spec mk items e :
  e ∈ collect_items mk items
  ↔ ∃ i src name, items !! i = Some (EObject src (Some name)) ∧ name ≠ ""
                  ∧ e = Entry src name (mk i).
Proof.
  unfold collect_items. rewrite elem_of_concat_imap. split.
  - intros (i & item & Hi & (src & name & -> & ? & ->)%collect_item_spec).
    by eexists _, _, _.
  - intros (i & src & name & Hi & ? & ->). exists i, (EObject src (Some name)).
    split; [done|]. apply collect_item_spec. by eexists _, _.
Qed.

Lemma collect_items_NoDup mk items :
  Inj (=) (=) mk → NoDup (entry_location <$> collect_items mk items).
Proof.
  intros Hinj. apply NoDup_key_concat_imap.
  - intros i item _. unfold collect_item.
    destruct item as [s|src [[|c name]|]]; simpl; try constructor.
    + by intros ?%elem_of_nil.
    + constructor.
  - intros i j x y a b _ _ (? & ? & _ & _ & ->)%collect_item_spec
      (? & ? & _ & _ & ->)%collect_item_spec Hk.
    simpl in Hk. by apply Hinj in Hk.
Qed.

Lemma collectAllEntries_spec jsonData entries :
  collectAllEntries jsonData = Some entries →
  NoDup (entry_location <$> entries)
  ∧ ∀ e, e ∈ entries ↔ sits_in jsonData e.
Proof.
  unfold collectAllEntries. destruct (wd_rows jsonData) as [rows|] eqn:Hrows;
    [|done]. intros [= <-]. split.
  - rewrite fmap_app. apply NoDup_app. split; [|split].
    + apply NoDup_key_concat_imap.
      * intros r row _. unfold collect_row. destruct (re_imgs row); [|constructor].
        apply collect_items_NoDup. by intros i j [= ->].
      * intros r r' row row' a b _ _ Ha Hb Hk. unfold collect_row in *.
        destruct (re_imgs row); [|by apply elem_of_nil in Ha].
        destruct (re_imgs row'); [|by apply elem_of_nil in Hb].
        apply collect_items_spec in Ha as (? & ? & ? & _ & _ & ->).
        apply collect_items_spec in Hb as (? & ? & ? & _ & _ & ->).
        by injection Hk.
    + intros l (a & -> & Ha)%list_elem_of_fmap (b & Hl & Hb)%list_elem_of_fmap.
      apply elem_of_concat_imap in Ha as (r & row & _ & Ha).
      unfold collect_row in Ha.
      destruct (re_imgs row); [|by apply elem_of_nil in Ha].
      apply collect_items_spec in Ha as (? & ? & ? & _ & _ & ->).
      destruct (wd_untiered jsonData); [|by apply elem_of_nil in Hb].
      by apply collect_items_spec in Hb as (? & ? & ? & _ & _ & ->).
    + destruct (wd_untiered jsonData); [|constructor].
      apply collect_items_NoDup. by intros i j [= ->].
  - intros e. unfold sits_in, item_at. rewrite Hrows. cbn [default from_option id].
    rewrite elem_of_app, elem_of_concat_imap. split.
    + intros [(r & row & Hr & He)|He].
      * unfold collect_row in He.
        destruct (re_imgs row) as [imgs|] eqn:Himgs; [|by apply elem_of_nil in He].
        apply collect_items_spec in He as (i & src & name & Hi & Hname & ->).
        simpl. rewrite Hr. simpl. by rewrite Himgs.
      * destruct (wd_untiered jsonData) as [untiered|];
          [|by apply elem_of_nil in He].
        apply collect_items_spec in He as (i & src & name & Hi & Hname & ->).
        done.
    + destruct e as [src name [tierName r i|i]]; simpl.
      * intros (Hitem & Hname & Htier). left.
        destruct (rows !! r) as [row|] eqn:Hr; [|done]. simpl in *.
        injection Htier as <-. exists r, row. split; [done|].
        unfold collect_row.
        destruct (re_imgs row) as [imgs|]; [|by (discriminate Hitem || rewrite lookup_nil in Hitem)].
        apply collect_items_spec. by eexists _, _, _.
      * intros (Hitem & Hname & _). right.
        destruct (wd_untiered jsonData) as [untiered|];
          [|by (discriminate Hitem || rewrite lookup_nil in Hitem)].
        apply collect_items_spec. by eexists _, _, _.
Qed.

Lemma collected_NoDup jsonData entries :
  collectAllEntries jsonData = Some entries → NoDup entries.
Proof.
  intros [Hloc _]%collectAllEntries_spec. by apply NoDup_fmap_1 in Hloc.
Qed.

(** X3. The entries collected from a file are exactly the objects with a
    name that is not empty, each once and with the location it has in the
    file: bare strings and objects without a name are never collected, and
    no two collected entries have the same location. *)
Theorem collected_entries_sit jsonData entries :
  collectAllEntries jsonData = Some entries →
  NoDup (entry_location <$> entries)
  ∧ (∀ e, e ∈ entries ↔ sits_in jsonData e)
  ∧ (∀ e s, e ∈ entries → item_at jsonData (entry_location e) ≠ Some (EString s))
  ∧ (∀ e, e ∈ entries → entry_name e ≠ "").
Proof.
  intros Hc. destruct (collectAllEntries_spec _ _ Hc) as [Hloc Hsit].
  split; [done|]. split; [done|]. split.
  - intros e s [Hitem _]%Hsit. by rewrite Hitem.
  - by intros e (_ & Hname & _)%Hsit.
Qed.

Lemma collected_entries_sit_witness :
  let entries := [hut (Some "a"); branch (Some "b"); kfc (Some "c")] in
  let jsonData := pizza_document "t" (Some "a") (Some "b") (Some "c") in
  NoDup (entry_location <$> entries)
  ∧ (∀ e, e ∈ entries ↔ sits_in jsonData e)
  ∧ (∀ e s, e ∈ entries → item_at jsonData (entry_location e) ≠ Some (EString s))
  ∧ (∀ e, e ∈ entries → entry_name e ≠ "").
Proof.
  exact (collected_entries_sit
           (pizza_document "t" (Some "a") (Some "b") (Some "c")) _ eq_refl).
Defined.

End KeptAndCollected.

Module DuplicateGroups.
Import JsString Wire RemoveDuplicates Report Samples DuplicateNames.

(** *** One group *)

Section Components.
Variable entries : list entry.
Hypothesis entries_NoDup : NoDup entries.

Lemma scan_step_making before group processed foundNew j :
  making entries before group processed →
  let st' := scan_step entries (group, processed, foundNew) j in
  making entries before st'.1.1 st'.1.2 ∧ processed ⊆ st'.1.2.
Proof.
  intros (Hsub & Hgroup & Hnodup & Hlinked). simpl.
  case_bool_decide as Hj; [done|].
  destruct (entries !! j) as [e|] eqn:He; [|done].
  destruct (duplicate_in_group group (entry_name e)) eqn:Hdup; [|done].
  simpl. split; [|set_solver]. split; [set_solver|]. split; [|split].
  - intros e'. rewrite elem_of_app, list_elem_of_singleton, Hgroup. split.
    + intros [(j' & ? & ? & ?)| ->].
      * exists j'. set_solver.
      * exists j. set_solver.
    + intros (j' & Hj' & ? & ?). apply elem_of_union in Hj' as [Hj'|?].
      * apply elem_of_singleton in Hj' as ->. right. congruence.
      * left. by exists j'.
  - apply NoDup_app. split; [done|]. split; [|apply NoDup_singleton].
    intros e' (j' & Hj' & _ & He')%Hgroup ->%list_elem_of_singleton.
    by rewrite (NoDup_lookup _ _ _ _ entries_NoDup He He') in Hj.
  - intros k e' Hk. destruct (decide (k < length group)) as [Hlt|Hge].
    + rewrite lookup_app_l in Hk by done.
      destruct (Hlinked k e' Hk) as [->|(k' & e'' & ? & Hk' & ?)]; [by left|].
      right. exists k', e''. split; [done|]. split; [|done].
      rewrite lookup_app_l; [done|lia].
    + rewrite lookup_app_r in Hk by lia.
      destruct (k - length group) as [|?] eqn:Hd; [|done]. injection Hk as <-.
      unfold duplicate_in_group in Hdup.
      apply existsb_exists in Hdup as (e'' & Hin & Hd').
      apply list_elem_of_In, list_elem_of_lookup in Hin as (k' & Hk').
      right. exists k', e''. split; [apply lookup_lt_Some in Hk'; lia|].
      split; [|done]. by rewrite lookup_app_l by (by eapply lookup_lt_Some).
Qed.

Lemma scan_loop_making before js st :
  making entries before st.1.1 st.1.2 →
  let st' := foldl (scan_step entries) st js in
  making entries before st'.1.1 st'.1.2 ∧ st.1.2 ⊆ st'.1.2.
Proof.
  revert st. induction js as [|j js IH]; intros [[group processed] foundNew] Hm;
    [done|].
  cbn [foldl].
  destruct (scan_step_making before group processed foundNew j Hm) as [Hm' Hsub].
  destruct (scan_step entries (group, processed, foundNew) j)
    as [[group' processed'] foundNew'].
  destruct (IH _ Hm') as [Hm'' Hsub']. split; [done|]. simpl in *. set_solver.
Qed.

(** Once something new was found the pass says so to its end. *)
Lemma scan_loop_found js group processed :
  (foldl (scan_step entries) (group, processed, true) js).2 = true.
Proof.
  revert group processed. induction js as [|j js IH]; intros group processed;
    [done|].
  cbn [foldl]. unfold scan_step at 2. case_bool_decide; [apply IH|].
  destruct (entries !! j); [|apply IH].
  destruct (duplicate_in_group _ _); apply IH.
Qed.

(** A pass that finds nothing new changes nothing, and has met no entry
    left that is a duplicate of one of the group. *)
Lemma scan_loop_quiet js group processed group' processed' :
  foldl (scan_step entries) (group, processed, false) js
  = (group', processed', false) →
  group' = group ∧ processed' = processed
  ∧ ∀ j e, j ∈ js → j ∉ processed → entries !! j = Some e →
      duplicate_in_group group (entry_name e) = false.
Proof.
  induction js as [|j js IH]; cbn [foldl].
  - intros [= <- <-]. split; [done|]. split; [done|].
    by intros j e ?%elem_of_nil.
  - unfold scan_step at 2. case_bool_decide as Hj.
    { intros (-> & -> & Hq)%IH. split; [done|]. split; [done|].
      intros j' e [->|?]%elem_of_cons; [done|by apply Hq]. }
    destruct (entries !! j) as [e|] eqn:He.
    2: { intros (-> & -> & Hq)%IH. split; [done|]. split; [done|].
         intros j' e [->|?]%elem_of_cons; [congruence|by apply Hq]. }
    destruct (duplicate_in_group group (entry_name e)) eqn:Hdup.
    { intros Heq. pose proof (scan_loop_found js (group ++ [e]) ({[j]} ∪ processed))
        as Hfound. by rewrite Heq in Hfound. }
    intros (-> & -> & Hq)%IH. split; [done|]. split; [done|].
    intros j' e' [->|?]%elem_of_cons; [congruence|by apply Hq].
Qed.

(** The group when the [while] loop has ended. *)
Lemma grow_making fuel before group processed group' processed' :
  making entries before group processed →
  grow fuel entries group processed = Some (group', processed') →
  making entries before group' processed'
  ∧ processed ⊆ processed'
  ∧ ∀ j e, j ∉ processed' → entries !! j = Some e →
      duplicate_in_group group' (entry_name e) = false.
Proof.
  revert group processed. induction fuel as [|fuel IH]; intros group processed Hm;
    [done|].
  cbn [grow]. unfold scan.
  pose proof (scan_loop_making before (seq 0 (length entries))
                (group, processed, false) Hm) as [Hm' Hsub].
  destruct (foldl _ _ _) as [[group1 processed1] foundNew] eqn:Hscan.
  simpl in Hm', Hsub. destruct foundNew.
  - intros Hgrow. destruct (IH _ _ Hm' Hgrow) as (Hm'' & Hsub' & Hq).
    split; [done|]. split; [set_solver|done].
  - intros [= <- <-].
    apply scan_loop_quiet in Hscan as (-> & -> & Hq).
    split; [done|]. split; [done|]. intros j e Hj He. apply (Hq j); [|done..].
    apply elem_of_seq. apply lookup_lt_Some in He. lia.
Qed.

Lemma duplicate_in_group_false group name e :
  duplicate_in_group group name = false → e ∈ group →
  isDuplicate (entry_name e) name = false.
Proof.
  intros Hd He. destruct (isDuplicate _ _) eqn:Hdup; [|done].
  assert (duplicate_in_group group name = true) as Ht; [|congruence].
  apply existsb_exists. exists e. split; [by apply list_elem_of_In|done].
Qed.

Lemma entries_index j j' e :
  entries !! j = Some e → entries !! j' = Some e → j = j'.
Proof. intros. by eapply NoDup_lookup. Qed.

Lemma two_in_group (group : list entry) e e' :
  e ∈ group → e' ∈ group → e' ≠ e → 2 ≤ length group.
Proof.
  destruct group as [|a [|b group]]; simpl; [by intros ?%elem_of_nil| |lia].
  intros ->%list_elem_of_singleton ->%list_elem_of_singleton. done.
Qed.

(** One run of the outer loop keeps what holds of the groups, and is
    done with its index. *)
Lemma group_step_grouped groups processed i groups' processed' :
  grouped entries groups processed →
  group_step entries (Some (groups, processed)) i = Some (groups', processed') →
  grouped entries groups' processed' ∧ processed ⊆ processed'
  ∧ (i < length entries → i ∈ processed').
Proof.
  intros (Hclosed & Hgroups & Hnodup & Hcover). cbn [group_step].
  case_bool_decide as Hi.
  { intros [= <- <-]. done. }
  destruct (entries !! i) as [e|] eqn:He.
  2: { intros [= <- <-]. split; [done|]. split; [done|].
       intros [? Hsome]%lookup_lt_is_Some_2. congruence. }
  destruct (grow _ _ _ _) as [[group processed1]|] eqn:Hgrow; [|done].
  assert (making entries processed [e] ({[i]} ∪ processed)) as Hm0.
  { split; [set_solver|]. split; [|split].
    - intros e'. rewrite list_elem_of_singleton. split.
      + intros ->. exists i. split; [set_solver|done].
      + intros (j & Hj & Hnj & Hej).
        assert (j = i) as -> by set_solver. congruence.
    - apply NoDup_singleton.
    - intros [|k] e'; [by left|]. simpl. by rewrite lookup_nil. }
  destruct (grow_making _ _ _ _ _ _ Hm0 Hgrow)
    as ((_ & Hin & Hnd & Hlinked) & Hsub & Hquiet).
  assert (closed_set entries processed1) as Hclosed'.
  { intros j j' e1 e2 Hj Hj' He1 He2.
    destruct (decide (j ∈ processed)) as [Hjp|Hjp].
    - apply (Hclosed j j'); [done|set_solver|done..].
    - eapply duplicate_in_group_false; [by eapply Hquiet|].
      apply Hin. by exists j. }
  assert (closed_group entries group) as Hcg.
  { intros e1 e2 (j & Hj & Hjp & He1)%Hin [j' He2]%list_elem_of_lookup Hdup.
    destruct (decide (j' ∈ processed1)) as [Hj1|Hj1].
    - destruct (decide (j' ∈ processed)) as [Hj'p|Hj'p].
      + pose proof (Hclosed j' j e2 e1 Hj'p Hjp He2 He1) as Hno.
        rewrite DuplicateNames.isDuplicate_sym in Hno. congruence.
      + apply Hin. by exists j'.
    - pose proof (Hclosed' j j' e1 e2 Hj Hj1 He1 He2). congruence. }
  assert (∀ g, g ∈ groups → ∀ e1, e1 ∈ g → e1 ∉ group) as Hdisj.
  { intros g Hg e1 He1 (j & Hj & Hjp & Hej)%Hin.
    rewrite Forall_forall in Hgroups.
    destruct (Hgroups g Hg) as (_ & _ & _ & Hidx).
    destruct (Hidx e1 He1) as (j' & Hj' & Hej').
    assert (j = j') as -> by by eapply entries_index. done. }
  assert (Forall (fun g =>
              2 ≤ length g ∧ linked g ∧ closed_group entries g
              ∧ ∀ e, e ∈ g → ∃ j, j ∈ processed1 ∧ entries !! j = Some e)
            groups) as Hgroups'.
  { eapply Forall_impl; [exact Hgroups|]. intros g (? & ? & ? & Hidx).
    split; [done|]. split; [done|]. split; [done|].
    intros e1 (j & ? & ?)%Hidx. exists j. split; [set_solver|done]. }
  assert (i ∈ processed1) as Hi1 by set_solver.
  assert (processed ⊆ processed1) as Hsub1 by set_solver.
  assert (∀ j e1 e2, j ∈ processed1 → j ∉ processed →
            entries !! j = Some e1 → e2 ∈ entries → e2 ≠ e1 →
            isDuplicate (entry_name e1) (entry_name e2) = true →
            e1 ∈ group ∧ 2 ≤ length group) as Hnew.
  { intros j e1 e2 Hj Hjp He1 He2 Hne Hdup.
    assert (e1 ∈ group) as Hg1 by (apply Hin; by exists j).
    split; [done|]. eapply (two_in_group group e1 e2); [done| |done].
    by eapply Hcg. }
  destruct (1 <? length group) eqn:Hlen; intros [= <- <-].
  - apply Nat.ltb_lt in Hlen. split; [|done].
    split; [done|]. split; [|split].
    + apply Forall_app. split; [done|]. apply Forall_singleton.
      split; [lia|]. split; [done|]. split; [done|].
      intros e1 (j & ? & ? & ?)%Hin. by exists j.
    + rewrite concat_app. apply NoDup_app. split; [done|]. split.
      * intros e1 Hin1%list_elem_of_In%in_concat. simpl. rewrite app_nil_r.
        destruct Hin1 as (g & Hg%list_elem_of_In & He1%list_elem_of_In).
        by eapply Hdisj.
      * simpl. by rewrite app_nil_r.
    + intros j e1 e2 Hj He1 He2 Hne Hdup.
      destruct (decide (j ∈ processed)) as [Hjp|Hjp].
      * destruct (Hcover j e1 e2 Hjp He1 He2 Hne Hdup) as (g & Hg & Hge).
        exists g. split; [|done]. apply elem_of_app. by left.
      * exists group. split; [apply elem_of_app; right; by apply list_elem_of_singleton|].
        by eapply Hnew.
  - apply Nat.ltb_ge in Hlen. split; [|done].
    split; [done|]. split; [done|]. split; [done|].
    intros j e1 e2 Hj He1 He2 Hne Hdup.
    destruct (decide (j ∈ processed)) as [Hjp|Hjp].
    + by eapply Hcover.
    + destruct (Hnew j e1 e2 Hj Hjp He1 He2 Hne Hdup). lia.
Qed.

Lemma group_loop_grouped js groups processed groups' processed' :
  grouped entries groups processed →
  foldl (group_step entries) (Some (groups, processed)) js
  = Some (groups', processed') →
  grouped entries groups' processed' ∧ processed ⊆ processed'
  ∧ ∀ j, j ∈ js → j < length entries → j ∈ processed'.
Proof.
  revert groups processed. induction js as [|j js IH]; intros groups processed Hg.
  - intros [= <- <-]. split; [done|]. split; [done|]. by intros j ?%elem_of_nil.
  - cbn [foldl].
    destruct (group_step entries (Some (groups, processed)) j)
      as [[groups1 processed1]|] eqn:Hstep.
    2: { intros Hnone. exfalso. clear -Hnone.
         induction js as [|? js IH]; [done|]. apply IH. exact Hnone. }
    destruct (group_step_grouped _ _ _ _ _ Hg Hstep) as (Hg1 & Hsub1 & Hj1).
    intros Hfold. destruct (IH _ _ Hg1 Hfold) as (Hg' & Hsub' & Hall).
    split; [done|]. split; [set_solver|].
    intros j' [->|?]%elem_of_cons ?; [set_solver|by apply Hall].
Qed.

(** What the groups returned are like. *)
Lemma findDuplicateGroups_grouped groups :
  findDuplicateGroups entries = Some groups →
  Forall (fun g => 2 ≤ length g ∧ linked g ∧ closed_group entries g
                   ∧ g ⊆ entries) groups
  ∧ NoDup (concat groups)
  ∧ ∀ e e', e ∈ entries → e' ∈ entries → e' ≠ e →
      isDuplicate (entry_name e) (entry_name e') = true →
      ∃ g, g ∈ groups ∧ e ∈ g.
Proof.
  unfold findDuplicateGroups.
  destruct (foldl _ _ _) as [[groups' processed']|] eqn:Hfold; [|done].
  intros [= ->].
  assert (grouped entries [] ∅) as H0.
  { split; [by intros ? ? ? ? ?%elem_of_empty|]. split; [by constructor|].
    split; [constructor|]. by intros ? ? ? ?%elem_of_empty. }
  destruct (group_loop_grouped _ _ _ _ _ H0 Hfold)
    as ((_ & Hgroups & Hnd & Hcover) & _ & Hall).
  split; [|split; [done|]].
  - eapply Forall_impl; [exact Hgroups|]. intros g (? & ? & ? & Hidx).
    split; [done|]. split; [done|]. split; [done|].
    intros e (j & _ & He)%Hidx. by eapply list_elem_of_lookup_2.
  - intros e e' [j He]%list_elem_of_lookup He' Hne Hdup.
    eapply (Hcover j); [|done..]. apply Hall; [|by eapply lookup_lt_Some].
    apply elem_of_seq. apply lookup_lt_Some in He. lia.
Qed.

End Components.

Lemma NoDup_concat_elem {A} (ls : list (list A)) (l : list A) :
  NoDup (concat ls) → l ∈ ls → NoDup l.
Proof.
  induction ls as [|l' ls IH]; [by intros _ ?%elem_of_nil|].
  simpl. intros (? & _ & ?)%NoDup_app [->|?]%elem_of_cons; [done|by apply IH].
Qed.

Lemma sample_entries_NoDup :
  NoDup [hut None; branch None; kfc None].
Proof.
  repeat (apply NoDup_cons; split;
          [rewrite ?elem_of_cons, elem_of_nil; intros H; decompose [or] H;
           done || discriminate|]).
  apply NoDup_nil_2.
Qed.

(** X5. The groups found are made of entries of the list, each group
    of two entries or more, and no entry is in two groups or twice in
    one. *)
Theorem duplicate_groups_disjoint entries groups :
  NoDup entries →
  findDuplicateGroups entries = Some groups →
  Forall (fun g => 2 ≤ length g ∧ g ⊆ entries) groups
  ∧ NoDup (concat groups).
Proof.
  intros Hnd Hfind.
  destruct (findDuplicateGroups_grouped entries Hnd groups Hfind)
    as (Hgroups & Hconcat & _).
  split; [|done]. eapply Forall_impl; [exact Hgroups|].
  by intros g (? & _ & _ & ?).
Qed.

Lemma duplicate_groups_disjoint_witness :
  NoDup [hut None; branch None; kfc None]
  ∧ findDuplicateGroups [hut None; branch None; kfc None]
    = Some [[hut None; branch None]]
  ∧ Forall (fun g => 2 ≤ length g ∧ g ⊆ [hut None; branch None; kfc None])
           [[hut None; branch None]]
  ∧ NoDup (concat [[hut None; branch None]]).
Proof.
  split; [exact sample_entries_NoDup|]. split; [reflexivity|].
  apply (duplicate_groups_disjoint [hut None; branch None; kfc None]);
    [exact sample_entries_NoDup|reflexivity].
Defined.

(** X6. Two entries of the list of which one's name is a duplicate of the
    other's are in one group together; and a group holds every entry
    that is a duplicate of one of its own. *)
Theorem duplicates_share_a_group entries groups :
  NoDup entries →
  findDuplicateGroups entries = Some groups →
  (∀ e e', e ∈ entries → e' ∈ entries → e' ≠ e →
     isDuplicate (entry_name e) (entry_name e') = true →
     ∃ g, g ∈ groups ∧ e ∈ g ∧ e' ∈ g)
  ∧ Forall (closed_group entries) groups.
Proof.
  intros Hnd Hfind.
  destruct (findDuplicateGroups_grouped entries Hnd groups Hfind)
    as (Hgroups & _ & Hcover).
  split.
  - intros e e' He He' Hne Hdup.
    destruct (Hcover e e' He He' Hne Hdup) as (g & Hg & Heg).
    exists g. split; [done|]. split; [done|].
    rewrite Forall_forall in Hgroups.
    destruct (Hgroups g Hg) as (_ & _ & Hcg & _). by eapply Hcg.
  - eapply Forall_impl; [exact Hgroups|]. by intros g (_ & _ & ? & _).
Qed.

Lemma duplicates_share_a_group_witness :
  NoDup [hut None; branch None; kfc None]
  ∧ findDuplicateGroups [hut None; branch None; kfc None]
    = Some [[hut None; branch None]]
  ∧ (∀ e e', e ∈ [hut None; branch None; kfc None] →
       e' ∈ [hut None; branch None; kfc None] → e' ≠ e →
       isDuplicate (entry_name e) (entry_name e') = true →
       ∃ g, g ∈ [[hut None; branch None]] ∧ e ∈ g ∧ e' ∈ g)
  ∧ Forall (closed_group [hut None; branch None; kfc None])
           [[hut None; branch None]].
Proof.
  split; [exact sample_entries_NoDup|]. split; [reflexivity|].
  apply (duplicates_share_a_group [hut None; branch None; kfc None]);
    [exact sample_entries_NoDup|reflexivity].
Defined.

(** X7. No entry is in a group for nothing: every entry of a group is a
    duplicate of another entry of that group, and every entry of a
    group but its first is a duplicate of one that comes before it in
    the group. *)
Theorem grouped_entries_have_a_duplicate entries groups :
  NoDup entries →
  findDuplicateGroups entries = Some groups →
  ∀ g, g ∈ groups →
    linked g
    ∧ ∀ e, e ∈ g →
        ∃ e', e' ∈ g ∧ e' ≠ e
              ∧ isDuplicate (entry_name e) (entry_name e') = true.
Proof.
  intros Hnd Hfind g Hg.
  destruct (findDuplicateGroups_grouped entries Hnd groups Hfind)
    as (Hgroups & Hconcat & _).
  rewrite Forall_forall in Hgroups.
  destruct (Hgroups g Hg) as (Hlen & Hlinked & _ & _).
  pose proof (NoDup_concat_elem groups g Hconcat Hg) as Hndg.
  split; [done|]. intros e [k Hk]%list_elem_of_lookup.
  destruct k as [|k].
  - destruct (lookup_lt_is_Some_2 g 1) as [e1 He1]; [lia|].
    destruct (Hlinked 1 e1 He1) as [?|(k' & e' & Hlt & Hk' & Hdup)]; [lia|].
    assert (k' = 0) as -> by lia. assert (e' = e) as -> by congruence.
    exists e1. split; [by eapply list_elem_of_lookup_2|]. split; [|done].
    intros ->. by pose proof (NoDup_lookup g 0 1 e Hndg Hk He1).
  - destruct (Hlinked (S k) e Hk) as [?|(k' & e' & Hlt & Hk' & Hdup)]; [lia|].
    exists e'. split; [by eapply list_elem_of_lookup_2|]. split.
    + intros ->. pose proof (NoDup_lookup g k' (S k) e Hndg Hk' Hk). lia.
    + by rewrite isDuplicate_sym.
Qed.

Lemma grouped_entries_have_a_duplicate_witness :
  NoDup [hut None; branch None; kfc None]
  ∧ findDuplicateGroups [hut None; branch None; kfc None]
    = Some [[hut None; branch None]]
  ∧ ∀ g, g ∈ [[hut None; branch None]] →
      linked g
      ∧ ∀ e, e ∈ g →
          ∃ e', e' ∈ g ∧ e' ≠ e
                ∧ isDuplicate (entry_name e) (entry_name e') = true.
Proof.
  split; [exact sample_entries_NoDup|]. split; [reflexivity|].
  apply (grouped_entries_have_a_duplicate [hut None; branch None; kfc None]);
    [exact sample_entries_NoDup|reflexivity].
Defined.

End DuplicateGroups.


(* ================================================================== *)
(** ** Facts about the removal *)
(* ================================================================== *)

Module Removal.
Import JsString Wire RemoveDuplicates Report Samples.
Import RemoveDuplicatesFacts DuplicateNames KeptAndCollected DuplicateGroups.

Lemma unmarked_from_snoc {A} has i (l : list A) x :
  unmarked_from has i (l ++ [x])
  = unmarked_from has i l ++ (if has (i + length l) then [] else [x]).
Proof.
  revert i. induction l as [|y l IH]; intros i; simpl.
  - by rewrite Nat.add_0_r, app_nil_r.
  - rewrite IH, Nat.add_succ_r. simpl. by rewrite app_assoc.
Qed.

(** The loop that walks the indices downwards and splices. *)
Lemma splice_marked_spec {A} has i (l : list A) :
  i ≤ length l →
  splice_marked has i l = unmarked has (take i l) ++ drop i l.
Proof.
  revert l. induction i as [|i IH]; intros l Hi; [done|].
  destruct (lookup_lt_is_Some_2 l i) as [x Hx]; [lia|].
  cbn [splice_marked]. unfold unmarked in *.
  rewrite (take_S_r l i x Hx), unmarked_from_snoc, length_take_le by lia.
  simpl. destruct (has i).
  - rewrite IH by (rewrite length_delete by (by exists x); lia).
    rewrite delete_take_drop, app_nil_r.
    rewrite take_app_length' by (rewrite length_take_le; lia).
    by rewrite drop_app_length' by (rewrite length_take_le; lia).
  - rewrite IH by lia. rewrite <- app_assoc. simpl.
    by rewrite (drop_S l x i Hx).
Qed.

Lemma clean_items_unmarked mk ids items :
  clean_items mk ids items
  = unmarked (fun i => bool_decide (mk i ∈ ids)) items.
Proof.
  unfold clean_items. rewrite splice_marked_spec by done.
  by rewrite firstn_all, drop_all, app_nil_r.
Qed.

Lemma ids_of_group_spec group ids :
  ids_of_group group = Some ids →
  ∃ kept, keepShortestEntry group = Some kept
    ∧ ids = id_of_location ∘ entry_location
              <$> filter (fun e => same_entry e kept = false) group.
Proof.
  unfold ids_of_group. destruct (keepShortestEntry group) as [kept|]; [|done].
  intros [= <-]. by exists kept.
Qed.

(** The identifiers in the set: those of the entries of the groups
    that are not the one kept of their group. *)
Lemma entriesToRemove_spec duplicateGroups ids :
  entriesToRemove duplicateGroups = Some ids →
  ∀ id, id ∈ ids
    ↔ ∃ group kept e,
        group ∈ duplicateGroups ∧ keepShortestEntry group = Some kept
        ∧ e ∈ group ∧ entry_location e ≠ entry_location kept
        ∧ id = id_of_location (entry_location e).
Proof.
  unfold entriesToRemove.
  destruct (mapM ids_of_group duplicateGroups) as [idss|] eqn:Hm; [|done].
  intros [= <-]. apply mapM_Some in Hm. intros id.
  rewrite list_elem_of_In, in_concat. split.
  - intros (l & Hl%list_elem_of_In & Hid%list_elem_of_In).
    apply list_elem_of_lookup in Hl as [k Hk].
    destruct (Forall2_lookup_r _ _ _ _ _ Hm Hk) as (group & Hg & Hids).
    apply ids_of_group_spec in Hids as (kept & Hkept & ->).
    apply list_elem_of_fmap in Hid as (e & -> & He).
    apply list_elem_of_filter in He as [Hne He].
    exists group, kept, e. split; [by eapply list_elem_of_lookup_2|].
    split; [done|]. split; [done|]. split; [|done].
    unfold same_entry in Hne. by apply bool_decide_eq_false in Hne.
  - intros (group & kept & e & Hg & Hkept & He & Hne & ->).
    apply list_elem_of_lookup in Hg as [k Hk].
    destruct (Forall2_lookup_l _ _ _ _ _ Hm Hk) as (l & Hl & Hids).
    apply ids_of_group_spec in Hids as (kept' & Hkept' & ->).
    assert (kept' = kept) as -> by congruence.
    eexists. split; [apply list_elem_of_In; by eapply list_elem_of_lookup_2|].
    apply list_elem_of_In, list_elem_of_fmap. exists e. split; [done|].
    apply list_elem_of_filter. split; [|done].
    unfold same_entry. by apply bool_decide_eq_false.
Qed.

(** X8. Removing the duplicates leaves the title, the rows, their
    names and colours as they are, and of every list of items exactly
    those whose position is not in the set of positions to remove, in
    their order: walking a list downwards and splicing does not shift
    the positions still to visit. The positions to remove are those of
    the entries of the groups other than the entry kept of each group. *)
Theorem removal_keeps_the_rest jsonData duplicateGroups cleaned :
  removeDuplicatesFromTierlist jsonData duplicateGroups = Some cleaned →
  ∃ (ids : list entry_id) rows,
    wd_rows jsonData = Some rows
    ∧ (∀ id, id ∈ ids
         ↔ ∃ group kept e,
             group ∈ duplicateGroups ∧ keepShortestEntry group = Some kept
             ∧ e ∈ group ∧ entry_location e ≠ entry_location kept
             ∧ id = id_of_location (entry_location e))
    ∧ wd_title cleaned = wd_title jsonData
    ∧ wd_rows cleaned
      = Some (imap (fun rowIndex row =>
                      RowEntry (re_name row) (re_color row)
                        (unmarked (fun i => bool_decide (IdTier rowIndex i ∈ ids))
                           <$> re_imgs row)) rows)
    ∧ wd_untiered cleaned
      = unmarked (fun i => bool_decide (IdUntiered i ∈ ids))
          <$> wd_untiered jsonData.
Proof.
  unfold removeDuplicatesFromTierlist.
  destruct (entriesToRemove duplicateGroups) as [ids|] eqn:Hids; [|done].
  destruct (wd_rows jsonData) as [rows|] eqn:Hrows; [|done].
  intros [= <-]. exists ids, rows. split; [done|].
  split; [by apply entriesToRemove_spec|]. split; [done|]. simpl. split.
  - f_equal. apply imap_ext. intros r row _. unfold clean_row. f_equal.
    destruct (re_imgs row); [|done]. simpl. by rewrite clean_items_unmarked.
  - destruct (wd_untiered jsonData); [|done]. simpl.
    by rewrite clean_items_unmarked.
Qed.

Lemma removal_keeps_the_rest_witness :
  removeDuplicatesFromTierlist (pizza_document "t" None None None)
    [[hut None; branch None]]
  = Some (Document "t" (Some [])
            (Some [EObject None (Some "Pizza Hut"); EObject None (Some "KFC")]))
  ∧ ∃ (ids : list entry_id) rows,
      wd_rows (pizza_document "t" None None None) = Some rows
      ∧ (∀ id, id ∈ ids
           ↔ ∃ group kept e,
               group ∈ [[hut None; branch None]]
               ∧ keepShortestEntry group = Some kept
               ∧ e ∈ group ∧ entry_location e ≠ entry_location kept
               ∧ id = id_of_location (entry_location e))
      ∧ "t" = wd_title (pizza_document "t" None None None)
      ∧ Some []
        = Some (imap (fun rowIndex row =>
                        RowEntry (re_name row) (re_color row)
                          (unmarked (fun i => bool_decide (IdTier rowIndex i ∈ ids))
                             <$> re_imgs row)) rows)
      ∧ Some [EObject None (Some "Pizza Hut"); EObject None (Some "KFC")]
        = unmarked (fun i => bool_decide (IdUntiered i ∈ ids))
            <$> wd_untiered (pizza_document "t" None None None).
Proof.
  split; [reflexivity|].
  apply (removal_keeps_the_rest (pizza_document "t" None None None)
           [[hut None; branch None]]
           (Document "t" (Some [])
              (Some [EObject None (Some "Pizza Hut");
                     EObject None (Some "KFC")]))).
  reflexivity.
Defined.


(** *** A second pass *)

Lemma unmarked_from_shift {A} has i (l : list A) :
  unmarked_from has (S i) l = unmarked_from (has ∘ S) i l.
Proof. revert i. induction l as [|x l IH]; intros i; simpl; [done|]. by rewrite IH. Qed.

Lemma collect_items_cons mk item items :
  collect_items mk (item :: items)
  = collect_item mk 0 item ++ collect_items (mk ∘ S) items.
Proof.
  unfold collect_items. rewrite imap_cons. simpl. f_equal.
Qed.

Lemma collect_item_names mk mk' i i' item :
  entry_name <$> collect_item mk i item = entry_name <$> collect_item mk' i' item.
Proof. destruct item as [|? [name|]]; simpl; try done. by destruct (truthy name). Qed.

Section SecondPass.
Variable ids : list entry_id.

Lemma collect_items_unmarked items :
  ∀ mk mk' has,
    (∀ i, has i = bool_decide (id_of_location (mk i) ∈ ids)) →
    entry_name <$> collect_items mk' (unmarked has items)
    = entry_name <$> filter (stays ids) (collect_items mk items).
Proof.
  unfold unmarked. induction items as [|item items IH]; intros mk mk' has Hhas;
    [done|].
  cbn [unmarked_from]. rewrite unmarked_from_shift, collect_items_cons.
  rewrite filter_app, fmap_app.
  assert (∀ i, (has ∘ S) i = bool_decide (id_of_location ((mk ∘ S) i) ∈ ids))
    as Hhas' by (intros i; apply Hhas).
  destruct (has 0) eqn:H0; rewrite Hhas in H0.
  - apply bool_decide_eq_true in H0. simpl. rewrite (IH (mk ∘ S) mk' _ Hhas').
    assert (filter (stays ids) (collect_item mk 0 item) = []) as ->; [|done].
    destruct item as [|? [name|]]; simpl; try done.
    destruct (truthy name); [|done]. rewrite filter_cons_False; [done|].
    unfold stays. simpl. tauto.
  - apply bool_decide_eq_false in H0. simpl.
    rewrite collect_items_cons, fmap_app, (IH (mk ∘ S) (mk' ∘ S) _ Hhas').
    f_equal. rewrite (collect_item_names mk' mk 0 0).
    assert (filter (stays ids) (collect_item mk 0 item) = collect_item mk 0 item)
      as ->; [|done].
    destruct item as [|? [name|]]; simpl; try done.
    destruct (truthy name); [|done]. by rewrite filter_cons_True.
Qed.

Lemma collect_rows_cleaned rows :
  ∀ k,
    entry_name <$> concat (imap (fun r => collect_row (k + r))
                             (imap (fun r => clean_row ids (k + r)) rows))
    = entry_name <$> filter (stays ids)
                       (concat (imap (fun r => collect_row (k + r)) rows)).
Proof.
  induction rows as [|row rows IH]; intros k; [done|].
  rewrite !imap_cons. simpl. rewrite filter_app, !fmap_app.
  rewrite (imap_ext _ (fun r => clean_row ids (S k + r)) rows)
    by (intros; simpl; f_equal; lia).
  rewrite (imap_ext ((fun r => collect_row (k + r)) ∘ S)
             (fun r => collect_row (S k + r)))
    by (intros; simpl; f_equal; lia).
  rewrite (imap_ext ((fun r => collect_row (k + r)) ∘ S)
             (fun r => collect_row (S k + r)) rows)
    by (intros; simpl; f_equal; lia).
  rewrite (IH (S k)). f_equal.
  unfold collect_row, clean_row. simpl. destruct (re_imgs row) as [imgs|]; [|done].
  simpl. rewrite clean_items_unmarked. by apply collect_items_unmarked.
Qed.

End SecondPass.


Lemma collected_names_cleaned jsonData duplicateGroups ids entries cleaned :
  entriesToRemove duplicateGroups = Some ids →
  collectAllEntries jsonData = Some entries →
  removeDuplicatesFromTierlist jsonData duplicateGroups = Some cleaned →
  ∃ entries', collectAllEntries cleaned = Some entries'
    ∧ entry_name <$> entries' = entry_name <$> filter (stays ids) entries.
Proof.
  unfold removeDuplicatesFromTierlist, collectAllEntries. intros ->.
  destruct (wd_rows jsonData) as [rows|]; [|done]. simpl.
  intros [= <-] [= <-]. simpl. eexists. split; [done|].
  rewrite filter_app, !fmap_app. f_equal.
  - apply (collect_rows_cleaned ids rows 0).
  - destruct (wd_untiered jsonData) as [untiered|]; [|done]. simpl.
    rewrite clean_items_unmarked. by apply collect_items_unmarked.
Qed.

Lemma findDuplicateGroups_nonempty entries groups :
  NoDup entries → findDuplicateGroups entries = Some groups →
  ∃ ids, entriesToRemove groups = Some ids.
Proof.
  intros Hnd Hfind.
  destruct (findDuplicateGroups_grouped entries Hnd groups Hfind) as (Hg & _).
  unfold entriesToRemove.
  destruct (mapM ids_of_group groups) as [idss|] eqn:Hm; [by eexists|].
  exfalso. assert (is_Some (mapM ids_of_group groups)) as [? Hs]; [|congruence].
  apply mapM_is_Some. eapply Forall_impl; [exact Hg|].
  intros [|e g] (Hlen & _); [simpl in Hlen; lia|]. by eexists.
Qed.

Lemma NoDup_fmap_elem {A B} (f : A → B) (l : list A) x y :
  NoDup (f <$> l) → x ∈ l → y ∈ l → f x = f y → x = y.
Proof.
  intros Hnd [i Hi]%list_elem_of_lookup [j Hj]%list_elem_of_lookup Hf.
  assert (i = j) as ->; [|congruence].
  eapply (NoDup_lookup _ _ _ (f x) Hnd); rewrite list_lookup_fmap.
  - by rewrite Hi.
  - rewrite Hj. simpl. by rewrite Hf.
Qed.

(** A list in which no two entries are duplicates gives no group. *)
Lemma no_duplicates_no_groups entries :
  NoDup entries →
  (∀ e e', e ∈ entries → e' ∈ entries → e' ≠ e →
     isDuplicate (entry_name e) (entry_name e') = false) →
  findDuplicateGroups entries = Some [].
Proof.
  intros Hnd Hno. destruct (findDuplicateGroups_returns entries) as [groups Hfind].
  rewrite Hfind. f_equal.
  destruct (findDuplicateGroups_grouped entries Hnd groups Hfind)
    as (Hgroups & Hconcat & _).
  destruct groups as [|g groups]; [done|]. exfalso.
  apply Forall_cons in Hgroups as [(Hlen & Hlinked & _ & Hsub) _].
  simpl in Hconcat. apply NoDup_app in Hconcat as (Hndg & _).
  destruct (lookup_lt_is_Some_2 g 1) as [e1 He1]; [lia|].
  destruct (Hlinked 1 e1 He1) as [?|(k' & e0 & Hlt & He0 & Hdup)]; [lia|].
  assert (k' = 0) as -> by lia.
  rewrite Hno in Hdup; [done|..].
  - apply Hsub. by eapply list_elem_of_lookup_2.
  - apply Hsub. by eapply list_elem_of_lookup_2.
  - intros ->. by pose proof (NoDup_lookup g 0 1 e0 Hndg He0 He1).
Qed.

(** Of the entries of a file that stay when all groups are processed, no
    two are duplicates. *)
Lemma stays_no_duplicates jsonData entries groups ids :
  collectAllEntries jsonData = Some entries →
  findDuplicateGroups entries = Some groups →
  entriesToRemove groups = Some ids →
  ∀ e e', e ∈ entries → e' ∈ entries → stays ids e → stays ids e' → e' ≠ e →
    isDuplicate (entry_name e) (entry_name e') = false.
Proof.
  intros Hcollect Hfind Hids e e' He He' Hs Hs' Hne.
  destruct (isDuplicate _ _) eqn:Hdup; [exfalso|done].
  pose proof (collected_NoDup _ _ Hcollect) as Hnd.
  destruct (collectAllEntries_spec _ _ Hcollect) as [Hloc _].
  destruct (findDuplicateGroups_grouped entries Hnd groups Hfind)
    as (Hgroups & _ & Hcover).
  destruct (Hcover e e' He He' Hne Hdup) as (g & Hg & Heg).
  rewrite Forall_forall in Hgroups.
  destruct (Hgroups g Hg) as (Hlen & _ & Hcg & Hsub).
  assert (e' ∈ g) as He'g by by eapply Hcg.
  destruct (keepShortestEntry g) as [kept|] eqn:Hkept.
  2: { destruct g; [simpl in Hlen; lia|done]. }
  assert (∀ e1, e1 ∈ g → stays ids e1 →
            entry_location e1 = entry_location kept) as Hkeptloc.
  { intros e1 He1 Hs1.
    destruct (decide (entry_location e1 = entry_location kept)) as [|Hn]; [done|].
    exfalso. apply Hs1. apply (entriesToRemove_spec _ _ Hids).
    by exists g, kept, e1. }
  apply Hne. apply (NoDup_fmap_elem entry_location entries); [done..|].
  rewrite (Hkeptloc e), (Hkeptloc e'); done.
Qed.

Lemma cleaned_has_no_groups jsonData entries groups cleaned :
  collectAllEntries jsonData = Some entries →
  findDuplicateGroups entries = Some groups →
  removeDuplicatesFromTierlist jsonData groups = Some cleaned →
  ∃ entries', collectAllEntries cleaned = Some entries'
    ∧ findDuplicateGroups entries' = Some [].
Proof.
  intros Hcollect Hfind Hrm.
  pose proof (collected_NoDup _ _ Hcollect) as Hnd.
  destruct (findDuplicateGroups_nonempty _ _ Hnd Hfind) as [ids Hids].
  destruct (collected_names_cleaned _ _ _ _ _ Hids Hcollect Hrm)
    as (entries' & Hcollect' & Hnames).
  exists entries'. split; [done|].
  pose proof (collected_NoDup _ _ Hcollect') as Hnd'.
  apply no_duplicates_no_groups; [done|].
  intros e1' e2' [k1 Hk1]%list_elem_of_lookup [k2 Hk2]%list_elem_of_lookup Hne.
  assert (k1 ≠ k2) as Hk by (intros ->; congruence).
  assert (∀ k e', entries' !! k = Some e' →
            ∃ e, filter (stays ids) entries !! k = Some e
                 ∧ entry_name e = entry_name e') as Hback.
  { intros k e' Hk'.
    assert ((entry_name <$> entries') !! k = Some (entry_name e')) as Hn
      by by rewrite list_lookup_fmap, Hk'.
    rewrite Hnames, list_lookup_fmap in Hn.
    destruct (filter (stays ids) entries !! k) as [e|]; [|done].
    exists e. split; [done|]. by injection Hn. }
  destruct (Hback _ _ Hk1) as (e1 & He1 & <-).
  destruct (Hback _ _ Hk2) as (e2 & He2 & <-).
  pose proof (list_elem_of_lookup_2 _ _ _ He1) as [Hs1 Hin1]%list_elem_of_filter.
  pose proof (list_elem_of_lookup_2 _ _ _ He2) as [Hs2 Hin2]%list_elem_of_filter.
  apply (stays_no_duplicates jsonData entries groups ids Hcollect Hfind Hids
           e1 e2 Hin1 Hin2 Hs1 Hs2).
  intros ->. apply Hk. eapply NoDup_lookup; [|done..].
  by apply NoDup_filter.
Qed.




(** *** The count of what is removed *)

Lemma length_filter_split {A} (P : A → Prop) `{!∀ x, Decision (P x)} (l : list A) :
  length (filter P l) + length (filter (fun x => ¬ P x) l) = length l.
Proof.
  induction l as [|x l IH]; [done|]. rewrite !filter_cons.
  destruct (decide (P x)); destruct (decide (¬ P x)); simpl; try tauto; lia.
Qed.

Lemma length_unmarked_from (mk : nat → entry_id) (ids : list entry_id)
    (l : list item_entry) i :
  length (unmarked_from (fun j => bool_decide (mk j ∈ ids)) i l)
  = length (filter (fun id => id ∉ ids) (mk <$> seq i (length l))).
Proof.
  revert i. induction l as [|x l IH]; intros i; [done|].
  cbn [unmarked_from length seq fmap list_fmap]. rewrite length_app, IH, filter_cons.
  case_bool_decide; destruct (decide (mk i ∉ ids)); simpl; try tauto; lia.
Qed.

Lemma length_clean_rows (ids : list entry_id) rows k :
  sum_list ((fun row => length (default [] (re_imgs row)))
              <$> imap (fun r => clean_row ids (k + r)) rows)
  = length (filter (fun id => id ∉ ids)
              (concat (imap (fun r row =>
                               IdTier (k + r)
                                 <$> seq 0 (length (default [] (re_imgs row))))
                            rows))).
Proof.
  revert k. induction rows as [|row rows IH]; intros k; [done|].
  rewrite !imap_cons. cbn [fmap list_fmap sum_list sum_list_with concat].
  rewrite filter_app, length_app.
  rewrite (imap_ext _ (fun r => clean_row ids (S k + r)) rows)
    by (intros; simpl; f_equal; lia).
  rewrite (imap_ext
             ((fun r row => IdTier (k + r)
                              <$> seq 0 (length (default [] (re_imgs row)))) ∘ S)
             (fun r row => IdTier (S k + r)
                             <$> seq 0 (length (default [] (re_imgs row)))) rows)
    by (intros; simpl; do 2 f_equal; lia).
  rewrite <- (IH (S k)). f_equal.
  rewrite Nat.add_0_r. unfold clean_row. simpl.
  destruct (re_imgs row) as [imgs|]; [|done]. simpl.
  rewrite clean_items_unmarked. apply length_unmarked_from.
Qed.

Lemma countEntries_positions jsonData :
  countEntries jsonData = length (positions jsonData).
Proof.
  unfold countEntries, positions. rewrite length_app, length_fmap, length_seq.
  f_equal. generalize (default [] (wd_rows jsonData)). intros rows.
  assert (∀ k, sum_list ((fun row => length (default [] (re_imgs row))) <$> rows)
               = length (concat (imap (fun r row =>
                                  IdTier (k + r)
                                    <$> seq 0 (length (default [] (re_imgs row))))
                                  rows))) as Hk; [|apply (Hk 0)].
  induction rows as [|row rows IH]; intros k; [done|].
  rewrite imap_cons. cbn [fmap list_fmap sum_list sum_list_with concat].
  rewrite length_app, length_fmap, length_seq. f_equal.
  rewrite (IH (S k)). f_equal. f_equal. apply imap_ext. intros; simpl.
  do 2 f_equal; lia.
Qed.

Lemma countEntries_cleaned jsonData duplicateGroups ids cleaned :
  entriesToRemove duplicateGroups = Some ids →
  removeDuplicatesFromTierlist jsonData duplicateGroups = Some cleaned →
  countEntries cleaned
  = length (filter (fun id => id ∉ ids) (positions jsonData)).
Proof.
  unfold removeDuplicatesFromTierlist. intros ->. simpl.
  destruct (wd_rows jsonData) as [rows|] eqn:Hrows; [|done]. intros [= <-].
  unfold countEntries, positions. rewrite Hrows. simpl.
  rewrite filter_app, length_app. f_equal.
  - apply (length_clean_rows ids rows 0).
  - destruct (wd_untiered jsonData) as [untiered|]; [|done]. simpl.
    rewrite clean_items_unmarked. apply length_unmarked_from.
Qed.

Lemma positions_NoDup jsonData : NoDup (positions jsonData).
Proof.
  unfold positions. apply NoDup_app. split; [|split].
  - rewrite <- (list_fmap_id (concat _)). apply NoDup_key_concat_imap.
    + intros r row _. rewrite list_fmap_id. apply NoDup_fmap_2; [|apply NoDup_seq].
      by intros ? ? [= ->].
    + intros r r' row row' a b _ _ (? & -> & _)%list_elem_of_fmap
        (? & -> & _)%list_elem_of_fmap [= -> _]. done.
  - intros id (r & row & _ & (? & -> & _)%list_elem_of_fmap)%elem_of_concat_imap
      (? & [=] & _)%list_elem_of_fmap.
  - apply NoDup_fmap_2; [|apply NoDup_seq]. by intros ? ? [= ->].
Qed.

Lemma sits_in_position jsonData e :
  sits_in jsonData e → id_of_location (entry_location e) ∈ positions jsonData.
Proof.
  intros (Hat & _). unfold positions, item_at in *.
  destruct (entry_location e) as [tierName r i|i]; simpl in *.
  - apply elem_of_app. left. apply elem_of_concat_imap.
    destruct (default [] (wd_rows jsonData) !! r) as [row|] eqn:Hrow; [|done].
    exists r, row. split; [done|]. apply list_elem_of_fmap. exists i.
    split; [done|]. apply elem_of_seq. simpl in Hat.
    apply lookup_lt_Some in Hat. lia.
  - apply elem_of_app. right. apply list_elem_of_fmap. exists i.
    split; [done|]. apply elem_of_seq. apply lookup_lt_Some in Hat. lia.
Qed.


Lemma sublist_concat {A} (l1 l2 : list (list A)) :
  l1 `sublist_of` l2 → concat l1 `sublist_of` concat l2.
Proof.
  induction 1 as [|x l1 l2 _ IH|x l1 l2 _ IH]; simpl.
  - constructor.
  - by apply sublist_app.
  - by apply sublist_inserts_l.
Qed.

(** The entries to remove of the groups, one list per group. *)
Lemma mapM_removal selected idss :
  mapM ids_of_group selected = Some idss →
  ∃ rs, mapM toRemove selected = Some rs
    ∧ concat idss = id_of_location ∘ entry_location <$> concat rs
    ∧ sum_list (length <$> rs) = length (concat rs)
    ∧ concat rs `sublist_of` concat selected.
Proof.
  intros Hm%mapM_Some.
  induction Hm as [|g ids selected idss Hg _ (rs & Hrs & Hids & Hlen & Hsub)].
  - exists []. by repeat split.
  - unfold ids_of_group in Hg.
    destruct (keepShortestEntry g) as [kept|] eqn:Hkept; [|done].
    injection Hg as <-.
    exists (filter (fun e => same_entry e kept = false) g :: rs).
    split; [|split; [|split]].
    + assert (toRemove g = Some (filter (fun e => same_entry e kept = false) g))
        as Hr by (unfold toRemove; by rewrite Hkept).
      cbn [mapM]. rewrite Hr. simpl. by rewrite Hrs.
    + simpl. by rewrite fmap_app, Hids.
    + rewrite fmap_cons. cbn [sum_list sum_list_with].
      rewrite concat_cons, length_app. f_equal. exact Hlen.
    + simpl. apply sublist_app; [apply sublist_filter|done].
Qed.

Lemma removal_lists selected ids :
  entriesToRemove selected = Some ids →
  ∃ rs, mapM toRemove selected = Some rs
    ∧ ids = id_of_location ∘ entry_location <$> concat rs
    ∧ totalToRemove selected = Some (length (concat rs))
    ∧ concat rs `sublist_of` concat selected.
Proof.
  unfold entriesToRemove, totalToRemove.
  destruct (mapM ids_of_group selected) as [idss|] eqn:Hm; [|done].
  intros [= <-]. destruct (mapM_removal _ _ Hm) as (rs & Hrs & Hids & Hlen & Hsub).
  exists rs. rewrite Hrs. simpl. by rewrite Hlen.
Qed.

Lemma id_of_location_collected jsonData entries e e' :
  collectAllEntries jsonData = Some entries →
  e ∈ entries → e' ∈ entries →
  id_of_location (entry_location e) = id_of_location (entry_location e') →
  e = e'.
Proof.
  intros [Hloc Hsits]%collectAllEntries_spec He He' Hid.
  apply (NoDup_fmap_elem entry_location entries); [done..|].
  apply Hsits in He as (_ & _ & Hn). apply Hsits in He' as (_ & _ & Hn').
  destruct (entry_location e) as [n r i|i], (entry_location e') as [n' r' i'|i'];
    try done; simplify_eq/=; done.
Qed.

Lemma count_after_removal jsonData entries groups selected cleaned :
  collectAllEntries jsonData = Some entries →
  findDuplicateGroups entries = Some groups →
  selected `sublist_of` groups →
  removeDuplicatesFromTierlist jsonData selected = Some cleaned →
  ∃ n, totalToRemove selected = Some n
       ∧ countEntries cleaned + n = countEntries jsonData.
Proof.
  intros Hcollect Hfind Hsel Hrm.
  destruct (entriesToRemove selected) as [ids|] eqn:Hids.
  2: { unfold removeDuplicatesFromTierlist in Hrm. by rewrite Hids in Hrm. }
  destruct (removal_lists _ _ Hids) as (rs & _ & -> & Hn & Hsub).
  exists (length (concat rs)). split; [done|].
  pose proof (collected_NoDup _ _ Hcollect) as Hnd.
  destruct (findDuplicateGroups_grouped entries Hnd groups Hfind)
    as (Hgroups & Hconcat & _).
  assert (∀ e, e ∈ concat rs → e ∈ entries) as Hin.
  { intros e He%(sublist_subseteq _ _ Hsub).
    apply (sublist_subseteq _ _ (sublist_concat _ _ Hsel)) in He.
    apply list_elem_of_In, in_concat in He
      as (g & Hg%list_elem_of_In & He%list_elem_of_In).
    rewrite Forall_forall in Hgroups.
    destruct (Hgroups g Hg) as (_ & _ & _ & Hge). by apply Hge. }
  set (ids := id_of_location ∘ entry_location <$> concat rs) in *.
  assert (NoDup ids) as Hndids.
  { apply NoDup_fmap_2_strong.
    - intros e e' He He' Hid. eapply id_of_location_collected; eauto.
    - eapply sublist_NoDup; [|exact Hsub].
      eapply sublist_NoDup; [exact Hconcat|by apply sublist_concat]. }
  assert (filter (fun id => id ∈ ids) (positions jsonData) ≡ₚ ids) as Hperm.
  { apply NoDup_Permutation; [apply NoDup_filter, positions_NoDup|done|].
    intros id. rewrite list_elem_of_filter. split; [tauto|].
    intros Hid. split; [done|].
    apply list_elem_of_fmap in Hid as (e & -> & He).
    apply sits_in_position. apply (collectAllEntries_spec _ _ Hcollect).
    by apply Hin. }
  rewrite (countEntries_cleaned _ _ _ _ Hids Hrm), countEntries_positions.
  rewrite <- (length_filter_split (fun id => id ∈ ids) (positions jsonData)).
  rewrite (Permutation_length Hperm). unfold ids. rewrite length_fmap. lia.
Qed.

(** X10. When groups among those found in a file are processed, the
    file loses exactly as many items as the run announces: the number of
    entries after the removal and the number of entries to remove add up
    to the number of entries before. *)
Theorem removal_count jsonData entries groups selected cleaned :
  collectAllEntries jsonData = Some entries →
  findDuplicateGroups entries = Some groups →
  selected `sublist_of` groups →
  removeDuplicatesFromTierlist jsonData selected = Some cleaned →
  ∃ n, totalToRemove selected = Some n
       ∧ countEntries cleaned + n = countEntries jsonData.
Proof. apply count_after_removal. Qed.

Lemma removal_count_witness :
  collectAllEntries (pizza_document "t" None None None)
  = Some [hut None; branch None; kfc None]
  ∧ findDuplicateGroups [hut None; branch None; kfc None]
    = Some [[hut None; branch None]]
  ∧ [[hut None; branch None]] `sublist_of` [[hut None; branch None]]
  ∧ removeDuplicatesFromTierlist (pizza_document "t" None None None)
      [[hut None; branch None]]
    = Some (Document "t" (Some [])
              (Some [EObject None (Some "Pizza Hut"); EObject None (Some "KFC")]))
  ∧ ∃ n, totalToRemove [[hut None; branch None]] = Some n
         ∧ countEntries
             (Document "t" (Some [])
                (Some [EObject None (Some "Pizza Hut");
                       EObject None (Some "KFC")])) + n
           = countEntries (pizza_document "t" None None None).
Proof.
  split; [reflexivity|]. split; [reflexivity|].
  split; [repeat constructor|]. split; [reflexivity|].
  apply (removal_count (pizza_document "t" None None None)
           [hut None; branch None; kfc None] [[hut None; branch None]]
           [[hut None; branch None]]); [reflexivity|reflexivity| |reflexivity].
  repeat constructor.
Defined.

(** X11. The utility finds no group exactly when no two entries of
    the list are duplicates of each other: "No duplicates found" is said
    of such files only, and of all of them. *)
Theorem no_groups_iff_no_duplicates entries :
  NoDup entries →
  findDuplicateGroups entries = Some []
  ↔ ∀ e e', e ∈ entries → e' ∈ entries → e' ≠ e →
      isDuplicate (entry_name e) (entry_name e') = false.
Proof.
  intros Hnd. split; [|by apply no_duplicates_no_groups].
  intros Hfind e e' He He' Hne.
  destruct (isDuplicate _ _) eqn:Hdup; [exfalso|done].
  destruct (findDuplicateGroups_grouped entries Hnd [] Hfind) as (_ & _ & Hcover).
  destruct (Hcover e e' He He' Hne Hdup) as (g & Hg%elem_of_nil & _). done.
Qed.

Lemma no_groups_iff_no_duplicates_witness :
  NoDup [hut None; kfc None]
  ∧ (findDuplicateGroups [hut None; kfc None] = Some []
     ↔ ∀ e e', e ∈ [hut None; kfc None] → e' ∈ [hut None; kfc None] → e' ≠ e →
         isDuplicate (entry_name e) (entry_name e') = false).
Proof.
  assert (NoDup [hut None; kfc None]) as Hnd.
  { apply (sublist_NoDup _ [hut None; branch None; kfc None]);
      [exact sample_entries_NoDup|].
    apply sublist_skip, sublist_cons, sublist_skip, sublist_nil. }
  split; [exact Hnd|]. apply (no_groups_iff_no_duplicates [hut None; kfc None] Hnd).
Defined.


(** *** What is never removed *)

Lemma unmarked_from_keeps {A} (P : A → Prop) `{!∀ x, Decision (P x)} has
    (items : list A) i0 :
  (∀ i x, items !! i = Some x → P x → has (i0 + i) = false) →
  filter P (unmarked_from has i0 items) = filter P items.
Proof.
  revert i0. induction items as [|x items IH]; intros i0 Hhas; [done|].
  cbn [unmarked_from]. rewrite filter_app, filter_cons.
  rewrite (IH (S i0)).
  2: { intros i y Hy HP. replace (S i0 + i) with (i0 + S i) by lia.
       by apply (Hhas (S i) y). }
  destruct (decide (P x)) as [HP|HP].
  - rewrite <- (Nat.add_0_r i0), (Hhas 0 x eq_refl HP).
    by rewrite filter_cons_True.
  - destruct (has i0); [done|]. by rewrite filter_cons_False.
Qed.

Lemma Forall2_imap_lookup {A B} (R : B → A → Prop) (f : nat → A → B) (l : list A) :
  (∀ i x, l !! i = Some x → R (f i x) x) → Forall2 R (imap f l) l.
Proof.
  revert f. induction l as [|x l IH]; intros f Hf; [constructor|].
  rewrite imap_cons. constructor; [by apply Hf|]. apply IH.
  intros i y Hy. by apply (Hf (S i)).
Qed.

(** X29. The removal takes away named objects only: the bare strings
    of the old format and the objects without a name, which are never
    collected, all stay where they are, in every row and in [untiered],
    whatever groups among those found are processed. *)
Theorem unnamed_entries_are_kept jsonData entries groups selected cleaned :
  collectAllEntries jsonData = Some entries →
  findDuplicateGroups entries = Some groups →
  selected ⊆ groups →
  removeDuplicatesFromTierlist jsonData selected = Some cleaned →
  Forall2 (fun row' row =>
             filter (fun item => is_named item = false) (default [] (re_imgs row'))
             = filter (fun item => is_named item = false) (default [] (re_imgs row)))
          (default [] (wd_rows cleaned)) (default [] (wd_rows jsonData))
  ∧ filter (fun item => is_named item = false) (default [] (wd_untiered cleaned))
    = filter (fun item => is_named item = false) (default [] (wd_untiered jsonData)).
Proof.
  intros Hcollect Hfind Hsel Hrm.
  pose proof (collected_NoDup _ _ Hcollect) as Hnd.
  destruct (findDuplicateGroups_grouped entries Hnd groups Hfind) as (Hgroups & _).
  rewrite Forall_forall in Hgroups.
  destruct (collectAllEntries_spec _ _ Hcollect) as [_ Hsits].
  unfold removeDuplicatesFromTierlist in Hrm.
  destruct (entriesToRemove selected) as [ids|] eqn:Hids; [|done]. simpl in Hrm.
  destruct (wd_rows jsonData) as [rows|] eqn:Hrows; [|done].
  injection Hrm as <-.
  assert (∀ id, id ∈ ids →
            ∃ e, sits_in jsonData e ∧ id = id_of_location (entry_location e))
    as Hid.
  { intros id (g & kept & e & Hg & _ & He & _ & ->)%(entriesToRemove_spec _ _ Hids).
    exists e. split; [|done]. apply Hsits.
    destruct (Hgroups g (Hsel g Hg)) as (_ & _ & _ & Hsub). by apply Hsub. }
  cbn [wd_rows wd_untiered default]. unfold id. split.
  - apply Forall2_imap_lookup. intros r row Hr. unfold clean_row. simpl.
    destruct (re_imgs row) as [imgs|] eqn:Himgs; [|done]. simpl. unfold id.
    rewrite clean_items_unmarked. apply unmarked_from_keeps.
    intros i item Hi Hunnamed. simpl. apply bool_decide_eq_false.
    intros (e & (Hat & Hname & _) & Heq)%Hid.
    destruct (entry_location e) as [tn r' i'|]; [|done]. injection Heq as <- <-.
    unfold item_at in Hat. rewrite Hrows in Hat. simpl in Hat. unfold id in Hat.
    rewrite Hr in Hat. simpl in Hat. rewrite Himgs in Hat. simpl in Hat.
    unfold id in Hat. rewrite Hi in Hat. injection Hat as ->.
    simpl in Hunnamed. by destruct (entry_name e).
  - destruct (wd_untiered jsonData) as [untiered|] eqn:Hun; [|done]. simpl.
    unfold id. rewrite clean_items_unmarked. apply unmarked_from_keeps.
    intros i item Hi Hunnamed. simpl. apply bool_decide_eq_false.
    intros (e & (Hat & Hname & _) & Heq)%Hid.
    destruct (entry_location e) as [|i']; [done|]. injection Heq as <-.
    unfold item_at in Hat. rewrite Hun in Hat. simpl in Hat. unfold id in Hat.
    rewrite Hi in Hat. injection Hat as ->.
    simpl in Hunnamed. by destruct (entry_name e).
Qed.

Lemma unnamed_entries_are_kept_witness :
  collectAllEntries (pizza_document "t" None None None)
  = Some [hut None; branch None; kfc None]
  ∧ findDuplicateGroups [hut None; branch None; kfc None]
    = Some [[hut None; branch None]]
  ∧ [[hut None; branch None]] ⊆ [[hut None; branch None]]
  ∧ removeDuplicatesFromTierlist (pizza_document "t" None None None)
      [[hut None; branch None]]
    = Some (Document "t" (Some [])
              (Some [EObject None (Some "Pizza Hut"); EObject None (Some "KFC")]))
  ∧ Forall2 (fun row' row =>
               filter (fun item => is_named item = false) (default [] (re_imgs row'))
               = filter (fun item => is_named item = false)
                        (default [] (re_imgs row)))
            [] (default [] (wd_rows (pizza_document "t" None None None)))
  ∧ filter (fun item => is_named item = false)
           [EObject None (Some "Pizza Hut"); EObject None (Some "KFC")]
    = filter (fun item => is_named item = false)
             (default [] (wd_untiered (pizza_document "t" None None None))).
Proof.
  split; [reflexivity|]. split; [reflexivity|]. split; [done|].
  split; [reflexivity|].
  apply (unnamed_entries_are_kept (pizza_document "t" None None None)
           [hut None; branch None; kfc None] [[hut None; branch None]]
           [[hut None; branch None]]
           (Document "t" (Some [])
              (Some [EObject None (Some "Pizza Hut"); EObject None (Some "KFC")])));
    [reflexivity|reflexivity|done|reflexivity].
Defined.


(** *** One entry of every group stays *)

Lemma filter_ext_elem {A} (P1 P2 : A → Prop)
    `{!∀ x, Decision (P1 x), !∀ x, Decision (P2 x)} (l : list A) :
  (∀ x, x ∈ l → P1 x ↔ P2 x) → filter P1 l = filter P2 l.
Proof.
  induction l as [|x l IH]; intros Hiff; [done|].
  rewrite !filter_cons, IH by (intros y ?; apply Hiff; by right).
  destruct (decide (P1 x)) as [H1|H1], (decide (P2 x)) as [H2|H2]; try done;
    exfalso; apply (Hiff x ltac:(by left)) in H1 || apply (Hiff x ltac:(by left)) in H2;
    done.
Qed.

Lemma filter_other_notin {A} `{EqDecision A} (l : list A) (x : A) :
  x ∉ l → filter (fun y => y ≠ x) l = l.
Proof.
  induction l as [|z l IH]; intros Hnotin; [done|].
  rewrite filter_cons_True by (intros ->; apply Hnotin; by left).
  f_equal. apply IH. intros ?. apply Hnotin. by right.
Qed.

Lemma length_filter_other {A} `{EqDecision A} (l : list A) (x : A) :
  NoDup l → x ∈ l → length (filter (fun y => y ≠ x) l) + 1 = length l.
Proof.
  induction l as [|y l IH]; intros Hnd Hin; [by apply elem_of_nil in Hin|].
  apply NoDup_cons in Hnd as [Hnotin Hnd].
  apply elem_of_cons in Hin as [->|Hin].
  - rewrite filter_cons_False by (by intros ?).
    rewrite filter_other_notin by done. simpl. lia.
  - rewrite filter_cons_True by (by intros ->). simpl. rewrite <- IH by done. lia.
Qed.

(** X30. Of every group found exactly one entry is kept: the entries
    to remove of a group are all its entries but the kept one, each
    once, so that a group of [n] entries announces [n - 1] removals. *)
Theorem one_entry_kept_per_group jsonData entries groups g :
  collectAllEntries jsonData = Some entries →
  findDuplicateGroups entries = Some groups →
  g ∈ groups →
  ∃ kept r,
    keepShortestEntry g = Some kept ∧ toRemove g = Some r
    ∧ kept ∈ g ∧ (kept ∉ r)
    ∧ (∀ e, e ∈ r ↔ e ∈ g ∧ e ≠ kept)
    ∧ NoDup r
    ∧ length r + 1 = length g.
Proof.
  intros Hcollect Hfind Hg.
  pose proof (collected_NoDup _ _ Hcollect) as Hnd.
  destruct (collectAllEntries_spec _ _ Hcollect) as [Hloc _].
  destruct (findDuplicateGroups_grouped entries Hnd groups Hfind)
    as (Hgroups & Hconcat & _).
  rewrite Forall_forall in Hgroups. destruct (Hgroups g Hg) as (Hlen & _ & _ & Hsub).
  pose proof (NoDup_concat_elem groups g Hconcat Hg) as Hndg.
  unfold toRemove. destruct (keepShortestEntry g) as [kept|] eqn:Hkept.
  2: { destruct g; [simpl in Hlen; lia|done]. }
  pose proof (keepShortestEntry_elem _ _ Hkept) as Hin.
  assert (filter (fun e => same_entry e kept = false) g
          = filter (fun e => e ≠ kept) g) as Hfilter.
  { apply filter_ext_elem. intros e He. unfold same_entry.
    rewrite bool_decide_eq_false. split; [by intros Hne ->|].
    intros Hne Heq. apply Hne.
    apply (NoDup_fmap_elem entry_location entries); auto. }
  exists kept, (filter (fun e => same_entry e kept = false) g).
  split; [done|]. split; [done|]. split; [done|]. rewrite Hfilter.
  split; [|split; [|split]].
  - intros [Hne _]%list_elem_of_filter. done.
  - intros e. rewrite list_elem_of_filter. tauto.
  - by apply NoDup_filter.
  - by apply length_filter_other.
Qed.

Lemma one_entry_kept_per_group_witness :
  collectAllEntries (pizza_document "t" None None None)
  = Some [hut None; branch None; kfc None]
  ∧ findDuplicateGroups [hut None; branch None; kfc None]
    = Some [[hut None; branch None]]
  ∧ [hut None; branch None] ∈ [[hut None; branch None]]
  ∧ ∃ kept r,
      keepShortestEntry [hut None; branch None] = Some kept
      ∧ toRemove [hut None; branch None] = Some r
      ∧ kept ∈ [hut None; branch None] ∧ (kept ∉ r)
      ∧ (∀ e, e ∈ r ↔ e ∈ [hut None; branch None] ∧ e ≠ kept)
      ∧ NoDup r
      ∧ length r + 1 = length [hut None; branch None].
Proof.
  split; [reflexivity|]. split; [reflexivity|]. split; [by left|].
  apply (one_entry_kept_per_group (pizza_document "t" None None None)
           [hut None; branch None; kfc None] [[hut None; branch None]]);
    [reflexivity|reflexivity|by left].
Defined.

End Removal.


(* ================================================================== *)
(** ** Facts about the runs of the utility *)
(* ================================================================== *)

Module Runs.
Import JsString Wire RemoveDuplicates Report Samples.
Import RemoveDuplicatesFacts DuplicateNames KeptAndCollected DuplicateGroups.
Import Removal.

(** *** The groups that are not skipped *)

Lemma omap_lookup_snoc {A} (l : list A) x (js : list nat) :
  (∀ j, j ∈ js → j < length l) →
  omap (fun idx => (l ++ [x]) !! idx) js = omap (fun idx => l !! idx) js.
Proof.
  induction js as [|j js IH]; intros Hjs; [done|]. csimpl.
  rewrite lookup_app_l by (apply Hjs; by left).
  rewrite IH; [done|]. intros j' ?. apply Hjs. by right.
Qed.

Lemma selected_snoc {A} (P : nat → Prop) `{!∀ i, Decision (P i)} (l : list A) x :
  omap (fun idx => (l ++ [x]) !! idx) (filter P (seq 0 (length (l ++ [x]))))
  = omap (fun idx => l !! idx) (filter P (seq 0 (length l)))
    ++ (if decide (P (length l)) then [x] else []).
Proof.
  rewrite length_app. simpl. rewrite Nat.add_1_r, seq_S, filter_app, omap_app.
  f_equal.
  - apply omap_lookup_snoc. intros j [_ Hj%elem_of_seq]%list_elem_of_filter. lia.
  - simpl. rewrite filter_cons, filter_nil.
    destruct (decide (P (length l))); simpl; [|done].
    by rewrite lookup_app_r, Nat.sub_diag by lia.
Qed.

Lemma selected_sublist {A} (P : nat → Prop) `{!∀ i, Decision (P i)} (l : list A) :
  omap (fun idx => l !! idx) (filter P (seq 0 (length l))) `sublist_of` l.
Proof.
  induction l as [|x l IH] using rev_ind; [constructor|].
  rewrite selected_snoc. apply sublist_app; [done|].
  destruct (decide _); [done|apply sublist_nil_l].
Qed.

Lemma selected_all {A} (P : nat → Prop) `{!∀ i, Decision (P i)} (l : list A) :
  (∀ i, P i) →
  omap (fun idx => l !! idx) (filter P (seq 0 (length l))) = l.
Proof.
  intros HP. induction l as [|x l IH] using rev_ind; [done|].
  rewrite selected_snoc, IH. destruct (decide _) as [|Hn]; [done|].
  by destruct (Hn (HP _)).
Qed.

Lemma selected_length {A} (P : nat → Prop) `{!∀ i, Decision (P i)} (l : list A) :
  length (omap (fun idx => l !! idx) (filter P (seq 0 (length l))))
  = length (filter P (seq 0 (length l))).
Proof.
  induction l as [|x l IH] using rev_ind; [done|].
  rewrite selected_snoc, length_app, IH, length_app. simpl.
  rewrite Nat.add_1_r, seq_S, filter_app, length_app. simpl.
  rewrite filter_cons, filter_nil. by destruct (decide _).
Qed.

(** *** What a run does *)



(** *** The run that writes *)

Lemma backup_step_no_write env d : WriteFile d ∉ (backup_step env).1.
Proof.
  unfold backup_step. destruct (env_backup_ok env); [set_solver|].
  destruct (is_yes (env_continue env)); set_solver.
Qed.

(** What a run that writes has gone through. *)
Lemma main_written env data :
  WriteFile data ∈ main env →
  ∃ jsonData entries groups,
    env_exists env = true
    ∧ loadJsonFile (env_content env) = inr jsonData
    ∧ collectAllEntries jsonData = Some entries
    ∧ findDuplicateGroups entries = Some groups
    ∧ is_yes (env_approval env) = true
    ∧ omap (fun idx => groups !! idx)
        (filter (fun idx => idx ∉ env_skipped env) (seq 0 (length groups))) ≠ []
    ∧ removeDuplicatesFromTierlist jsonData
        (omap (fun idx => groups !! idx)
           (filter (fun idx => idx ∉ env_skipped env) (seq 0 (length groups))))
      = Some data.
Proof.
  unfold main. destruct (env_exists env); simpl; [|set_solver].
  destruct (loadJsonFile (env_content env)) as [?|jsonData]; [set_solver|].
  destruct (collectAllEntries jsonData) as [entries|] eqn:Hcollect; simpl;
    [|set_solver].
  destruct (findDuplicateGroups entries) as [groups|] eqn:Hfind; [|set_solver].
  case_bool_decide; [set_solver|]. case_bool_decide as Hsel; [set_solver|].
  destruct (is_yes (env_approval env)); simpl; [|set_solver].
  pose proof (backup_step_no_write env data) as Hno.
  destruct (backup_step env) as [events go_on]. simpl in Hno.
  destruct go_on; simpl; [|done].
  destruct (removeDuplicatesFromTierlist _ _) as [cleaned|] eqn:Hrm;
    [|set_solver].
  intros Hin. assert (cleaned = data) as ->.
  { destruct (env_write_ok env); set_solver. }
  exists jsonData, entries, groups. repeat (split; [done|]). split; [|done].
  intros Hnil. apply Hsel. rewrite <- selected_length. by rewrite Hnil.
Qed.


Lemma unmarked_from_sublist {A} has i (l : list A) :
  unmarked_from has i l `sublist_of` l.
Proof.
  revert i. induction l as [|x l IH]; intros i; simpl; [constructor|].
  destruct (has i); simpl; [by apply sublist_cons|by apply sublist_skip].
Qed.

Lemma Forall2_imap_l {A B} (R : B → A → Prop) (f : nat → A → B) (l : list A) :
  (∀ i x, R (f i x) x) → Forall2 R (imap f l) l.
Proof.
  revert f. induction l as [|x l IH]; intros f Hf; [constructor|].
  rewrite imap_cons. constructor; [apply Hf|]. apply IH. intros i y. apply Hf.
Qed.

(** Of a group found, something is to remove. *)
Lemma toRemove_nonempty entries groups g :
  NoDup (entry_location <$> entries) →
  findDuplicateGroups entries = Some groups → g ∈ groups →
  ∃ r, toRemove g = Some r ∧ 1 ≤ length r.
Proof.
  intros Hloc Hfind Hg. pose proof (NoDup_fmap_1 _ _ Hloc) as Hnd.
  destruct (findDuplicateGroups_grouped entries Hnd groups Hfind)
    as (Hgroups & Hconcat & _).
  rewrite Forall_forall in Hgroups. destruct (Hgroups g Hg) as (Hlen & _ & _ & Hsub).
  pose proof (NoDup_concat_elem groups g Hconcat Hg) as Hndg.
  unfold toRemove. destruct (keepShortestEntry g) as [kept|] eqn:Hkept.
  2: { destruct g; [simpl in Hlen; lia|done]. }
  eexists. split; [done|].
  pose proof (keepShortestEntry_elem _ _ Hkept) as Hin.
  assert (∃ e, e ∈ g ∧ e ≠ kept) as (e & He & Hne).
  { destruct g as [|a [|b g]]; simpl in Hlen; try lia.
    destruct (decide (a = kept)) as [->|]; [|exists a; split; [by left|done]].
    exists b. split; [right; by left|]. intros ->.
    apply NoDup_cons in Hndg as [Hnotin _]. apply Hnotin. by left. }
  assert (e ∈ filter (fun e => same_entry e kept = false) g) as Hf.
  { apply list_elem_of_filter. split; [|done]. unfold same_entry.
    apply bool_decide_eq_false. intros Heq. apply Hne.
    apply (NoDup_fmap_elem entry_location entries); auto. }
  destruct (filter _ g); [by apply elem_of_nil in Hf|simpl; lia].
Qed.

(** X12. A run that writes leaves a file with the title, the rows,
    their names and their colours as they were read, every list of items
    a part of what it was, in its order, and fewer items in all. *)
Theorem written_file_only_loses_items env data :
  WriteFile data ∈ main env →
  ∃ jsonData rows rows',
    loadJsonFile (env_content env) = inr jsonData
    ∧ wd_rows jsonData = Some rows ∧ wd_rows data = Some rows'
    ∧ wd_title data = wd_title jsonData
    ∧ Forall2 (fun row' row =>
                 re_name row' = re_name row ∧ re_color row' = re_color row
                 ∧ default [] (re_imgs row') `sublist_of` default [] (re_imgs row))
              rows' rows
    ∧ default [] (wd_untiered data) `sublist_of` default [] (wd_untiered jsonData)
    ∧ countEntries data < countEntries jsonData.
Proof.
  intros (jsonData & entries & groups & _ & Hload & Hcollect & Hfind & _
          & Hsel & Hrm)%main_written.
  set (selected := omap _ _) in *.
  assert (selected `sublist_of` groups) as Hsub by apply selected_sublist.
  destruct (count_after_removal _ _ _ _ _ Hcollect Hfind Hsub Hrm)
    as (n & Hn & Hcount).
  assert (1 ≤ n) as Hpos.
  { destruct selected as [|g selected'] eqn:Hs; [done|].
    destruct (collectAllEntries_spec _ _ Hcollect) as [Hloc _].
    destruct (toRemove_nonempty entries groups g Hloc Hfind) as (r & Hr & Hlen).
    { apply (sublist_subseteq _ _ Hsub). by left. }
    unfold totalToRemove in Hn. cbn [mapM] in Hn. rewrite Hr in Hn. simpl in Hn.
    destruct (mapM toRemove selected') as [rs|]; [|done]. simpl in Hn.
    injection Hn as <-. lia. }
  unfold removeDuplicatesFromTierlist in Hrm.
  destruct (entriesToRemove selected) as [ids|]; [|done]. simpl in Hrm.
  destruct (wd_rows jsonData) as [rows|] eqn:Hrows; [|done].
  injection Hrm as <-. exists jsonData, rows, (imap (clean_row ids) rows).
  split; [done|]. split; [done|]. split; [done|]. split; [done|].
  split; [|split; [|lia]].
  - apply Forall2_imap_l. intros r row. split; [done|]. split; [done|]. simpl.
    destruct (re_imgs row) as [imgs|]; [|constructor]. simpl.
    rewrite clean_items_unmarked. apply unmarked_from_sublist.
  - simpl. destruct (wd_untiered jsonData) as [untiered|]; [|constructor]. simpl.
    rewrite clean_items_unmarked. apply unmarked_from_sublist.
Qed.

Lemma written_file_only_loses_items_witness :
  WriteFile pizza_cleaned ∈ main env_backup_succeeds
  ∧ ∃ jsonData rows rows',
      loadJsonFile (env_content env_backup_succeeds) = inr jsonData
      ∧ wd_rows jsonData = Some rows ∧ wd_rows pizza_cleaned = Some rows'
      ∧ wd_title pizza_cleaned = wd_title jsonData
      ∧ Forall2 (fun row' row =>
                   re_name row' = re_name row ∧ re_color row' = re_color row
                   ∧ default [] (re_imgs row') `sublist_of` default [] (re_imgs row))
                rows' rows
      ∧ default [] (wd_untiered pizza_cleaned)
          `sublist_of` default [] (wd_untiered jsonData)
      ∧ countEntries pizza_cleaned < countEntries jsonData.
Proof.
  assert (WriteFile pizza_cleaned ∈ main env_backup_succeeds) as Hin.
  { change (main env_backup_succeeds)
      with [BackupCreated; WriteFile pizza_cleaned]. right. by left. }
  split; [exact Hin|].
  exact (written_file_only_loses_items env_backup_succeeds pizza_cleaned Hin).
Defined.

(** X13. When a run in which no group is skipped has written the
    file, a run on the file it wrote finds no duplicates: it makes no
    backup, writes nothing and ends without an error. *)
Theorem second_run_is_quiet env env' data :
  WriteFile data ∈ main env → env_skipped env = [] →
  env_exists env' = true → env_content env' = Some (PObject data) →
  main env' = [].
Proof.
  intros (jsonData & entries & groups & _ & _ & Hcollect & Hfind & _ & _ & Hrm)
    %main_written Hskip Hexists Hcontent.
  rewrite Hskip in Hrm.
  rewrite selected_all in Hrm by (intros i; by apply not_elem_of_nil).
  destruct (cleaned_has_no_groups _ _ _ _ Hcollect Hfind Hrm)
    as (entries' & Hcollect' & Hfind').
  assert (is_Some (wd_rows data)) as [rows' Hrows'].
  { unfold collectAllEntries in Hcollect'.
    destruct (wd_rows data); [by eexists|done]. }
  unfold main. rewrite Hexists, Hcontent. simpl. rewrite Hrows', Hcollect'.
  simpl. by rewrite Hfind'.
Qed.

Lemma second_run_is_quiet_witness :
  WriteFile pizza_cleaned ∈ main env_backup_succeeds
  ∧ env_skipped env_backup_succeeds = []
  ∧ env_exists env_second_run = true
  ∧ env_content env_second_run = Some (PObject pizza_cleaned)
  ∧ main env_second_run = [].
Proof.
  assert (WriteFile pizza_cleaned ∈ main env_backup_succeeds) as Hin.
  { change (main env_backup_succeeds)
      with [BackupCreated; WriteFile pizza_cleaned]. right. by left. }
  split; [exact Hin|]. split; [reflexivity|]. split; [reflexivity|].
  split; [reflexivity|].
  exact (second_run_is_quiet env_backup_succeeds env_second_run pizza_cleaned
           Hin eq_refl eq_refl eq_refl).
Defined.



End Runs.


(* ================================================================== *)
(** ** Facts about moving items on the page *)
(* ================================================================== *)

Module PageFacts.
Import JsString Wire Tiers Page Samples TiersFacts.

(** *** The items of the rows *)

Lemma row_items_delete (rs : list row) (r : nat) rw :
  rs !! r = Some rw →
  concat (row_items <$> rs) ≡ₚ row_items rw ++ concat (row_items <$> delete r rs).
Proof.
  revert r. induction rs as [|x rs IH]; intros [|r] Hr; simplify_eq/=; [done|].
  rewrite (IH r Hr). by rewrite !app_assoc, (Permutation_app_comm (row_items x)).
Qed.

Lemma delete_insert_same {A} (l : list A) i x : delete i (<[i:=x]> l) = delete i l.
Proof. revert i. induction l as [|y l IH]; intros [|i]; simpl; [done..|]. by rewrite IH. Qed.

Lemma row_items_insert (rs : list row) (r : nat) rw rw' :
  rs !! r = Some rw →
  concat (row_items <$> <[r:=rw']> rs)
  ≡ₚ row_items rw' ++ concat (row_items <$> delete r rs).
Proof.
  intros Hr. rewrite (row_items_delete (<[r:=rw']> rs) r rw').
  - by rewrite delete_insert_same.
  - apply list_lookup_insert_eq. by eapply lookup_lt_Some.
Qed.

Lemma headers_insert (rs : list row) (r : nat) rw rw' :
  rs !! r = Some rw → row_name rw' = row_name rw → row_color rw' = row_color rw →
  (fun rw => (row_name rw, row_color rw)) <$> <[r:=rw']> rs
  = (fun rw => (row_name rw, row_color rw)) <$> rs.
Proof.
  intros Hr Hn Hc. rewrite list_fmap_insert, Hn, Hc. apply list_insert_id.
  by rewrite list_lookup_fmap, Hr.
Qed.

Lemma insertBefore_Permutation {A} (l : list A) x ref :
  insertBefore l x ref ≡ₚ x :: l.
Proof.
  destruct ref as [i|]; simpl.
  - by rewrite <- Permutation_middle, take_drop.
  - by rewrite Permutation_app_comm.
Qed.

(** Taking the grabbed item out of the tree takes this one item away and
    leaves the headers. *)
Lemma detach_items p st it old_item_row st1 :
  detach p st = Some (it, old_item_row, st1) →
  all_items st ≡ₚ it :: all_items st1
  ∧ headers st1 = headers st ∧ title st1 = title st
  ∧ unsaved_changes st1 = unsaved_changes st.
Proof.
  unfold detach, all_items, headers. destruct p as [r k|k].
  - destruct (rows st !! r) as [rw|] eqn:Hr; [|done]. simpl.
    destruct (row_items rw !! k) as [it'|] eqn:Hk; [|done]. intros [= <- <- <-].
    simpl. split; [|split; [|done]].
    + rewrite (row_items_insert _ _ rw) by done. simpl.
      rewrite (row_items_delete _ _ _ Hr).
      change (it' :: (delete k (row_items rw) ++ ?rest) ++ ?p)
        with (((it' :: delete k (row_items rw)) ++ rest) ++ p).
      do 2 apply Permutation_app_tail. by apply delete_Permutation.
    + by apply (headers_insert _ _ rw).
  - destruct (pool st !! k) as [c|] eqn:Hk; [|done]. intros [= <- <- <-]. simpl.
    split; [|done]. rewrite Permutation_middle. apply Permutation_app_head.
    rewrite <- fmap_cons. apply fmap_Permutation. by apply delete_Permutation.
Qed.


Lemma drop_on_row_items st1 r rw it ref name color arg t :
  rows st1 !! r = Some rw →
  concat (row_items <$> <[r := Row name color (insertBefore (row_items rw) it ref)
                                   arg t]> (rows st1))
  ≡ₚ it :: concat (row_items <$> rows st1).
Proof.
  intros Hr. rewrite (row_items_insert _ _ rw) by done. simpl.
  rewrite (row_items_delete _ _ _ Hr).
  change (it :: row_items rw ++ ?rest) with ((it :: row_items rw) ++ rest).
  apply Permutation_app_tail, insertBefore_Permutation.
Qed.

Local Ltac unchanged := split; [done|split; [done|split; [done|by right]]].

(** X15. A drop loses no item and makes none: the items of the page
    after the drop are those before it, in another order at most. The
    title and the headers of the rows, names and colours, stay, and a drop
    that moves something sets [unsaved_changes]. *)
Theorem drop_keeps_every_item ev st :
  all_items (drop ev st) ≡ₚ all_items st
  ∧ headers (drop ev st) = headers st
  ∧ title (drop ev st) = title st
  ∧ (unsaved_changes (drop ev st) = true ∨ drop ev st = st).
Proof.
  unfold drop. destruct (dragged_image st) as [p|]; [|unchanged].
  destruct (detach p st) as [[[it old_item_row] st1]|] eqn:Hdetach;
    [|unchanged].
  destruct (detach_items _ _ _ _ _ Hdetach) as (Hitems & Hheaders & Htitle & _).
  assert (∀ r,
    match rows st1 !! r with
    | None => True
    | Some rw =>
        ∀ ref t k',
          let st' :=
            State (title st)
                  (<[r := Row (row_name rw) (row_color rw)
                              (insertBefore (row_items rw) it ref)
                              (row_arg_name rw) t]> (rows st1))
                  (pool st1) (pool_target st) (Some (InRow r k'))
                  (old_item_index st) true in
          all_items st' ≡ₚ all_items st ∧ headers st' = headers st
    end) as Hrow.
  { intros r. destruct (rows st1 !! r) as [rw|] eqn:Hr; [|done].
    intros ref t k'. unfold all_items, headers in *. simpl. split.
    - rewrite (drop_on_row_items _ _ _ _ _ _ _ _ _ Hr). by rewrite Hitems.
    - rewrite <- Hheaders. by apply (headers_insert _ _ rw). }
  destruct ev as [r|r|].
  - specialize (Hrow r). destruct (rows st1 !! r) as [rw|]; [|unchanged].
    destruct (Hrow None (adjusted_index old_item_row (DropOnRow r)
                           (old_item_index st) (row_target rw))
                (length (row_items rw))) as [? ?].
    split; [done|]. split; [done|]. split; [done|by left].
  - specialize (Hrow r). destruct (rows st1 !! r) as [rw|]; [|unchanged].
    destruct (Hrow (child_at (row_items rw)
                      (adjusted_index old_item_row (DropInRow r)
                         (old_item_index st) (row_target rw)))
                (adjusted_index old_item_row (DropInRow r)
                   (old_item_index st) (row_target rw))
                (default (length (row_items rw))
                   (child_at (row_items rw)
                      (adjusted_index old_item_row (DropInRow r)
                         (old_item_index st) (row_target rw))))) as [? ?].
    split; [done|]. split; [done|]. split; [done|by left].
  - unfold all_items, headers in *. simpl. split; [|split; [done|split; [done|by left]]].
    rewrite Hitems, fmap_insertBefore, insertBefore_Permutation. simpl.
    by rewrite <- Permutation_middle.
Qed.

(** X16. A drop on the trash takes the grabbed item off the page and
    nothing else: the items before are the grabbed one and those after.
    The title and the headers stay, and [unsaved_changes] is as it was:
    throwing an item away alone does not count as a change to save. *)
Theorem trash_drop_removes_one_item st p it old_item_row st1 :
  dragged_image st = Some p →
  detach p st = Some (it, old_item_row, st1) →
  all_items st ≡ₚ it :: all_items (trash_drop st)
  ∧ headers (trash_drop st) = headers st
  ∧ title (trash_drop st) = title st
  ∧ unsaved_changes (trash_drop st) = unsaved_changes st
  ∧ dragged_image (trash_drop st) = None.
Proof.
  intros Hp Hdetach. unfold trash_drop. rewrite Hp, Hdetach.
  destruct (detach_items _ _ _ _ _ Hdetach) as (Hitems & Hheaders & Htitle & Hun).
  by repeat split.
Qed.

Lemma trash_drop_removes_one_item_witness :
  let st := mousedown 0 1 row_abcd in
  dragged_image st = Some (InRow 0 1)
  ∧ all_items st ≡ₚ item_B :: all_items (trash_drop st)
  ∧ headers (trash_drop st) = headers st
  ∧ title (trash_drop st) = title st
  ∧ unsaved_changes (trash_drop st) = unsaved_changes st
  ∧ dragged_image (trash_drop st) = None.
Proof.
  split; [reflexivity|].
  eapply (trash_drop_removes_one_item (mousedown 0 1 row_abcd) (InRow 0 1) item_B);
    reflexivity.
Defined.


(** *** Reset *)

Lemma reset_row_fields r st :
  title (reset_row r st) = title st.
Proof. unfold reset_row. by destruct (rows st !! r). Qed.

Lemma soft_reset_prefix st k :
  k ≤ length (rows st) →
  rows (foldl (fun s r => reset_row r s) st (seq 0 k))
  = (set_row_items [] <$> take k (rows st)) ++ skipn k (rows st)
  ∧ pool (foldl (fun s r => reset_row r s) st (seq 0 k))
    = pool st ++ (Bare <$> concat (row_items <$> take k (rows st)))
  ∧ title (foldl (fun s r => reset_row r s) st (seq 0 k)) = title st.
Proof.
  induction k as [|k IH]; intros Hk.
  - simpl. by rewrite drop_0, app_nil_r.
  - destruct IH as (Hrows & Hpool & Htitle); [lia|].
    rewrite seq_S, foldl_app. simpl.
    set (st_k := foldl (fun s r => reset_row r s) st (seq 0 k)) in *.
    destruct (lookup_lt_is_Some_2 (rows st) k) as [rw Hrw]; [lia|].
    assert (length (set_row_items [] <$> take k (rows st)) = k) as Hlen
      by (rewrite length_fmap, length_take_le; lia).
    assert (rows st_k !! k = Some rw) as Hrw_k.
    { rewrite Hrows, lookup_app_r by lia. rewrite Hlen, Nat.sub_diag.
      by rewrite lookup_drop, Nat.add_0_r. }
    destruct (reset_row_rows k st_k rw Hrw_k) as [-> ->].
    rewrite reset_row_fields, (take_S_r _ _ _ Hrw), !fmap_app, concat_app.
    split; [|split; [|done]].
    + rewrite Hrows, insert_app_r_alt by lia. rewrite Hlen, Nat.sub_diag.
      rewrite (drop_S _ _ _ Hrw). simpl. by rewrite <- app_assoc.
    + rewrite Hpool, fmap_app. simpl. by rewrite app_nil_r, app_assoc.
Qed.

Lemma emptied_rows_items (rs : list row) :
  concat ((row_items ∘ set_row_items []) <$> rs) = [].
Proof. induction rs as [|rw rs IH]; [done|]. by rewrite fmap_cons, concat_cons, IH. Qed.

(** X17. The reset of the list empties every row and puts the items of
    the rows at the end of the pool, row after row and in their order in
    the row; the rows stay, with their names and colours, no item is
    lost, and [unsaved_changes] is set. *)
Theorem soft_reset_list_pools_everything st :
  rows (soft_reset_list st) = set_row_items [] <$> rows st
  ∧ pool (soft_reset_list st)
    = pool st ++ (Bare <$> concat (row_items <$> rows st))
  ∧ headers (soft_reset_list st) = headers st
  ∧ title (soft_reset_list st) = title st
  ∧ all_items (soft_reset_list st) ≡ₚ all_items st
  ∧ unsaved_changes (soft_reset_list st) = true.
Proof.
  destruct (soft_reset_prefix st (length (rows st))) as (Hrows & Hpool & Htitle);
    [done|].
  rewrite firstn_all, drop_all, app_nil_r in Hrows. rewrite firstn_all in Hpool.
  unfold soft_reset_list, headers, all_items. simpl. rewrite Hrows, Hpool, Htitle.
  split; [done|]. split; [done|]. split; [|split; [done|split; [|done]]].
  - rewrite <- list_fmap_compose. by apply list_fmap_ext.
  - rewrite <- !list_fmap_compose.
    rewrite emptied_rows_items.
    simpl. rewrite fmap_app, <- list_fmap_compose.
    rewrite (list_fmap_ext (pool_item ∘ Bare) id) by done.
    rewrite list_fmap_id. apply Permutation_app_comm.
Qed.


(** *** Indices and colours *)

(** X18. In a row of [n] items [get_item_index] answers twice the
    position for the container of an item and for its image, because the
    list it searches holds the container and the image of every item;
    it answers the position itself for the [span.item] around the
    container, and [null] for the rest of the row, header and buttons. *)
Theorem get_item_index_counts_images_too n k :
  k < n →
  get_item_index n (NContainer k) = JNum (2 * Z.of_nat k)
  ∧ get_item_index n (NImg k) = JNum (2 * Z.of_nat k)
  ∧ get_item_index n (NItemSpan k) = JNum (Z.of_nat k)
  ∧ get_item_index n NOther = JNull.
Proof.
  intros Hk. destruct (get_item_index_values n k Hk) as (-> & -> & ->).
  repeat split. unfold get_item_index.
  rewrite (proj2 (list_find_None _ _)).
  2: { apply Forall_forall. intros x Hx.
       apply list_elem_of_In, in_flat_map in Hx as (j & _ & Hj).
       simpl in Hj. destruct Hj as [<-|[<-|[]]]; intros [?|?]; done. }
  rewrite (proj2 (list_find_None _ _)); [done|].
  apply Forall_forall. intros x (j & -> & _)%list_elem_of_fmap. simpl.
  intros [?|?]; done.
Qed.

Lemma get_item_index_counts_images_too_witness :
  3 < 4
  ∧ get_item_index 4 (NContainer 3) = JNum 6
  ∧ get_item_index 4 (NImg 3) = JNum 6
  ∧ get_item_index 4 (NItemSpan 3) = JNum 3
  ∧ get_item_index 4 NOther = JNull.
Proof.
  split; [lia|]. apply (get_item_index_counts_images_too 4 3). lia.
Defined.

(** X19. The colour of a header is saved as [#] and six lower-case
    hexadecimal digits, two for each channel, and reading that string
    gives the colour back; a header whose colour was never set is saved
    as black, [#000000]. *)
Theorem header_color_saved_in_hex c :
  color_hex (Some c)
  = String "#"
      (string_of_list_ascii
         [hex_digit (channel (red c) / 16); hex_digit (channel (red c) mod 16);
          hex_digit (channel (green c) / 16); hex_digit (channel (green c) mod 16);
          hex_digit (channel (blue c) / 16); hex_digit (channel (blue c) mod 16)])
  ∧ parse_color (color_hex (Some c)) = Some c
  ∧ color_hex None = "#000000"
  ∧ parse_color (color_hex None) = Some (Rgb Byte.x00 Byte.x00 Byte.x00).
Proof.
  split; [|split; [apply parse_color_color_hex|split; reflexivity]].
  unfold color_hex, rgb_to_hex.
  rewrite rgb_number by apply channel_range.
  by rewrite toString16_rgb by apply channel_range.
Qed.


(** *** The buttons that add a row *)

Lemma add_row_at st idx name :
  idx ≤ length (rows st) →
  rows (add_row (NumberIndex idx) name st)
  = take idx (rows st) ++ new_row name :: skipn idx (rows st)
  ∧ pool (add_row (NumberIndex idx) name st) = pool st
  ∧ title (add_row (NumberIndex idx) name st) = title st.
Proof.
  intros Hidx. unfold add_row. simpl. split; [|done].
  case_bool_decide as Hend.
  - subst idx. by rewrite firstn_all, drop_all.
  - rewrite bool_decide_eq_true_2 by lia. done.
Qed.

Lemma recolor_added st idx name :
  idx ≤ length (rows st) →
  rows (recompute_header_colors (Some idx) (add_row (NumberIndex idx) name st))
  = take idx (rows st) ++ palette_color idx (new_row name) :: skipn idx (rows st)
  ∧ pool (recompute_header_colors (Some idx) (add_row (NumberIndex idx) name st))
    = pool st
  ∧ title (recompute_header_colors (Some idx) (add_row (NumberIndex idx) name st))
    = title st.
Proof.
  intros Hidx. destruct (add_row_at st idx name Hidx) as (Hrows & Hpool & Htitle).
  assert (length (take idx (rows st)) = idx) as Hlen by (rewrite length_take_le; lia).
  assert (rows (add_row (NumberIndex idx) name st) !! idx = Some (new_row name))
    as Hnew.
  { rewrite Hrows, lookup_app_r by lia. by rewrite Hlen, Nat.sub_diag. }
  unfold recompute_header_colors. rewrite Hnew. unfold set_rows.
  cbn [rows pool title]. split; [|done].
  rewrite Hrows, insert_app_r_alt by lia. by rewrite Hlen, Nat.sub_diag.
Qed.

(** X20. The two [+] buttons of a row add one empty row, above the row
    or below it, and leave the other rows, their items, their colours and
    the pool as they are. The new row takes the colour of the palette
    for its position; the row added above has an empty name, the row
    added below the name its neighbour was created with. *)
Theorem plus_buttons_add_an_empty_row st idx rw :
  rows st !! idx = Some rw →
  rows (btn_plus_up idx st)
  = take idx (rows st) ++ palette_color idx (new_row "") :: skipn idx (rows st)
  ∧ rows (btn_plus_down idx st)
    = take (S idx) (rows st)
      ++ palette_color (S idx) (new_row (row_arg_name rw)) :: skipn (S idx) (rows st)
  ∧ pool (btn_plus_up idx st) = pool st
  ∧ pool (btn_plus_down idx st) = pool st
  ∧ (∀ i name, row_items (palette_color i (new_row name)) = []
               ∧ row_name (palette_color i (new_row name)) = name
               ∧ Some (row_color (palette_color i (new_row name)))
                 = parse_color <$> TIER_COLORS !! (i `mod` 7)).
Proof.
  intros Hrw. pose proof (lookup_lt_Some _ _ _ Hrw) as Hlt.
  unfold btn_plus_up, btn_plus_down. rewrite Hrw, Nat.add_1_r.
  destruct (recolor_added st idx "") as (-> & -> & _); [lia|].
  destruct (recolor_added st (S idx) (row_arg_name rw)) as (-> & -> & _); [lia|].
  repeat (split; [done|]).
  intros i name. unfold palette_color. change (length TIER_COLORS) with 7.
  pose proof (Nat.mod_upper_bound i 7 ltac:(lia)) as Hm.
  destruct (i `mod` 7) as [|[|[|[|[|[|[|?]]]]]]]; try lia; by repeat split.
Qed.

Lemma plus_buttons_add_an_empty_row_witness :
  rows row_abcd !! 0
  = Some (Row "S" (Some (Rgb Byte.xff Byte.x66 Byte.x66))
              [item_A; item_B; item_C; item_D] "S" JUndefined)
  ∧ rows (btn_plus_up 0 row_abcd)
    = take 0 (rows row_abcd) ++ palette_color 0 (new_row "") :: skipn 0 (rows row_abcd)
  ∧ rows (btn_plus_down 0 row_abcd)
    = take 1 (rows row_abcd)
      ++ palette_color 1 (new_row "S") :: skipn 1 (rows row_abcd)
  ∧ pool (btn_plus_up 0 row_abcd) = pool row_abcd
  ∧ pool (btn_plus_down 0 row_abcd) = pool row_abcd
  ∧ (∀ i name, row_items (palette_color i (new_row name)) = []
               ∧ row_name (palette_color i (new_row name)) = name
               ∧ Some (row_color (palette_color i (new_row name)))
                 = parse_color <$> TIER_COLORS !! (i `mod` 7)).
Proof.
  split; [reflexivity|].
  apply (plus_buttons_add_an_empty_row row_abcd 0
           (Row "S" (Some (Rgb Byte.xff Byte.x66 Byte.x66))
                [item_A; item_B; item_C; item_D] "S" JUndefined)).
  reflexivity.
Defined.


(** *** Import *)

Lemma palette_color_spec i rw :
  palette_color i rw = set_row_color (palette_rgb i) rw.
Proof.
  unfold palette_color, palette_rgb. change (length TIER_COLORS) with 7.
  pose proof (Nat.mod_upper_bound i 7 ltac:(lia)) as Hm.
  destruct (i `mod` 7) as [|[|[|[|[|[|[|?]]]]]]]; try lia; reflexivity.
Qed.

Lemma imap_palette_color_idemp (rs : list row) :
  imap palette_color (imap palette_color rs) = imap palette_color rs.
Proof.
  assert (∀ k, imap (fun i => palette_color (k + i))
                 (imap (fun i => palette_color (k + i)) rs)
               = imap (fun i => palette_color (k + i)) rs) as Hk; [|apply (Hk 0)].
  induction rs as [|rw rs IH]; intros k; [done|].
  rewrite !imap_cons. f_equal; [by rewrite !palette_color_spec|].
  rewrite !(imap_ext (_ ∘ S) (fun i => palette_color (S k + i)))
    by (intros; simpl; f_equal; lia).
  apply IH.
Qed.

Lemma imap_palette_color_snoc (rs : list row) rw :
  imap palette_color (rs ++ [rw])
  = imap palette_color rs ++ [palette_color (length rs) rw].
Proof. rewrite imap_app. simpl. by rewrite Nat.add_0_r. Qed.

(** One run of the loop of [load_tierlist] on a page whose rows were all
    made by the loop: the row goes to the end, and a row without a colour
    has the whole page painted with the palette. *)
Lemma load_row_appends st idx ser_row :
  length (rows st) = idx →
  load_row st idx ser_row
  = set_rows
      (match re_color ser_row with
       | Some color =>
           rows st ++ [Row (re_name ser_row) (set_backgroundColor color None)
                           (load_items (default [] (re_imgs ser_row)))
                           (re_name ser_row) JUndefined]
       | None =>
           imap palette_color
             (rows st ++ [Row (re_name ser_row) None
                              (load_items (default [] (re_imgs ser_row)))
                              (re_name ser_row) JUndefined])
       end) st.
Proof.
  intros Hlen. unfold load_row, added_at, add_row. cbn [index_value set_rows rows].
  rewrite Hlen, Nat.min_id.
  rewrite bool_decide_eq_false_2 by lia. cbn [insertBefore].
  rewrite lookup_app_r by lia. rewrite Hlen, Nat.sub_diag.
  cbn [lookup list_lookup new_row].
  cbn [set_rows rows row_items row_color row_arg_name row_target set_row_color app].
  subst idx.
  destruct (re_color ser_row) as [color|]; rewrite !insert_app_r_alt by lia;
    rewrite Nat.sub_diag;
    cbn [insert list_insert new_row row_color row_items row_arg_name row_target
         app set_row_color].
  - by rewrite set_rows_set_rows.
  - unfold recompute_header_colors. cbn [set_rows rows].
    by rewrite set_rows_set_rows.
Qed.

Lemma load_rows_general ser_rows :
  ∀ st idx, length (rows st) = idx →
    load_rows st idx ser_rows
    = set_rows ((if all_colored ser_rows then rows st
                 else imap palette_color (rows st))
                ++ imap (loaded_row idx ser_rows) ser_rows) st.
Proof.
  induction ser_rows as [|ser_row rest IH]; intros st idx Hlen.
  { simpl. by rewrite app_nil_r, set_rows_id. }
  cbn [load_rows]. rewrite (load_row_appends st idx ser_row Hlen).
  rewrite (IH _ (S idx)).
  2: { cbn [set_rows rows]. destruct (re_color ser_row);
       rewrite ?length_imap, length_app; simpl; lia. }
  rewrite set_rows_set_rows. f_equal. cbn [set_rows rows].
  rewrite imap_cons.
  rewrite (imap_ext (loaded_row idx (ser_row :: rest) ∘ S)
             (loaded_row (S idx) rest) rest).
  2: { intros i e _. unfold loaded_row. simpl. by rewrite Nat.add_succ_r. }
  unfold loaded_row at 2. rewrite Nat.add_0_r. cbn [skipn all_colored forallb].
  fold (all_colored rest).
  destruct (re_color ser_row) as [color|] eqn:Hcolor.
  - rewrite bool_decide_eq_true_2 by by eexists. simpl.
    destruct (all_colored rest).
    + by rewrite <- app_assoc.
    + rewrite imap_palette_color_snoc, <- app_assoc, Hlen. simpl.
      by rewrite palette_color_spec.
  - rewrite bool_decide_eq_false_2 by by intros [? ?]. simpl.
    assert ((if all_colored rest
             then imap palette_color (rows st ++ [Row (re_name ser_row) None
                    (load_items (default [] (re_imgs ser_row)))
                    (re_name ser_row) JUndefined])
             else imap palette_color (imap palette_color
                    (rows st ++ [Row (re_name ser_row) None
                       (load_items (default [] (re_imgs ser_row)))
                       (re_name ser_row) JUndefined])))
            = imap palette_color (rows st ++ [Row (re_name ser_row) None
                    (load_items (default [] (re_imgs ser_row)))
                    (re_name ser_row) JUndefined])) as ->.
    { destruct (all_colored rest); [done|apply imap_palette_color_idemp]. }
    rewrite imap_palette_color_snoc, <- app_assoc, Hlen. simpl.
    by rewrite palette_color_spec.
Qed.

Lemma imported_page d st :
  title (import_input (Some (PObject d)) st) = wd_title d
  ∧ rows (import_input (Some (PObject d)) st)
    = imap (loaded_row 0 (default [] (wd_rows d))) (default [] (wd_rows d))
  ∧ pool (import_input (Some (PObject d)) st)
    = Bare <$> load_items (default [] (wd_untiered d))
  ∧ unsaved_changes (import_input (Some (PObject d)) st) = false.
Proof.
  unfold import_input, load_tierlist, hard_reset_list.
  cbn [set_rows set_pool rows pool title pool_target dragged_image
       old_item_index unsaved_changes].
  rewrite (load_rows_general _ _ 0) by done. cbn [set_rows rows].
  assert (∀ b : bool, (if b then [] else imap palette_color []) = @nil row) as ->
    by by intros [].
  destruct (wd_untiered d); done.
Qed.





(** X22. When an entry of [rows] names no colour, the rows of the
    entries before it lose the colours the file names for them: after
    the import every row up to that one shows the colour of the palette
    for its position. *)
Theorem row_without_color_repaints_the_rows_before d st i j ser_row ser_row' :
  default [] (wd_rows d) !! i = Some ser_row →
  default [] (wd_rows d) !! j = Some ser_row' →
  i ≤ j → re_color ser_row' = None →
  row_color <$> rows (import_input (Some (PObject d)) st) !! i
  = Some (palette_rgb i).
Proof.
  intros Hi Hj Hij Hnone. destruct (imported_page d st) as (_ & -> & _).
  rewrite list_lookup_imap, Hi. simpl. f_equal.
  assert (all_colored (skipn i (default [] (wd_rows d))) = false) as ->; [|done].
  apply not_true_iff_false. unfold all_colored. rewrite forallb_forall.
  intros Hall. specialize (Hall ser_row').
  rewrite bool_decide_eq_true, Hnone in Hall. destruct Hall as [? ?]; [|done].
  apply list_elem_of_In. apply (list_elem_of_lookup_2 _ (j - i)).
  rewrite lookup_drop. by replace (i + (j - i)) with j by lia.
Qed.


Lemma row_without_color_repaints_the_rows_before_witness :
  default [] (wd_rows mixed_file) !! 0 = Some (RowEntry "A" (Some "#123456") (Some []))
  ∧ default [] (wd_rows mixed_file) !! 1 = Some (RowEntry "B" None (Some []))
  ∧ 0 ≤ 1
  ∧ row_color <$> rows (import_input (Some (PObject mixed_file)) row_abcd) !! 0
    = Some (Some (Rgb Byte.xff Byte.x66 Byte.x66)).
Proof.
  split; [reflexivity|]. split; [reflexivity|]. split; [lia|].
  exact (row_without_color_repaints_the_rows_before mixed_file row_abcd 0 1
           (RowEntry "A" (Some "#123456") (Some [])) (RowEntry "B" None (Some []))
           eq_refl eq_refl (le_S 0 0 (le_n 0)) eq_refl).
Defined.

End PageFacts.


(* ================================================================== *)
(** ** Facts about the utility that adds a restaurant *)
(* ================================================================== *)

Module AddRestaurantFacts.
Import JsString Wire AddRestaurant Tiers Page Samples.

(** The header the chain of [includes] looks at names one of the
    formats. *)
Lemma mimeType_header_decides header imageUrl url' :
  mimeType header imageUrl ≠ mimeType header url' →
  ∃ h, header = Some h ∧ h ≠ ""
       ∧ includes h "webp" = false ∧ includes h "jpeg" = false
       ∧ includes h "jpg" = false ∧ includes h "png" = false
       ∧ includes h "gif" = false.
Proof.
  destruct header as [[|c h]|]; [by intros []| |by intros []].
  unfold mimeType. cbn [truthy]. intros Hne. exists (String c h).
  split; [done|]. split; [done|].
  destruct (includes (String c h) "webp"); [done|].
  destruct (includes (String c h) "jpeg"); [done|].
  destruct (includes (String c h) "jpg"); [done|].
  destruct (includes (String c h) "png"); [done|].
  destruct (includes (String c h) "gif"); done.
Qed.

(** X23. The type written into the data URI is one of four, whatever
    the server and the URL say. When the server sends no [content-type]
    header, or an empty one, the type is [image/png] whatever the URL
    ends in. A header that names a format fixes the type, the first of
    webp, jpeg or jpg, png and gif that it names, whatever the URL is:
    two URLs get different types only under a header that is there and
    names none of the formats, and under such a header the URL alone
    decides. *)
Theorem mimeType_of_a_silent_server header imageUrl :
  mimeType header imageUrl ∈ ["image/webp"; "image/jpeg"; "image/png"; "image/gif"]
  ∧ mimeType None imageUrl = "image/png"
  ∧ mimeType (Some "") imageUrl = "image/png"
  ∧ (∀ h, h ≠ "" → includes h "webp" = true →
       mimeType (Some h) imageUrl = "image/webp")
  ∧ (∀ h, h ≠ "" → includes h "webp" = false →
       includes h "jpeg" = true ∨ includes h "jpg" = true →
       mimeType (Some h) imageUrl = "image/jpeg")
  ∧ (∀ h, h ≠ "" → includes h "webp" = false → includes h "jpeg" = false →
       includes h "jpg" = false → includes h "png" = true →
       mimeType (Some h) imageUrl = "image/png")
  ∧ (∀ h, h ≠ "" → includes h "webp" = false → includes h "jpeg" = false →
       includes h "jpg" = false → includes h "png" = false →
       includes h "gif" = true →
       mimeType (Some h) imageUrl = "image/gif")
  ∧ (∀ url', mimeType header imageUrl ≠ mimeType header url' →
       ∃ h, header = Some h ∧ h ≠ ""
            ∧ includes h "webp" = false ∧ includes h "jpeg" = false
            ∧ includes h "jpg" = false ∧ includes h "png" = false
            ∧ includes h "gif" = false)
  ∧ (∀ h h', h ≠ "" → h' ≠ "" →
       includes h "webp" = false → includes h "jpeg" = false →
       includes h "jpg" = false → includes h "png" = false →
       includes h "gif" = false →
       includes h' "webp" = false → includes h' "jpeg" = false →
       includes h' "jpg" = false → includes h' "png" = false →
       includes h' "gif" = false →
       mimeType (Some h) imageUrl = mimeType (Some h') imageUrl)
  ∧ mimeType None "http://example.com/logo.jpg" = "image/png"
  ∧ mimeType (Some "image/jpeg") "http://example.com/logo.webp" = "image/jpeg"
  ∧ mimeType (Some "application/octet-stream") "http://example.com/logo.jpg"
    = "image/jpeg"
  ∧ mimeType (Some "application/octet-stream") "http://example.com/LOGO.GIF"
    = "image/gif"
  ∧ mimeType (Some "application/octet-stream") "http://example.com/logo"
    = "image/png".
Proof.
  split.
  { unfold mimeType.
    repeat match goal with
           | |- context [if ?b then _ else _] => destruct b
           end; set_solver. }
  split; [done|]. split; [done|].
  split.
  { intros [|c h] Hh Hw; [done|]. unfold mimeType. cbn [truthy]. by rewrite Hw. }
  split.
  { intros [|c h] Hh Hw Hj; [done|]. unfold mimeType. cbn [truthy]. rewrite Hw.
    by destruct Hj as [-> | ->]; [|rewrite orb_true_r]. }
  split.
  { intros [|c h] Hh Hw Hj Hj' Hp; [done|]. unfold mimeType. cbn [truthy].
    by rewrite Hw, Hj, Hj', Hp. }
  split.
  { intros [|c h] Hh Hw Hj Hj' Hp Hg; [done|]. unfold mimeType. cbn [truthy].
    by rewrite Hw, Hj, Hj', Hp, Hg. }
  split; [intros url'; apply mimeType_header_decides|].
  split; [|by repeat split].
  intros [|c h] [|c' h'] Hh Hh' Hw Hj Hj' Hp Hg Hw' Hk Hk' Hp' Hg'; try done.
  unfold mimeType. cbn [truthy].
  by rewrite Hw, Hj, Hj', Hp, Hg, Hw', Hk, Hk', Hp', Hg'.
Qed.

(** What a run that writes has gone through. *)
Lemma add_main_written env file data :
  WriteFile file data ∈ main env →
  ∃ files jsonData res,
    env_dir env = Some files
    ∧ file ∈ files ∧ endsWith file ".json" = true
    ∧ loadJsonFile (env_content env file) = inr jsonData
    ∧ env_response env (trim (env_url env)) = Some res
    ∧ statusCode res = 200%Z
    ∧ trim (env_name env) ≠ ""
    ∧ data = Document (wd_title jsonData) (wd_rows jsonData)
               (Some (default [] (wd_untiered jsonData)
                      ++ [newEntry ("data:" +:+ mimeType (content_type res)
                                                (trim (env_url env))
                                    +:+ ";base64," +:+ body_base64 res)
                                   (env_name env)])).
Proof.
  unfold main. destruct (env_dir env) as [files|]; [|set_solver].
  case_bool_decide; [set_solver|].
  destruct (env_choice env) as [choice|]; [|set_solver].
  destruct (_ || _); [set_solver|].
  destruct (_ !! _) as [selectedFile|] eqn:Hsel; [|set_solver].
  destruct (trim (env_name env)) as [|c name] eqn:Hname; simpl; [set_solver|].
  destruct (truthy (trim (env_url env))); simpl; [|set_solver].
  destruct (loadJsonFile _) as [?|jsonData] eqn:Hload; [set_solver|].
  unfold downloadAndConvertImage.
  destruct (env_response env _) as [res|] eqn:Hres; [|set_solver].
  case_bool_decide as Hstatus; [|set_solver].
  intros Hin. assert (WriteFile file data
                      = WriteFile selectedFile
                          (Document (wd_title jsonData) (wd_rows jsonData)
                             (Some (default [] (wd_untiered jsonData)
                                    ++ [newEntry
                                          ("data:" +:+ mimeType (content_type res)
                                                         (trim (env_url env))
                                           +:+ ";base64," +:+ body_base64 res)
                                          (env_name env)])))) as [= -> ->].
  { destruct (env_write_ok env); set_solver. }
  apply list_elem_of_lookup_2, list_elem_of_In, filter_In in Hsel as [Hin' Hends].
  exists files, jsonData, res. rewrite list_elem_of_In.
  repeat (split; [done|]). done.
Qed.

(** X24. Whenever the run writes, it writes the file that was chosen
    and read, one of the [.json] files of the directory, with its title
    and rows as they were and one entry more at the end of [untiered]:
    an object whose name is the name typed, trimmed and not empty, and
    whose source is a data URI of one of the four image types. *)
Theorem run_appends_one_entry env file data :
  WriteFile file data ∈ main env →
  ∃ jsonData mime body,
    loadJsonFile (env_content env file) = inr jsonData
    ∧ endsWith file ".json" = true
    ∧ wd_title data = wd_title jsonData
    ∧ wd_rows data = wd_rows jsonData
    ∧ wd_untiered data
      = Some (default [] (wd_untiered jsonData)
              ++ [EObject (Some ("data:" +:+ mime +:+ ";base64," +:+ body))
                          (Some (trim (env_name env)))])
    ∧ trim (env_name env) ≠ ""
    ∧ mime ∈ ["image/webp"; "image/jpeg"; "image/png"; "image/gif"].
Proof.
  intros (files & jsonData & res & _ & _ & Hends & Hload & _ & _ & Hname & ->)
    %add_main_written.
  exists jsonData, (mimeType (content_type res) (trim (env_url env))),
    (body_base64 res).
  repeat (split; [done|]). unfold mimeType.
  repeat match goal with
         | |- context [if ?b then _ else _] => destruct b
         end; set_solver.
Qed.

Lemma run_appends_one_entry_witness :
  WriteFile "restaurant_tierlist.json" pizza_added ∈ main env_add
  ∧ ∃ jsonData mime body,
      loadJsonFile (env_content env_add "restaurant_tierlist.json") = inr jsonData
      ∧ endsWith "restaurant_tierlist.json" ".json" = true
      ∧ wd_title pizza_added = wd_title jsonData
      ∧ wd_rows pizza_added = wd_rows jsonData
      ∧ wd_untiered pizza_added
        = Some (default [] (wd_untiered jsonData)
                ++ [EObject (Some ("data:" +:+ mime +:+ ";base64," +:+ body))
                            (Some (trim (env_name env_add)))])
      ∧ trim (env_name env_add) ≠ ""
      ∧ mime ∈ ["image/webp"; "image/jpeg"; "image/png"; "image/gif"].
Proof.
  assert (WriteFile "restaurant_tierlist.json" pizza_added ∈ main env_add) as Hin.
  { change (main env_add) with [WriteFile "restaurant_tierlist.json" pizza_added].
    by left. }
  split; [exact Hin|].
  exact (run_appends_one_entry env_add "restaurant_tierlist.json" pizza_added Hin).
Defined.


Lemma collect_items_snoc mk items item :
  RemoveDuplicates.collect_items mk (items ++ [item])
  = RemoveDuplicates.collect_items mk items
    ++ RemoveDuplicates.collect_item mk (length items) item.
Proof.
  unfold RemoveDuplicates.collect_items. rewrite imap_app, concat_app. simpl.
  by rewrite Nat.add_0_r, app_nil_r.
Qed.

(** X25. The entry the run wrote is there for the two other programs.
    The page, importing the written file, shows what it shows of the file
    read and one item more at the end of the pool, with the data URI as
    its image and the trimmed name as its label. The utility that removes
    duplicates collects from the written file what it collects from the
    file read and one entry more, the last of [untiered]. *)
Theorem added_entry_is_seen env file data st :
  WriteFile file data ∈ main env →
  ∃ jsonData dataUri entries,
    loadJsonFile (env_content env file) = inr jsonData
    ∧ rows (import_input (Some (PObject data)) st)
      = rows (import_input (Some (PObject jsonData)) st)
    ∧ pool (import_input (Some (PObject data)) st)
      = pool (import_input (Some (PObject jsonData)) st)
        ++ [Bare (Item dataUri (trim (env_name env)))]
    ∧ RemoveDuplicates.collectAllEntries jsonData = Some entries
    ∧ RemoveDuplicates.collectAllEntries data
      = Some (entries
              ++ [RemoveDuplicates.Entry (Some dataUri) (trim (env_name env))
                    (RemoveDuplicates.Untiered
                       (length (default [] (wd_untiered jsonData))))]).
Proof.
  intros (files & jsonData & res & _ & _ & _ & Hload & _ & _ & Hname & ->)
    %add_main_written.
  set (dataUri := "data:" +:+ _).
  assert (wd_rows jsonData ≠ None) as Hrows.
  { unfold loadJsonFile in Hload. destruct (env_content env file) as [[|d]|];
      try done. destruct (wd_rows d) eqn:Hd; [|done]. injection Hload as ->.
    by rewrite Hd. }
  destruct (wd_rows jsonData) as [ser_rows|] eqn:Hser; [|done].
  exists jsonData, dataUri. eexists. split; [done|].
  destruct (PageFacts.imported_page
              (Document (wd_title jsonData) (Some ser_rows)
                 (Some (default [] (wd_untiered jsonData)
                        ++ [newEntry dataUri (env_name env)]))) st)
    as (_ & -> & -> & _).
  destruct (PageFacts.imported_page jsonData st) as (_ & -> & -> & _).
  rewrite Hser. cbn [wd_rows wd_untiered default]. unfold id.
  split; [done|]. split; [|split].
  - rewrite TiersFacts.load_items_app, fmap_app. done.
  - unfold RemoveDuplicates.collectAllEntries. rewrite Hser. simpl. reflexivity.
  - unfold RemoveDuplicates.collectAllEntries. cbn [wd_rows wd_untiered mbind
      option_bind]. f_equal. rewrite collect_items_snoc.
    unfold newEntry. cbn [RemoveDuplicates.collect_item].
    destruct (trim (env_name env)) as [|c name] eqn:Hn; [done|].
    cbn [truthy]. rewrite app_assoc. f_equal.
    by destruct (wd_untiered jsonData).
Qed.

Lemma added_entry_is_seen_witness :
  WriteFile "restaurant_tierlist.json" pizza_added ∈ main env_add
  ∧ ∃ jsonData dataUri entries,
      loadJsonFile (env_content env_add "restaurant_tierlist.json") = inr jsonData
      ∧ rows (import_input (Some (PObject pizza_added)) row_abcd)
        = rows (import_input (Some (PObject jsonData)) row_abcd)
      ∧ pool (import_input (Some (PObject pizza_added)) row_abcd)
        = pool (import_input (Some (PObject jsonData)) row_abcd)
          ++ [Bare (Item dataUri (trim (env_name env_add)))]
      ∧ RemoveDuplicates.collectAllEntries jsonData = Some entries
      ∧ RemoveDuplicates.collectAllEntries pizza_added
        = Some (entries
                ++ [RemoveDuplicates.Entry (Some dataUri) (trim (env_name env_add))
                      (RemoveDuplicates.Untiered
                         (length (default [] (wd_untiered jsonData))))]).
Proof.
  assert (WriteFile "restaurant_tierlist.json" pizza_added ∈ main env_add) as Hin.
  { change (main env_add) with [WriteFile "restaurant_tierlist.json" pizza_added].
    by left. }
  split; [exact Hin|].
  exact (added_entry_is_seen env_add "restaurant_tierlist.json" pizza_added
           row_abcd Hin).
Defined.

End AddRestaurantFacts.


(* ================================================================== *)
(** ** Facts about the files of the page, read by the utility *)
(* ================================================================== *)

Module ExportedFiles.
Import JsString Wire Tiers Page Samples.
Import RemoveDuplicates Report.

Lemma untiered_lookup_even p k :
  (save_pool_elem <$> untiered_imgs p) !! (2 * k)
  = save_container ∘ pool_item <$> p !! k.
Proof.
  revert k. induction p as [|c p IH]; intros [|k]; try done.
  replace (2 * S k) with (S (S (2 * k))) by lia. apply IH.
Qed.

Lemma untiered_lookup_odd p k :
  (save_pool_elem <$> untiered_imgs p) !! (2 * k + 1)
  = (fun c => EString (item_src (pool_item c))) <$> p !! k.
Proof.
  revert k. induction p as [|c p IH]; intros [|k]; try done.
  replace (2 * S k + 1) with (S (S (2 * k + 1))) by lia. apply IH.
Qed.

Lemma length_untiered_imgs p : length (untiered_imgs p) = 2 * length p.
Proof. induction p as [|c p IH]; simpl; [done|]. rewrite IH. lia. Qed.

Lemma saved_rows_count (rs : list row) :
  sum_list ((fun row => length (default [] (re_imgs row))) <$> (save_row <$> rs))
  = length (concat (row_items <$> rs)).
Proof.
  induction rs as [|rw rs IH]; [done|].
  rewrite !fmap_cons, concat_cons, length_app. cbn [sum_list sum_list_with].
  rewrite IH. f_equal. simpl. unfold id.
  by rewrite TiersFacts.save_imgs_containers, length_fmap.
Qed.

(** X26. Every file the page saves is one the utility reads, and what
    the utility collects from it are the items of the page whose label
    is not blank: those of the rows at their place in the row, under the
    saved name of the row, and those of the pool at the even places of
    [untiered], since the page saves every item of the pool twice, as an
    object and as a bare string. The count of the entries of the file
    counts every item of the pool twice. *)
Theorem saved_file_is_collected st :
  loadJsonFile (Some (PObject (serialized_tierlist st)))
  = inr (serialized_tierlist st)
  ∧ (∃ entries,
       collectAllEntries (serialized_tierlist st) = Some entries
       ∧ ∀ e, e ∈ entries
           ↔ (∃ r rw k it,
                 rows st !! r = Some rw ∧ row_items rw !! k = Some it
                 ∧ trim (item_name it) ≠ ""
                 ∧ e = Entry (Some (item_src it)) (trim (item_name it))
                         (Tier (substr0 MAX_NAME_LEN (row_name rw)) r k))
             ∨ (∃ k c,
                 pool st !! k = Some c ∧ trim (item_name (pool_item c)) ≠ ""
                 ∧ e = Entry (Some (item_src (pool_item c)))
                         (trim (item_name (pool_item c))) (Untiered (2 * k))))
  ∧ countEntries (serialized_tierlist st)
    = length (concat (row_items <$> rows st)) + 2 * length (pool st).
Proof.
  split; [done|]. split.
  - destruct (collectAllEntries (serialized_tierlist st)) as [entries|] eqn:Hc;
      [|done].
    exists entries. split; [done|]. intros e.
    rewrite (proj2 (KeptAndCollected.collectAllEntries_spec _ _ Hc) e).
    unfold sits_in, item_at. rewrite TiersFacts.serialized_untiered.
    change (default [] (wd_rows (serialized_tierlist st)))
      with (save_row <$> rows st).
    destruct e as [src name [tierName r k|i]];
      cbn [entry_location entry_src entry_name].
    + rewrite list_lookup_fmap. split.
      * intros (Hat & Hname & Htier). left.
        destruct (rows st !! r) as [rw|] eqn:Hr; [|done]. simpl in Hat, Htier.
        unfold id in Hat. rewrite TiersFacts.save_imgs_containers in Hat.
        rewrite list_lookup_fmap in Hat.
        destruct (row_items rw !! k) as [it|] eqn:Hk; [|done].
        injection Hat as <- <-. injection Htier as <-.
        by exists r, rw, k, it.
      * intros [(r' & rw & k' & it & Hr & Hk & Hname & [= -> -> -> -> ->])
               |(? & ? & _ & _ & [=])].
        rewrite Hr. simpl. unfold id.
        rewrite TiersFacts.save_imgs_containers, list_lookup_fmap, Hk. done.
    + split.
      * intros (Hat & Hname & _). right.
        destruct (Nat.Even_or_Odd i) as [[k ->]|[k ->]].
        -- rewrite untiered_lookup_even in Hat.
           destruct (pool st !! k) as [c|] eqn:Hk; [|done].
           injection Hat as <- <-. by exists k, c.
        -- rewrite untiered_lookup_odd in Hat. by destruct (pool st !! k).
      * intros [(? & ? & ? & ? & _ & _ & _ & [=])
               |(k & c & Hk & Hname & [= -> -> ->])].
        change (k + (k + 0)) with (2 * k). rewrite untiered_lookup_even, Hk. done.
  - unfold countEntries. cbn [serialized_tierlist wd_rows wd_untiered default].
    unfold id. rewrite saved_rows_count. f_equal.
    case_bool_decide as Hlen.
    + simpl. unfold id. by rewrite length_fmap, length_untiered_imgs.
    + rewrite length_untiered_imgs in Hlen. simpl.
      destruct (pool st); simpl in *; [done|lia].
Qed.

End ExportedFiles.


(* ================================================================== *)
(** ** Facts about the answer to the skip prompt *)
(* ================================================================== *)

Module SelectionFacts.
Import JsString Wire RemoveDuplicates Selection Samples.

Lemma add_selected totalGroups i selected :
  i < totalGroups →
  NoDup selected ∧ (∀ j, j ∈ selected → j < totalGroups) →
  NoDup (add i selected) ∧ (∀ j, j ∈ add i selected → j < totalGroups).
Proof.
  intros Hi [Hnd Hlt]. unfold add. case_bool_decide as Hin; [done|]. split.
  - apply NoDup_app. split; [done|]. split; [|apply NoDup_singleton].
    intros j Hj ->%list_elem_of_singleton. done.
  - intros j [?| ->%list_elem_of_singleton]%elem_of_app; auto.
Qed.

Lemma add_range_selected totalGroups js selected :
  (∀ i, i ∈ js → i < totalGroups) →
  NoDup selected ∧ (∀ j, j ∈ selected → j < totalGroups) →
  NoDup (foldl (fun sel i => add i sel) selected js)
  ∧ (∀ j, j ∈ foldl (fun sel i => add i sel) selected js → j < totalGroups).
Proof.
  revert selected. induction js as [|i js IH]; intros selected His Hsel; [done|].
  simpl. apply IH; [intros j ?; apply His; by right|].
  apply add_selected; [apply His; by left|done].
Qed.

Lemma select_part_selected totalGroups selected part :
  NoDup selected ∧ (∀ j, j ∈ selected → j < totalGroups) →
  NoDup (select_part totalGroups selected part)
  ∧ (∀ j, j ∈ select_part totalGroups selected part → j < totalGroups).
Proof.
  intros Hsel. unfold select_part. destruct (_ || _).
  - destruct (rangeMatch part) as [[g1 g2]|]; [|done].
    destruct (parseInt g1) as [n1|]; [|done].
    destruct (parseInt g2) as [n2|]; [|done].
    destruct (_ && _) eqn:Hok; [|done].
    apply andb_true_iff in Hok as [[H0%bool_decide_eq_true H1%bool_decide_eq_true]%andb_true_iff
                                    H2%bool_decide_eq_true].
    apply add_range_selected; [|done]. intros i Hi%elem_of_seq. lia.
  - destruct (parseInt part) as [n|]; [|done].
    destruct (_ && _) eqn:Hok; [|done].
    apply andb_true_iff in Hok as [H0%bool_decide_eq_true H1%bool_decide_eq_true].
    apply add_selected; [lia|done].
Qed.

Lemma parts_selected totalGroups parts selected :
  NoDup selected ∧ (∀ j, j ∈ selected → j < totalGroups) →
  NoDup (foldl (select_part totalGroups) selected parts)
  ∧ (∀ j, j ∈ foldl (select_part totalGroups) selected parts → j < totalGroups).
Proof.
  revert selected. induction parts as [|part parts IH]; intros selected Hsel;
    [done|].
  simpl. apply IH. by apply select_part_selected.
Qed.

Lemma StronglySorted_lt_seq start len : StronglySorted lt (seq start len).
Proof.
  revert start. induction len as [|len IH]; intros start; simpl; constructor.
  - apply IH.
  - apply Forall_forall. intros i Hi%elem_of_seq. lia.
Qed.

Lemma StronglySorted_le_NoDup (l : list nat) :
  StronglySorted le l → NoDup l → StronglySorted lt l.
Proof.
  induction 1 as [|x l Hl IH Hx]; intros Hnd; constructor.
  - apply IH. by apply NoDup_cons in Hnd as [_ ?].
  - apply NoDup_cons in Hnd as [Hnotin _]. rewrite Forall_forall in *.
    intros y Hy. specialize (Hx y Hy).
    destruct (decide (x = y)) as [->|]; [done|lia].
Qed.

Lemma parseGroupSelection_spec input totalGroups :
  StronglySorted lt (parseGroupSelection input totalGroups)
  ∧ ∀ i, i ∈ parseGroupSelection input totalGroups → i < totalGroups.
Proof.
  unfold parseGroupSelection. destruct (_ || _).
  { split; [apply StronglySorted_lt_seq|]. intros i Hi%elem_of_seq. lia. }
  destruct (_ || _); [split; [constructor|by intros i ?%elem_of_nil]|].
  destruct (parts_selected totalGroups
              (split_parts (toLowerCase (trim input)) "") [])
    as [Hnd Hlt]; [split; [constructor|by intros i ?%elem_of_nil]|].
  split.
  - apply StronglySorted_le_NoDup.
    + apply StronglySorted_merge_sort; apply _.
    + by rewrite merge_sort_Permutation.
  - intros i Hi. apply Hlt. by rewrite merge_sort_Permutation in Hi.
Qed.

(** What is looked at for the words: the answer without the blanks
    around it, in lower case. *)
Lemma keyword_of_answer pre w post :
  all_white_space pre = true → all_white_space post = true →
  starts_dark (toLowerCase w) = true → ends_dark (toLowerCase w) = true →
  toLowerCase (trim (pre ++ w ++ post)%string) = toLowerCase w.
Proof.
  intros Hpre Hpost Hstart Hend.
  destruct (JsStringFacts.toLowerCase_dark w) as [Hs He].
  by rewrite JsStringFacts.trim_blanks by (done || congruence).
Qed.

(** X27. Whatever is typed at the skip prompt, the groups to skip come
    out as positions of groups that exist, in ascending order and each
    once. An answer that is "all" or "a", in small or capital letters and
    with any white space before and after it, gives every group; one
    that is "none", "n" or nothing but white space gives none. Numbers
    count from 1, and a range names both its ends. *)
Theorem groups_to_skip_are_groups input totalGroups :
  StronglySorted lt (parseGroupSelection input totalGroups)
  ∧ (∀ i, i ∈ parseGroupSelection input totalGroups → i < totalGroups)
  ∧ (∀ pre w post,
       all_white_space pre = true → all_white_space post = true →
       toLowerCase w = "all" ∨ toLowerCase w = "a" →
       parseGroupSelection (pre ++ w ++ post)%string totalGroups
       = seq 0 totalGroups)
  ∧ (∀ pre w post,
       all_white_space pre = true → all_white_space post = true →
       toLowerCase w = "none" ∨ toLowerCase w = "n" ∨ w = "" →
       parseGroupSelection (pre ++ w ++ post)%string totalGroups = [])
  ∧ parseGroupSelection " ALL " totalGroups = seq 0 totalGroups
  ∧ parseGroupSelection "A" totalGroups = seq 0 totalGroups
  ∧ parseGroupSelection "  None" totalGroups = []
  ∧ parseGroupSelection "N " totalGroups = []
  ∧ parseGroupSelection "   " totalGroups = []
  ∧ parseGroupSelection "" totalGroups = []
  ∧ parseGroupSelection "5, 1 1,9" 6 = [0; 4]
  ∧ parseGroupSelection "2-4" 6 = [1; 2; 3]
  ∧ parseGroupSelection "4:2,0,x" 6 = [].
Proof.
  destruct (parseGroupSelection_spec input totalGroups) as [? ?].
  split; [done|]. split; [done|]. split; [|split; [|by repeat split]].
  - intros pre w post Hpre Hpost Hw. unfold parseGroupSelection.
    assert (starts_dark (toLowerCase w) = true
            ∧ ends_dark (toLowerCase w) = true) as [Hs He]
      by (destruct Hw as [Hw|Hw]; by rewrite Hw).
    rewrite keyword_of_answer by done. by destruct Hw as [-> | ->].
  - intros pre w post Hpre Hpost Hw. unfold parseGroupSelection.
    assert (starts_dark (toLowerCase w) = true
            ∧ ends_dark (toLowerCase w) = true) as [Hs He]
      by (destruct Hw as [Hw|[Hw|Hw]]; by rewrite Hw).
    rewrite keyword_of_answer by done. by destruct Hw as [-> |[-> | ->]].
Qed.




End SelectionFacts.
